(** * The script element parser of templ (parser/v2/scriptparser.go)

    A shallow embedding of [scriptElementParser.Parse], [isStartOfRegex] and
    [hasJavaScriptType], together with the combinators of the
    [github.com/a-h/parse] library that the file builds its token parsers
    from, and the properties of the parser that its specification states.

    Go strings are byte sequences: they are lists of [ascii] here, and every
    index and length below counts bytes, as [len], [s[i]] and the cursor of
    [parse.Input] do. *)

From Stdlib Require Import List Ascii Arith Bool Lia.
From Stdlib Require ZArith.
From Stdlib Require String.
Import ListNotations.
Import String.StringSyntax.
Delimit Scope string_scope with string.
Import BinInt.

Set Implicit Arguments.

(** ** Go strings *)

Definition gostring := list ascii.

(** A Go string constant. *)
Definition lit (x : String.string) : gostring :=
  String.list_ascii_of_string x.
Arguments lit x%_string.

Definition LF : ascii := ascii_of_nat 10.
Definition CR : ascii := ascii_of_nat 13.
Definition TAB : ascii := ascii_of_nat 9.
Definition DQUOTE : ascii := ascii_of_nat 34.

(** [a == b] on strings. *)
Fixpoint streq (a b : gostring) : bool :=
  match a, b with
  | [], [] => true
  | x :: a', y :: b' => Ascii.eqb x y && streq a' b'
  | _, _ => false
  end.

(** [s[from:to]]; the call sites keep [from <= to <= len(s)]. *)
Definition slice (s : gostring) (from to : nat) : gostring :=
  firstn (to - from) (skipn from s).

(** Membership of a byte in a set of bytes given as a string. *)
Definition byteIn (c : ascii) (set : gostring) : bool :=
  existsb (Ascii.eqb c) set.

(** ** The parts of Go's standard library the file calls *)

Module utf8.

(** Runes are numbers: a [rune] is an [int32]. *)

Definition RuneError : Z := 0xFFFD.
Definition RuneSelf : Z := 0x80.

(** A byte as a number. *)
Definition byte (c : ascii) : Z := Z.of_nat (nat_of_ascii c).

(** The table [first] and the table [acceptRanges] read through it, for a
    byte that is not ASCII: the size of the sequence that the byte starts
    and the range of its second byte, or [None] for a byte that starts no
    sequence. *)
Definition first (s0 : Z) : option (nat * (Z * Z)) :=
  (if s0 <? 0xC2 then None
   else if s0 <=? 0xDF then Some (2%nat, (0x80, 0xBF))
   else if s0 =? 0xE0 then Some (3%nat, (0xA0, 0xBF))
   else if s0 <=? 0xEC then Some (3%nat, (0x80, 0xBF))
   else if s0 =? 0xED then Some (3%nat, (0x80, 0x9F))
   else if s0 <=? 0xEF then Some (3%nat, (0x80, 0xBF))
   else if s0 =? 0xF0 then Some (4%nat, (0x90, 0xBF))
   else if s0 <=? 0xF3 then Some (4%nat, (0x80, 0xBF))
   else if s0 =? 0xF4 then Some (4%nat, (0x80, 0x8F))
   else None)%Z.

(** A byte that is no continuation byte. *)
Definition notContinuation (b : Z) : bool := ((b <? 0x80) || (0xBF <? b))%Z.

(** [utf8.DecodeRuneInString(s)]: the first rune of [s] and its width in
    bytes; [RuneError] with width 1 for bytes that encode no rune. *)
Definition DecodeRuneInString (s : gostring) : Z * nat :=
  match s with
  | [] => (RuneError, 0)
  | c0 :: rest =>
      let s0 := byte c0 in
      if (s0 <? RuneSelf)%Z then (s0, 1)
      else
        match first s0 with
        | None => (RuneError, 1)
        | Some (sz, (lo, hi)) =>
            if length s <? sz then (RuneError, 1)
            else
              match rest with
              | [] => (RuneError, 1)
              | c1 :: rest1 =>
                  let s1 := byte c1 in
                  if ((s1 <? lo) || (hi <? s1))%Z then (RuneError, 1)
                  else if sz <=? 2
                  then (Z.lor (Z.shiftl (Z.land s0 0x1F) 6) (Z.land s1 0x3F),
                        2)
                  else
                    match rest1 with
                    | [] => (RuneError, 1)
                    | c2 :: rest2 =>
                        let s2 := byte c2 in
                        if notContinuation s2 then (RuneError, 1)
                        else if sz <=? 3
                        then (Z.lor (Z.lor (Z.shiftl (Z.land s0 0x0F) 12)
                                           (Z.shiftl (Z.land s1 0x3F) 6))
                                    (Z.land s2 0x3F),
                              3)
                        else
                          match rest2 with
                          | [] => (RuneError, 1)
                          | c3 :: _ =>
                              let s3 := byte c3 in
                              if notContinuation s3 then (RuneError, 1)
                              else
                                (Z.lor
                                   (Z.lor
                                      (Z.lor (Z.shiftl (Z.land s0 0x07) 18)
                                             (Z.shiftl (Z.land s1 0x3F) 12))
                                      (Z.shiftl (Z.land s2 0x3F) 6))
                                   (Z.land s3 0x3F),
                                 4)
                          end
                    end
              end
        end
  end.

(** The runes that [for _, r := range s] goes through: at most one for each
    byte of [s]. *)
Fixpoint rangeOver (fuel : nat) (s : gostring) : list Z :=
  match fuel, s with
  | S fuel', _ :: _ =>
      let (r, size) := DecodeRuneInString s in
      r :: rangeOver fuel' (skipn size s)
  | _, _ => []
  end.

Definition runes (s : gostring) : list Z := rangeOver (length s) s.

End utf8.

Module unicode.


(** [unicode.IsSpace(rune(b))] for a byte [b]: a rune below 256 takes the
    Latin-1 branch of [IsSpace], whose cases are the six ASCII space
    characters, U+0085 and U+00A0. *)
Definition IsSpace (b : ascii) : bool :=
  let n := nat_of_ascii b in
  (n =? 9) || (n =? 10) || (n =? 11) || (n =? 12) || (n =? 13)
  || (n =? 32) || (n =? 133) || (n =? 160).

(** The table [asciiFold]: the other case of a letter, where the orbits of
    [k] and of [s] go on to U+212A, the Kelvin sign, and to U+017F, the
    long s. *)
Definition asciiFold (r : Z) : Z :=
  (if (65 <=? r) && (r <=? 90) then r + 32
   else if r =? 107 then 0x212A
   else if r =? 115 then 0x17F
   else if (97 <=? r) && (r <=? 122) then r - 32
   else r)%Z.

(** [unicode.SimpleFold(r)], for the runes that the comparisons of this
    file reach.  One of the two texts of every call of [strings.EqualFold]
    is a constant of ASCII characters, and the loop of [EqualFold] starts
    from the smaller of two runes: it steps through the orbit of an ASCII
    character, which holds its two cases and, for [k] and [s], the Kelvin
    sign and the long s.  A rune of another orbit stands for itself
    here. *)
Definition SimpleFold (r : Z) : Z :=
  (if (r <? 0) || (0x10FFFF <? r) then r
   else if r <? 128 then asciiFold r
   else if r =? 0x17F then 83
   else if r =? 0x212A then 75
   else r)%Z.

End unicode.

Module strings.


(** [strings.TrimRight(s, cutset)] for an ASCII cutset: the trailing bytes
    that belong to the cutset are removed. *)
Fixpoint TrimRight (s cutset : gostring) : gostring :=
  match s with
  | [] => []
  | c :: r =>
      match TrimRight r cutset with
      | [] => if byteIn c cutset then [] else [c]
      | t => c :: t
      end
  end.

(** [strings.HasSuffix(s, suffix)]:
    [len(s) >= len(suffix) && s[len(s)-len(suffix):] == suffix]. *)
Definition HasSuffix (s suffix : gostring) : bool :=
  (length suffix <=? length s)
  && streq (skipn (length s - length suffix) s) suffix.

(** The loop [for r != sr && r < tr { r = unicode.SimpleFold(r) }] of
    [EqualFold]; an orbit of [SimpleFold] has four runes at most. *)
Fixpoint foldUpTo (fuel : nat) (sr tr r : Z) : Z :=
  match fuel with
  | 0 => r
  | S fuel' =>
      if (negb (r =? sr) && (r <? tr))%Z
      then foldUpTo fuel' sr tr (unicode.SimpleFold r)
      else r
  end.

(** ['A' <= sr && sr <= 'Z' && tr == sr+'a'-'A']. *)
Definition upperLower (sr tr : Z) : bool :=
  ((65 <=? sr) && (sr <=? 90) && (tr =? sr + 32))%Z.

(** The body of the loop after [hasUnicode], for the runes [sr] of [s] and
    [tr] of [t]: [true] where the loop continues, [false] where it
    returns false. *)
Definition foldedRunes (sr tr : Z) : bool :=
  if (tr =? sr)%Z then true
  else
    let (sr, tr) := if (tr <? sr)%Z then (tr, sr) else (sr, tr) in
    if (tr <? utf8.RuneSelf)%Z then upperLower sr tr
    else (foldUpTo 4 sr tr (unicode.SimpleFold sr) =? tr)%Z.

(** The loop after [hasUnicode], over the runes [rs] of what is left of
    [s]. *)
Fixpoint hasUnicode (rs : list Z) (t : gostring) : bool :=
  match rs with
  | [] => length t =? 0
  | sr :: rs' =>
      match t with
      | [] => false
      | d :: t' =>
          let (tr, t) :=
            if (utf8.byte d <? utf8.RuneSelf)%Z then (utf8.byte d, t')
            else let (r, size) := utf8.DecodeRuneInString t in
                 (r, skipn size t) in
          if foldedRunes sr tr then hasUnicode rs' t else false
      end
  end.

(** [strings.EqualFold(s, t)]: the loop over the bytes of ASCII texts, and
    the loop over runes from the first byte on that is not ASCII. *)
Fixpoint EqualFold (s t : gostring) : bool :=
  match s, t with
  | c :: s', d :: t' =>
      let sr := utf8.byte c in
      let tr := utf8.byte d in
      if (utf8.RuneSelf <=? Z.lor sr tr)%Z
      then hasUnicode (utf8.runes s) t
      else if (tr =? sr)%Z then EqualFold s' t'
      else
        let (sr, tr) := if (tr <? sr)%Z then (tr, sr) else (sr, tr) in
        if upperLower sr tr then EqualFold s' t' else false
  | _, _ => length s =? length t
  end.

End strings.

(** ** [isStartOfRegex] *)

Definition keywords : list gostring :=
  map lit ["return"; "yield"; "case"; "delete"; "do"; "else"; "in";
           "instanceof"; "new"; "throw"; "typeof"; "void"]%string.

(** The characters of the [switch lastChar] statement. *)
Definition regexPrecedingChars : gostring := lit "(,=:[!&|?{;".

(** [s[i]]; every use below is guarded so that [i < len(s)]. *)
Definition byteAt (s : gostring) (i : nat) : ascii := nth i s zero.

(** The [for _, kw := range keywords] loop: [true] when an iteration
    returns, [false] when the loop runs to its end. *)
Fixpoint keywordLoop (s : gostring) (kws : list gostring) : bool :=
  match kws with
  | [] => false
  | kw :: rest =>
      if strings.HasSuffix s kw
      then if (length s =? length kw)
              || unicode.IsSpace (byteAt s (length s - length kw - 1))
           then true
           else keywordLoop s rest
      else keywordLoop s rest
  end.

Definition isStartOfRegex (s : gostring) : bool :=
  let s := strings.TrimRight s (lit " " ++ [TAB; CR; LF]) in
  if length s =? 0 then true
  else if keywordLoop s keywords then true
  else
    let lastChar := byteAt s (length s - 1) in
    if byteIn lastChar regexPrecedingChars then true else false.


(** ** The [github.com/a-h/parse] combinators

    A [parse.Input] is an immutable text with a cursor, [charIndex]; a
    parser reads the text, moves the cursor and returns
    [(match, ok, err)].  A parser is therefore a function of the text and of
    the cursor before the call, giving the triple and the cursor after it. *)

Module parse.

(** [Input.Position()]: byte index, line and column. *)
Record Position : Type := mkPosition {
  Index : nat;
  Line : nat;
  Col : nat
}.

(** The value of [parse.Error(msg, pos)]. *)
Record ParseError : Type := Error {
  Msg : String.string;
  Pos : Position
}.
Arguments Error Msg%_string Pos.

(** The three results of [Parser.Parse]. *)
Record Result (T : Type) : Type := mkResult {
  value : T;
  ok : bool;
  err : option ParseError
}.

Definition Parser (T : Type) : Type := gostring -> nat -> Result T * nat.

Definition isErr {T : Type} (r : Result T) : bool :=
  match err r with Some _ => true | None => false end.

(** [Input.PositionAt(index)]: the line is the number of newlines before
    [index], the column the distance from the end of the last of them. *)
Definition PositionAt (s : gostring) (index : nat) : Position :=
  let step (lc : nat * nat) (c : ascii) :=
    if Ascii.eqb c LF then (S (fst lc), 0) else (fst lc, S (snd lc)) in
  let lc := fold_left step (firstn index s) (0, 0) in
  mkPosition index (fst lc) (snd lc).

(** [Input.Peek(n)] for [n >= 0]. *)
Definition Peek (s : gostring) (i n : nat) : gostring * bool :=
  if i + n <=? length s then (slice s i (i + n), true) else ([], false).

(** [Input.Take(n)]: as [Peek], and the cursor moves past what is taken. *)
Definition Take (s : gostring) (i n : nat) : gostring * bool * nat :=
  if i + n <=? length s then (slice s i (i + n), true, i + n)
  else ([], false, i).

(** [Input.Seek(index)]: refused when [index] is past the end. *)
Definition Seek (s : gostring) (i index : nat) : nat :=
  if index <=? length s then index else i.

(** [parse.String(m)]. *)
Definition String (m : gostring) : Parser gostring := fun s i =>
  let (x, peeked) := Peek s i (length m) in
  if peeked && streq m x then (mkResult x true None, i + length m)
  else (mkResult [] false None, i).

(** [parse.RuneWhere(f)]: one byte, tested as a rune; the match is empty
    when the test fails. *)
Definition RuneWhere (f : ascii -> bool) : Parser gostring := fun s i =>
  match Peek s i 1 with
  | ([c], true) =>
      if f c then (mkResult [c] true None, i + 1)
      else (mkResult [] false None, i)
  | _ => (mkResult [] false None, i)
  end.

Definition Rune (r : ascii) : Parser gostring := RuneWhere (Ascii.eqb r).
Definition RuneIn (set : gostring) : Parser gostring :=
  RuneWhere (fun c => byteIn c set).
Definition AnyRune : Parser gostring := RuneWhere (fun _ => true).
Definition ZeroToNine : Parser gostring := RuneIn (lit "0123456789").

(** [parse.EOF()]: succeeds when no byte can be peeked. *)
Definition EOF : Parser gostring := fun s i =>
  let (_, canAdvance) := Peek s i 1 in
  (mkResult [] (negb canAdvance) None, i).

(** [parse.Any(parsers...)]: the first parser that matches or fails with an
    error decides. *)
Fixpoint Any {T : Type} (zero : T) (parsers : list (Parser T)) : Parser T :=
  fun s i =>
    match parsers with
    | [] => (mkResult zero false None, i)
    | p :: rest =>
        let (r, i1) := p s i in
        if isErr r || ok r then (r, i1)
        else match rest with
             | [] => (r, i1)
             | _ => Any zero rest s i1
             end
    end.

(** [parse.Or(a, b)]: [b] is tried when [a] does not match.  The pair of
    [Match] values it returns holds, for each side, the value and whether
    that side matched: an [option] here. *)
Definition Or {A B : Type} (a : Parser A) (b : Parser B)
  : Parser (option A * option B) := fun s i =>
  let (ra, i1) := a s i in
  if isErr ra then (mkResult (None, None) (ok ra) (err ra), i1)
  else if ok ra then (mkResult (Some (value ra), None) true None, i1)
  else
    let (rb, i2) := b s i1 in
    if isErr rb then (mkResult (None, None) (ok rb) (err rb), i2)
    else if ok rb then (mkResult (None, Some (value rb)) true None, i2)
    else (mkResult (None, None) false None, i2).

(** The loop of [parse.StringFrom]: the parsers run one after the other;
    the result is the cursor after the last one. *)
Fixpoint sequence {T : Type} (parsers : list (Parser T)) (s : gostring)
    (i : nat) : Result unit * nat :=
  match parsers with
  | [] => (mkResult tt true None, i)
  | p :: rest =>
      let (r, i1) := p s i in
      if isErr r then (mkResult tt (ok r) (err r), i1)
      else if negb (ok r) then (mkResult tt false None, i1)
      else sequence rest s i1
  end.

(** [parse.StringFrom(parsers...)]: the text that the parsers consume in
    sequence; the cursor returns to the start when one of them does not
    match. *)
Definition StringFrom {T : Type} (parsers : list (Parser T))
  : Parser gostring := fun s start =>
  let (r, i1) := sequence parsers s start in
  if isErr r then (mkResult [] (ok r) (err r), i1)
  else if negb (ok r) then (mkResult [] false None, Seek s i1 start)
  else (mkResult (slice s start i1) true None, i1).

(** The loop of [parse.StringUntil]: each round tries the delimiter and,
    when it does not match, takes one byte.  A round takes a byte or ends
    the loop, so [fuel] rounds with [fuel] above the number of bytes left
    run the loop to its end. *)
Fixpoint untilLoop {T : Type} (delimiter : Parser T) (s : gostring)
    (fuel start i : nat) : Result gostring * nat :=
  match fuel with
  | 0 => (mkResult [] false None, start)
  | S fuel' =>
      let (r, i1) := delimiter s i in
      if isErr r then (mkResult [] (ok r) (err r), i1)
      else if ok r then (mkResult (slice s start i) true None, i)
      else
        match Take s i1 1 with
        | (_, true, i2) => untilLoop delimiter s fuel' start i2
        | (_, false, _) => (mkResult [] false None, Seek s i1 start)
        end
  end.

(** [parse.StringUntil(delimiter)]: the text up to, and without, the first
    place where the delimiter matches; no match when the input ends
    first. *)
Definition StringUntil {T : Type} (delimiter : Parser T) : Parser gostring :=
  fun s i => untilLoop delimiter s (S (length s - i)) i i.

(** The number of leading bytes of [s] that satisfy [f]. *)
Fixpoint span (f : ascii -> bool) (s : gostring) : nat :=
  match s with
  | c :: r => if f c then S (span f r) else 0
  | [] => 0
  end.

(** [parse.OptionalWhitespace]: the longest run of white-space bytes,
    possibly empty; it always matches. *)
Definition OptionalWhitespace : Parser gostring := fun s i =>
  let n := span unicode.IsSpace (skipn i s) in
  (mkResult (slice s i (i + n)) true None, i + n).

(** [parse.NewLine]. *)
Definition NewLine : Parser gostring :=
  Any [] [String [CR; LF]; String [LF]].

End parse.

Import parse.

(** ** The syntax tree *)

(** Modelled from the spec: the node types are declared outside
    scriptparser.go.  An expression is its source text and the range it
    covers; a [GoCode] node wraps the expression that [{{ ... }}] holds. *)
Record Range : Type := NewRange { From : Position; To : Position }.

Record Expression : Type := mkExpression {
  ExprValue : gostring;
  ExprRange : Range
}.

Record GoCode : Type := mkGoCode { GoExpression : Expression }.

(** Modelled from the spec: an attribute is a literal key/value pair
    ([*ConstantAttribute]) or an attribute whose value is a template
    expression; a key is a constant name ([ConstantAttributeKey]) or an
    expression. *)
Inductive AttributeKey : Type :=
| ConstantAttributeKey (Name : gostring)
| ExpressionAttributeKey (e : Expression).

Inductive Attribute : Type :=
| ConstantAttribute (Key : AttributeKey) (Value : gostring)
| ExpressionAttribute (Key : AttributeKey) (e : Expression).

(** Modelled from the spec: one entry of [Contents] is script text
    ([Value] set) or a Go expression ([GoCode] set, with the flag), as the
    tests of the parser read it.  The fields [GoCode] of an entry and
    [Range] of an element are [GoCodeOf] and [ElementRange] here, and the
    fields of an expression [ExprValue] and [ExprRange]: types have the
    other names. *)
Record ScriptContents : Type := mkScriptContents {
  Value : option gostring;
  GoCodeOf : option GoCode;
  InsideStringLiteral : bool
}.

(** Modelled from the spec: the two constructors of an entry, and the
    element node, declared outside scriptparser.go. *)
Definition NewScriptContentsScriptCode (value : gostring) : ScriptContents :=
  mkScriptContents (Some value) None false.

Definition NewScriptContentsGo (code : GoCode) (insideStringLiteral : bool)
  : ScriptContents :=
  mkScriptContents None (Some code) insideStringLiteral.

Record ScriptElement : Type := mkScriptElement {
  Attributes : list Attribute;
  Contents : list ScriptContents;
  ElementRange : Range
}.

Definition zeroPosition : Position := mkPosition 0 0 0.
Definition zeroRange : Range := NewRange zeroPosition zeroPosition.

(** ** The token parsers of scriptparser.go *)

Definition jsQuote := gostring.
Definition jsQuoteNone : jsQuote := lit "".
Definition jsQuoteSingle : jsQuote := lit "'".
Definition jsQuoteDouble : jsQuote := [DQUOTE].
Definition jsQuoteBacktick : jsQuote := lit "`".

Definition BACKSLASH : ascii := ascii_of_nat 92.

Definition jsEndTag : Parser gostring := parse.String (lit "</script>").
Definition endTagStart : Parser gostring := parse.String (lit "</").

Definition hexDigit : Parser gostring :=
  Any [] [ZeroToNine; RuneIn (lit "abcdef"); RuneIn (lit "ABCDEF")].

Definition jsUnicodeEscape : Parser gostring :=
  StringFrom [parse.String [BACKSLASH; "u"%char];
              hexDigit; hexDigit; hexDigit; hexDigit].

Definition jsHexEscape : Parser gostring :=
  StringFrom [parse.String [BACKSLASH; "x"%char]; hexDigit; hexDigit].

Definition jsBackslashEscape : Parser gostring :=
  StringFrom [parse.String [BACKSLASH]; AnyRune].

Section EscapedCharacter.

(** [parse.StringFrom(parse.AtLeast(1, parse.ZeroOrMore(hexDigit)))], the
    third part of [jsExtendedUnicodeEscape].  The repetition combinators
    of the library are not modelled: the parser stands here as a
    parameter, and [jsCharacter_hexDigits_irrelevant] below shows that no
    result of [jsCharacter] depends on it. *)
Variable hexDigits : Parser gostring.

Definition jsExtendedUnicodeEscape : Parser gostring :=
  StringFrom [parse.String [BACKSLASH; "u"%char; "{"%char];
              hexDigit; hexDigits; parse.String (lit "}")].

Definition jsEscapedCharacter : Parser gostring :=
  Any [] [jsBackslashEscape; jsUnicodeEscape; jsHexEscape;
          jsExtendedUnicodeEscape].

Definition jsCharacterWith : Parser gostring :=
  Any [] [jsEscapedCharacter; AnyRune].

End EscapedCharacter.

Definition jsStartSingleLineComment : Parser gostring :=
  parse.String (lit "//").
Definition jsEndOfSingleLineComment : Parser gostring :=
  StringFrom [Or NewLine EOF].
Definition jsSingleLineComment : Parser gostring :=
  StringFrom [jsStartSingleLineComment;
              StringUntil jsEndOfSingleLineComment;
              jsEndOfSingleLineComment].

Definition jsStartMultiLineComment : Parser gostring :=
  parse.String (lit "/*").
Definition jsEndOfMultiLineComment : Parser gostring :=
  StringFrom [Or (parse.String (lit "*/")) EOF].
Definition jsMultiLineComment : Parser gostring :=
  StringFrom [jsStartMultiLineComment;
              StringUntil jsEndOfMultiLineComment;
              jsEndOfMultiLineComment;
              OptionalWhitespace].

Definition jsComment : Parser gostring :=
  Any [] [jsSingleLineComment; jsMultiLineComment].

(** Modelled from the spec: [lt] and [gt], declared outside
    scriptparser.go, recognise the [<] and the [>] of a tag. *)
Definition lt : Parser gostring := Rune "<"%char.
Definition gt : Parser gostring := Rune ">"%char.

(** ** [hasJavaScriptType] and [scriptElementParser.Parse] *)

Section ScriptElementParser.

(** [strings.EqualFold] of Go's standard library: equality of two strings
    under Unicode case folding. *)
Variable EqualFold : gostring -> gostring -> bool.

(** The parsers of the surrounding grammar, declared outside
    scriptparser.go: element names, attribute lists, and a Go expression
    in double braces inside a script. *)
Variable elementNameParser : Parser gostring.
Variable attributesParser : Parser (list Attribute).
Variable goCodeInJavaScript : Parser GoCode.

(** The third part of [jsExtendedUnicodeEscape] (see
    [jsExtendedUnicodeEscape]). *)
Variable hexDigits : Parser gostring.

Definition jsCharacter : Parser gostring := jsCharacterWith hexDigits.

Definition javaScriptTypeAttributeValues : list gostring :=
  [lit ""; lit "text/javascript"; lit "javascript"; lit "module"].

Fixpoint hasJavaScriptType (attrs : list Attribute) : bool :=
  match attrs with
  | [] => true
  | attr :: rest =>
      match attr with
      | ConstantAttribute (ConstantAttributeKey name) value =>
          if negb (EqualFold name (lit "type"))
          then hasJavaScriptType rest
          else existsb (EqualFold value) javaScriptTypeAttributeValues
      | _ => hasJavaScriptType rest
      end
  end.

(** The variables of the scanning loop: [e.Contents], the string builder
    [sb], [stringLiteralDelimiter], [inRegex], and the cursor of [pi]. *)
Record scanner : Type := mkScanner {
  contents : list ScriptContents;
  sb : gostring;
  stringLiteralDelimiter : jsQuote;
  inRegex : bool;
  cursor : nat
}.

(** How one round of the loop ends: [continue loop] (or the end of the
    body), [break loop], or a [return] from inside the loop. *)
Inductive round : Type :=
| Continue (st : scanner)
| Break (st : scanner)
| Return (r : Result (option ScriptElement)) (i : nat).

(** [if sb.Len() > 0 { e.Contents = append(...); sb.Reset() }]. *)
Definition flush (st : scanner) : scanner :=
  if 0 <? length (sb st)
  then mkScanner (contents st ++ [NewScriptContentsScriptCode (sb st)]) []
                 (stringLiteralDelimiter st) (inRegex st) (cursor st)
  else st.

(** The first [if] after a character is read: the new value of
    [inRegex]. *)
Definition regexAfter (st : scanner) (c : gostring) : bool :=
  if streq (stringLiteralDelimiter st) jsQuoteNone then
    if negb (inRegex st) && streq c (lit "/") && isStartOfRegex (sb st)
    then true
    else if inRegex st && streq c (lit "/") then
      if (0 <? length (sb st))
         && negb (Ascii.eqb (byteAt (sb st) (length (sb st) - 1)) BACKSLASH)
      then false
      else inRegex st
    else inRegex st
  else inRegex st.

(** The second [if], which reads the new value of [inRegex]: the new
    value of [stringLiteralDelimiter]. *)
Definition delimiterAfter (st : scanner) (inRegex' : bool) (c : gostring)
  : jsQuote :=
  if negb inRegex' then
    if streq c [DQUOTE] || streq c (lit "'") || streq c (lit "`") then
      if streq (stringLiteralDelimiter st) jsQuoteNone then c
      else if streq (stringLiteralDelimiter st) c then jsQuoteNone
      else stringLiteralDelimiter st
    else stringLiteralDelimiter st
  else stringLiteralDelimiter st.

(** One round of [loop:] on the text [s]. *)
Definition loopBody (s : gostring) (st : scanner) : round :=
  let (rEnd, i1) := jsEndTag s (cursor st) in
  if isErr rEnd || ok rEnd
  then Break (mkScanner (contents st) (sb st) (stringLiteralDelimiter st)
                        (inRegex st) i1)
  else
    (* Check for Go expression first. *)
    let (rGo, i2) := goCodeInJavaScript s i1 in
    match err rGo with
    | Some e => Return (mkResult None false (Some e)) i2
    | None =>
        if ok rGo then
          let st' := flush st in
          Continue
            (mkScanner
               (contents st'
                  ++ [NewScriptContentsGo (value rGo)
                        (negb (streq (stringLiteralDelimiter st)
                                     jsQuoteNone))])
               (sb st') (stringLiteralDelimiter st) (inRegex st) i2)
        else
          (* Then check for comments. *)
          let (rComment, i3) := jsComment s i2 in
          match err rComment with
          | Some e => Return (mkResult None false (Some e)) i3
          | None =>
              if ok rComment then
                let st' := flush st in
                Continue
                  (mkScanner
                     (contents st'
                        ++ [NewScriptContentsScriptCode (value rComment)])
                     (sb st') (stringLiteralDelimiter st) (inRegex st) i3)
              else
                (* Finally, parse characters. *)
                let (rChar, i4) := jsCharacter s i3 in
                match err rChar with
                | Some e => Return (mkResult None false (Some e)) i4
                | None =>
                    if negb (ok rChar) then
                      let (rEOF, i5) := EOF s i4 in
                      if ok rEOF
                      then Break (mkScanner (contents st) (sb st)
                                    (stringLiteralDelimiter st)
                                    (inRegex st) i5)
                      else Return
                             (mkResult None false
                                (Some (Error "failed to parse script content"
                                             (PositionAt s i5))))
                             i5
                    else
                      let c := value rChar in
                      let inRegex' := regexAfter st c in
                      let delimiter' := delimiterAfter st inRegex' c in
                      Continue (mkScanner (contents st) (sb st ++ c)
                                          delimiter' inRegex' i4)
                end
          end
    end.

(** How the loop ends: at [break loop] with the variables as they are
    then, or by a [return] inside it. *)
Inductive loopExit : Type :=
| Broke (st : scanner)
| Returned (r : Result (option ScriptElement)) (i : nat).

(** The loop.  Go's [for] has no bound; [fuel] bounds the number of rounds
    here, and [None] says that [fuel] rounds did not end it. *)
Fixpoint scan (fuel : nat) (s : gostring) (st : scanner)
  : option loopExit :=
  match fuel with
  | 0 => None
  | S fuel' =>
      match loopBody s st with
      | Continue st' => scan fuel' s st'
      | Break st' => Some (Broke st')
      | Return r i => Some (Returned r i)
      end
  end.

(** The state in which the loop is entered, with the cursor after [>]. *)
Definition scanStart (i : nat) : scanner :=
  mkScanner [] [] jsQuoteNone false i.

(** Lines 62-71 of [Parse], the contents of a script that is not
    JavaScript: the text up to the end tag is one entry. *)
Definition parseRawText (attrs : list Attribute) (s : gostring) (i5 : nat)
  : Result (option ScriptElement) * nat :=
  let (rText, i6) := StringUntil jsEndTag s i5 in
  if isErr rText || negb (ok rText)
  then (mkResult (Some (mkScriptElement attrs [] zeroRange)) true
          (Some (Error "<script>: expected end tag not present"
                       (PositionAt s i6))),
        i6)
  else
    let (_, i7) := jsEndTag s i6 in
    (mkResult
       (Some (mkScriptElement attrs
                [NewScriptContentsScriptCode (value rText)] zeroRange))
       true None,
     i7).

(** Lines 73-156 of [Parse], the contents of a JavaScript script: the
    loop, the last flush of [sb], and the range of the element, which
    starts at [start]. *)
Definition parseJavaScript (fuel : nat) (start : Position)
    (attrs : list Attribute) (s : gostring) (i5 : nat)
  : option (Result (option ScriptElement) * nat) :=
  match scan fuel s (scanStart i5) with
  | None => None
  | Some (Returned r i) => Some (r, i)
  | Some (Broke st) =>
      let st' := flush st in
      Some (mkResult
              (Some (mkScriptElement attrs (contents st')
                       (NewRange start (PositionAt s (cursor st')))))
              true None,
            cursor st')
  end.

(** [scriptElementParser.Parse] on the text [s] with the cursor at [i0]:
    the results [(n, ok, err)] and the cursor at the return; [None] when
    [fuel] rounds did not end the scanning loop. *)
Definition Parse (fuel : nat) (s : gostring) (i0 : nat)
  : option (Result (option ScriptElement) * nat) :=
  let start := PositionAt s i0 in
  (* < *)
  let (rLt, i1) := lt s i0 in
  if isErr rLt || negb (ok rLt)
  then Some (mkResult None (ok rLt) (err rLt), i1)
  else
  (* Element name. *)
  let (rName, i2) := elementNameParser s i1 in
  if isErr rName || negb (ok rName)
  then Some (mkResult None (ok rName) (err rName), Seek s i2 (Index start))
  else
  if negb (streq (value rName) (lit "script"))
  then Some (mkResult None false (err rName), Seek s i2 (Index start))
  else
  let (rAttrs, i3) := attributesParser s i2 in
  if isErr rAttrs || negb (ok rAttrs)
  then Some (mkResult None (ok rAttrs) (err rAttrs),
             Seek s i3 (Index start))
  else
  (* Optional whitespace. *)
  let (rSpace, i4) := OptionalWhitespace s i3 in
  if isErr rSpace
  then Some (mkResult None (ok rAttrs) (err rSpace),
             Seek s i4 (Index start))
  else
  (* > *)
  let (rGt, i5) := gt s i4 in
  if isErr rGt || negb (ok rGt)
  then Some (mkResult None (ok rGt) (err rGt), Seek s i5 (Index start))
  else
  (* If there's a type attribute and it's not a JS attribute, the contents
     are raw text. *)
  if negb (hasJavaScriptType (value rAttrs))
  then Some (parseRawText (value rAttrs) s i5)
  else parseJavaScript fuel start (value rAttrs) s i5.

(** *** What the properties below speak of *)

(** The state with the cursor moved to [i]. *)
Definition moveTo (st : scanner) (i : nat) : scanner :=
  mkScanner (contents st) (sb st) (stringLiteralDelimiter st) (inRegex st) i.

(** The state after an entry [c] is appended to the flushed contents and
    the cursor moved to [i]. *)
Definition appendEntry (st : scanner) (c : ScriptContents) (i : nat)
  : scanner :=
  mkScanner (contents (flush st) ++ [c]) (sb (flush st))
            (stringLiteralDelimiter st) (inRegex st) i.

(** The state after the lexical unit [c] is read and the cursor moved to
    [i]. *)
Definition readUnit (st : scanner) (c : gostring) (i : nat) : scanner :=
  mkScanner (contents st) (sb st ++ c)
            (delimiterAfter st (regexAfter st c) c) (regexAfter st c) i.

(** The scanner states that the loop passes through, from [st0] on. *)
Inductive reachable (s : gostring) (st0 : scanner) : scanner -> Prop :=
| reach_start : reachable s st0 st0
| reach_round (st st' : scanner) :
    reachable s st0 st -> loopBody s st = Continue st' ->
    reachable s st0 st'.

(** The opening tag is recognised at [i0]: [<], the name [script], the
    attributes [attrs], optional white space and [>] all match without
    error, and the cursor is at [i5] after the [>]. *)
Definition tagAccepted (s : gostring) (i0 : nat) (attrs : list Attribute)
    (i5 : nat) : Prop :=
  exists rLt i1 rName i2 rAttrs i3 rSpace i4 rGt,
    lt s i0 = (rLt, i1) /\ ok rLt = true
    /\ elementNameParser s i1 = (rName, i2)
    /\ err rName = None /\ ok rName = true /\ value rName = lit "script"
    /\ attributesParser s i2 = (rAttrs, i3)
    /\ err rAttrs = None /\ ok rAttrs = true /\ value rAttrs = attrs
    /\ OptionalWhitespace s i3 = (rSpace, i4)
    /\ gt s i4 = (rGt, i5) /\ ok rGt = true.

(** The opening tag is not recognised at [i0]: one of its parts does not
    match, and none reports an error. *)
Inductive tagRefused (s : gostring) (i0 : nat) : Prop :=
| refused_lt :
    ok (fst (lt s i0)) = false -> tagRefused s i0
| refused_no_name (rLt : Result gostring) (i1 : nat)
    (rName : Result gostring) (i2 : nat) :
    lt s i0 = (rLt, i1) -> ok rLt = true ->
    elementNameParser s i1 = (rName, i2) ->
    err rName = None -> ok rName = false ->
    tagRefused s i0
| refused_other_name (rLt : Result gostring) (i1 : nat)
    (rName : Result gostring) (i2 : nat) :
    lt s i0 = (rLt, i1) -> ok rLt = true ->
    elementNameParser s i1 = (rName, i2) ->
    err rName = None -> ok rName = true -> value rName <> lit "script" ->
    tagRefused s i0
| refused_attributes (rLt : Result gostring) (i1 : nat)
    (rName : Result gostring) (i2 : nat)
    (rAttrs : Result (list Attribute)) (i3 : nat) :
    lt s i0 = (rLt, i1) -> ok rLt = true ->
    elementNameParser s i1 = (rName, i2) ->
    err rName = None -> ok rName = true -> value rName = lit "script" ->
    attributesParser s i2 = (rAttrs, i3) ->
    err rAttrs = None -> ok rAttrs = false ->
    tagRefused s i0
| refused_gt (rLt : Result gostring) (i1 : nat)
    (rName : Result gostring) (i2 : nat)
    (rAttrs : Result (list Attribute)) (i3 : nat) :
    lt s i0 = (rLt, i1) -> ok rLt = true ->
    elementNameParser s i1 = (rName, i2) ->
    err rName = None -> ok rName = true -> value rName = lit "script" ->
    attributesParser s i2 = (rAttrs, i3) ->
    err rAttrs = None -> ok rAttrs = true ->
    ok (fst (gt s (snd (OptionalWhitespace s i3)))) = false ->
    tagRefused s i0.

(** The expression parser keeps the discipline of the cursor on the text
    [s]: where it returns no error, it leaves the cursor in place when it
    does not match and moves it forward, inside the text, when it
    does. *)
Definition expressionsDisciplined (s : gostring) : Prop :=
  forall i r i', goCodeInJavaScript s i = (r, i') -> i <= length s ->
    err r = None ->
    (ok r = false -> i' = i)
    /\ (ok r = true -> i < i' /\ i' <= length s).

(** [source] gives back, on the text [s], the source text of every
    expression that the expression parser recognises. *)
Definition rendersSource (source : GoCode -> gostring) (s : gostring)
  : Prop :=
  forall i r i', goCodeInJavaScript s i = (r, i') -> i <= length s ->
    err r = None -> ok r = true -> source (value r) = slice s i i'.

End ScriptElementParser.

(** The serialisation of the contents: script text as it is, an expression
    as its source text. *)
Definition serializeEntry (source : GoCode -> gostring) (c : ScriptContents)
  : gostring :=
  match Value c, GoCodeOf c with
  | Some text, _ => text
  | None, Some code => source code
  | None, None => []
  end.

Definition serialize (source : GoCode -> gostring)
    (cs : list ScriptContents) : gostring :=
  concat (map (serializeEntry source) cs).

(** ** An instance of the surrounding grammar

    The theorems below hold for every element-name, attribute and
    expression parser.  To run the parser on concrete texts, this module
    gives one instance of each. *)

Module Model.

Definition EqualFold : gostring -> gostring -> bool := strings.EqualFold.

Definition isLetter (c : ascii) : bool :=
  let n := nat_of_ascii c in
  ((65 <=? n) && (n <=? 90)) || ((97 <=? n) && (n <=? 122)).

Definition isNameChar (c : ascii) : bool :=
  let n := nat_of_ascii c in
  isLetter c || ((48 <=? n) && (n <=? 57)) || byteIn c (lit "-:_").

(** Modelled from the spec: an element name is a letter followed by name
    characters. *)
Definition elementNameParser : Parser gostring := fun s i =>
  match skipn i s with
  | c :: _ =>
      if isLetter c then
        let n := span isNameChar (skipn i s) in
        (mkResult (slice s i (i + n)) true None, i + n)
      else (mkResult [] false None, i)
  | [] => (mkResult [] false None, i)
  end.

(** Modelled from the spec: one attribute, after optional white space:
    [name="value"], a literal key/value pair, or [name={ expr }], an
    attribute whose value is a template expression. *)
Definition attributeParser : Parser (option Attribute) := fun s i =>
  let (_, i1) := OptionalWhitespace s i in
  let n := span isNameChar (skipn i1 s) in
  if n =? 0 then (mkResult None false None, i)
  else
    let key := ConstantAttributeKey (slice s i1 (i1 + n)) in
    let (rq, i2) := parse.String [("="%char); DQUOTE] s (i1 + n) in
    if ok rq then
      let (rv, i3) := StringUntil (parse.String [DQUOTE]) s i2 in
      if ok rv
      then (mkResult (Some (ConstantAttribute key (value rv))) true None,
            i3 + 1)
      else (mkResult None false None, i)
    else
      let (rb, i2) := parse.String (lit "={") s (i1 + n) in
      if ok rb then
        let (rv, i3) := StringUntil (parse.String (lit "}")) s i2 in
        if ok rv
        then (mkResult
                (Some (ExpressionAttribute key
                         (mkExpression (value rv)
                            (NewRange (PositionAt s i2)
                                      (PositionAt s i3)))))
                true None,
              i3 + 1)
        else (mkResult None false None, i)
      else (mkResult None false None, i).

Fixpoint attributesLoop (fuel : nat) (s : gostring) (i : nat)
  : list Attribute * nat :=
  match fuel with
  | 0 => ([], i)
  | S fuel' =>
      match attributeParser s i with
      | (mkResult (Some a) true None, i1) =>
          let (rest, i2) := attributesLoop fuel' s i1 in (a :: rest, i2)
      | _ => ([], i)
      end
  end.

(** Modelled from the spec: zero or more attributes; it always matches. *)
Definition attributesParser : Parser (list Attribute) := fun s i =>
  let (attrs, i1) := attributesLoop (length s) s i in
  (mkResult attrs true None, i1).

Definition spaces : gostring := lit " " ++ [TAB; CR; LF].

(** Modelled from the spec: a Go expression in a script is [{{ expr }}];
    the node holds the text of [expr] and its range.  Open braces with no
    closing braces after them are an error. *)
Definition goCodeInJavaScript : Parser GoCode := fun s i =>
  let zero := mkGoCode (mkExpression [] zeroRange) in
  let (ro, i1) := parse.String (lit "{{") s i in
  if negb (ok ro) then (mkResult zero false None, i)
  else
    let (_, i2) := OptionalWhitespace s i1 in
    let (rt, i3) := StringUntil (parse.String (lit "}}")) s i2 in
    if negb (ok rt)
    then (mkResult zero false
            (Some (Error "go code: missing close braces" (PositionAt s i3))),
          i3)
    else
      let text := strings.TrimRight (value rt) spaces in
      (mkResult
         (mkGoCode
            (mkExpression text
               (NewRange (PositionAt s i2)
                         (PositionAt s (i2 + length text)))))
         true None,
       i3 + 2).

(** The part of [jsExtendedUnicodeEscape] that is never reached. *)
Definition hexDigits : Parser gostring := fun s i =>
  (mkResult [] false None, i).

(** The script element parser, its loop body and the recognition of
    the opening tag with this instance of the grammar. *)
Definition ParseWith :=
  Parse EqualFold elementNameParser attributesParser goCodeInJavaScript
        hexDigits.

Definition round := loopBody goCodeInJavaScript hexDigits.

Definition accepted := tagAccepted elementNameParser attributesParser.

(** [scriptElement.Parse(parse.NewInput(input))], with enough fuel for a
    loop that consumes a byte or more in every round. *)
Definition Parse (input : gostring)
  : option (Result (option ScriptElement) * nat) :=
  ParseWith (S (length input)) input 0.

End Model.

(** * The vocabulary of the properties

    ** The specification's wording of the two helper functions *)

(** "The trimmed text ends with the keyword as a whole word (preceded by
    whitespace or nothing)". *)
Definition endsWithWord (t kw : gostring) : Prop :=
  exists pre, t = pre ++ kw
    /\ (pre = []
        \/ exists pre' c, pre = pre' ++ [c] /\ unicode.IsSpace c = true).

(** "The last character of the trimmed text is one of ...". *)
Definition lastCharIn (t set : gostring) : Prop :=
  exists pre c, t = pre ++ [c] /\ In c set.

(** "A key that case-insensitively equals [type] and a value that is a
    literal string". *)
Definition isLiteralTypeAttribute (EqualFold : gostring -> gostring -> bool)
    (a : Attribute) : bool :=
  match a with
  | ConstantAttribute (ConstantAttributeKey name) _ =>
      EqualFold name (lit "type")
  | _ => false
  end.

(** ** What the properties below speak of *)

(** The text [m] stands in [s] at byte [i]. *)
Definition occursAt (m s : gostring) (i : nat) : Prop :=
  exists pre post, s = pre ++ m ++ post /\ length pre = i.

(** A parser is well behaved when, from a cursor inside the text, it
    returns no error, leaves the cursor where it was when it does not match,
    and moves it forward inside the text when it does. *)
Definition wellBehaved {T : Type} (p : Parser T) : Prop :=
  forall s i r i', p s i = (r, i') -> i <= length s ->
    err r = None
    /\ (ok r = false -> i' = i)
    /\ (ok r = true -> i <= i' /\ i' <= length s).

(** Whether [d] matches at byte [k] of [s]. *)
Definition matchesAt {T : Type} (d : Parser T) (s : gostring) (k : nat)
  : bool :=
  ok (fst (d s k)).

(** The text of a comment begins with [//] or [/*]. *)
Definition isCommentText (t : gostring) : Prop :=
  exists rest, t = lit "//" ++ rest \/ t = lit "/*" ++ rest.

(** [inRegex] is set only while no string is open. *)
Definition exclusive (st : scanner) : Prop :=
  inRegex st = true -> stringLiteralDelimiter st = jsQuoteNone.

(** An entry that is not text flushed from [sb]: an expression, or the
    text of a comment. *)
Definition notPendingText (c : ScriptContents) : Prop :=
  forall t, Value c = Some t -> isCommentText t.

(** Two neighbours that are both script text hold a comment. *)
Definition pairMerged (a b : ScriptContents) : Prop :=
  forall ta tb, Value a = Some ta -> Value b = Some tb ->
                isCommentText ta \/ isCommentText tb.

Fixpoint merged (l : list ScriptContents) : Prop :=
  match l with
  | a :: (b :: _) as tl => pairMerged a b /\ merged tl
  | _ => True
  end.

Definition lastNotPending (l : list ScriptContents) : Prop :=
  forall pre a, l = pre ++ [a] -> notPendingText a.

(** The entries and the pending text are the text between [i5] and the
    cursor. *)
Definition holdsText (source : GoCode -> gostring) (s : gostring) (i5 : nat)
    (st : scanner) : Prop :=
  i5 <= cursor st /\ cursor st <= length s
  /\ serialize source (contents st) ++ sb st = slice s i5 (cursor st).

(** ** The wording of [hasJavaScriptType]

    A text of ASCII characters. *)
Definition isASCII (t : gostring) : Prop :=
  Forall (fun c => (utf8.byte c < 128)%Z) t.

(** Unicode simple case folding, for the characters that fold into ASCII:
    an upper-case letter of ASCII folds to its lower case, the long s
    (U+017F) to [s] and the Kelvin sign (U+212A) to [k].  Every other
    character folds to itself or to a character outside ASCII, and stands
    for itself here; the texts compared below have an ASCII text on one
    side. *)
Definition foldCase (r : Z) : Z :=
  (if (65 <=? r) && (r <=? 90) then r + 32
   else if r =? 0x17F then 115
   else if r =? 0x212A then 107
   else r)%Z.

(** "[v] case-insensitively equals [t]": [v] and [t] have the same
    characters once each is folded. *)
Definition equalsIgnoringCase (v t : gostring) : Prop :=
  map foldCase (utf8.runes v) = map foldCase (utf8.runes t).

(** "An attribute whose key case-insensitively equals [type] and whose
    value is a literal (non-expression) string". *)
Definition isLiteralType (a : Attribute) : Prop :=
  match a with
  | ConstantAttribute (ConstantAttributeKey name) _ =>
      equalsIgnoringCase name (lit "type")
  | _ => False
  end.

(** ** The wording of [isStartOfRegex], with its lists written out

    The keywords and the characters as the specification lists them, and
    white space as a set of bytes that the wording leaves open: [trimmed]
    is the white space removed from the end of the text, [before] the
    white space that may stand before a keyword. *)

Definition VT : ascii := ascii_of_nat 11.
Definition FF : ascii := ascii_of_nat 12.

Definition specifiedKeywords : list gostring :=
  [lit "return"; lit "yield"; lit "case"; lit "delete"; lit "do";
   lit "else"; lit "in"; lit "instanceof"; lit "new"; lit "throw";
   lit "typeof"; lit "void"].

Definition specifiedPrecedingChars : gostring :=
  ["("; ","; "="; ":"; "["; "!"; "&"; "|"; "?"; "{"; ";"]%char.

(** Space, tab, carriage return and newline. *)
Definition trimmedBlanks : gostring := [" "%char; TAB; CR; LF].

(** The white space of ASCII: the four blanks, the vertical tab and the
    form feed. *)
Definition asciiSpaces : gostring := [" "%char; TAB; CR; LF; VT; FF].

(** The bytes that are white space when read as code points: the white
    space of ASCII, U+0085 and U+00A0. *)
Definition wordSpaces : gostring :=
  [TAB; LF; VT; FF; CR; " "%char; ascii_of_nat 133; ascii_of_nat 160].

(** [t] is what remains of [s] when the bytes of [W] at its end are
    removed. *)
Definition trimmedOf (W s t : gostring) : Prop :=
  exists ws,
    s = t ++ ws /\ Forall (fun c => In c W) ws
    /\ forall pre c, t = pre ++ [c] -> ~ In c W.

(** [t] ends with [kw] as a whole word: [kw] is all of [t], or the byte
    before it is in [W]. *)
Definition endsWithWordIn (W t kw : gostring) : Prop :=
  exists pre,
    t = pre ++ kw
    /\ (pre = [] \/ exists pre' c, pre = pre' ++ [c] /\ In c W).

(** The three conditions of the wording. *)
Definition startOfRegexAsSpecified (trimmed before s : gostring) : Prop :=
  exists t,
    trimmedOf trimmed s t
    /\ (t = []
        \/ (exists kw, In kw specifiedKeywords /\ endsWithWordIn before t kw)
        \/ lastCharIn t specifiedPrecedingChars).

(** ** Concrete texts *)

Module Examples.

(** [<script>"</script>"</script>]. *)
Definition quotedEndTag : gostring :=
  lit "<script>" ++ [DQUOTE] ++ lit "</script>" ++ [DQUOTE]
      ++ lit "</script>".

(** The state of the loop after the opening quote of [quotedEndTag]. *)
Definition insideString : scanner :=
  mkScanner [] [DQUOTE] jsQuoteDouble false 9.

(** [<script>var x = 1;], with no end tag. *)
Definition unterminatedJS : gostring := lit "<script>var x = 1;".

(** [<script type="application/json">{}], with no end tag. *)
Definition unterminatedJSON : gostring :=
  lit "<script type=" ++ [DQUOTE] ++ lit "application/json" ++ [DQUOTE]
      ++ lit ">{}".

(** [<script type="application/json">{"a": 1}</script>]. *)
Definition jsonScript : gostring :=
  lit "<script type=" ++ [DQUOTE] ++ lit "application/json" ++ [DQUOTE]
      ++ lit ">{" ++ [DQUOTE] ++ lit "a" ++ [DQUOTE] ++ lit ": 1}</script>".

Definition jsonType : list Attribute :=
  [ConstantAttribute (ConstantAttributeKey (lit "type"))
                     (lit "application/json")].

(** A comment line that holds [</script>], then code, then the end
    tag. *)
Definition commentThenCode : gostring :=
  lit "<script>// </script>" ++ [LF] ++ lit "real();</script>".

(** The element that [commentThenCode] parses to. *)
Definition commentThenCodeElement : ScriptElement :=
  mkScriptElement []
    [NewScriptContentsScriptCode (lit "// </script>" ++ [LF]);
     NewScriptContentsScriptCode (lit "real();")]
    (NewRange (mkPosition 0 0 0) (mkPosition 37 1 16)).

(** [<script>// foo</script>]: the comment runs to the end of the
    input. *)
Definition commentToTheEnd : gostring := lit "<script>// foo</script>".

Definition expression : gostring := lit "<script>{{ name }}</script>".

Definition nameNode : GoCode :=
  mkGoCode (mkExpression (lit "name")
              (NewRange (mkPosition 11 0 11) (mkPosition 15 0 15))).

Definition textAndExpression : gostring :=
  lit "<script>a{{ name }}b</script>".

(** The source text of a node, for expressions written with one space
    inside the braces. *)
Definition spacedSource (c : GoCode) : gostring :=
  lit "{{ " ++ ExprValue (GoExpression c) ++ lit " }}".

(** The element that [textAndExpression] parses to. *)
Definition textAndExpressionElement : ScriptElement :=
  mkScriptElement []
    [NewScriptContentsScriptCode (lit "a");
     NewScriptContentsGo
       (mkGoCode (mkExpression (lit "name")
                    (NewRange (mkPosition 12 0 12) (mkPosition 16 0 16))))
       false;
     NewScriptContentsScriptCode (lit "b")]
    (NewRange (mkPosition 0 0 0) (mkPosition 29 0 29)).


(** [scriptElement.Parse] returns, for [input], an element with no
    attributes and the given contents that covers bytes 0 to [stop] of one
    line. *)
Definition parsesTo (input : gostring) (contents : list ScriptContents)
    (stop : nat) : Prop :=
  Model.Parse input
  = Some (mkResult
            (Some (mkScriptElement [] contents
                     (NewRange (mkPosition 0 0 0) (mkPosition stop 0 stop))))
            true None,
          stop).

End Examples.

(** * More of the file *)

(** The cutset of [isStartOfRegex]. *)
Definition blanks : gostring := lit " " ++ [TAB; CR; LF].

(** ** Index expressions

    The index expressions of the file with their run-time check: the index
    is a Go [int], and [None] stands for the panic of an index out of
    range. *)

Definition indexChecked (s : gostring) (i : Z) : option ascii :=
  if (i <? 0)%Z then None else nth_error s (Z.to_nat i).

Definition len (s : gostring) : Z := Z.of_nat (length s).

(** The loop over the keywords; [||] evaluates its right side, the index
    expression, only when the lengths differ. *)
Fixpoint keywordLoopChecked (s : gostring) (kws : list gostring)
  : option bool :=
  match kws with
  | [] => Some false
  | kw :: rest =>
      if strings.HasSuffix s kw
      then if (len s =? len kw)%Z then Some true
           else match indexChecked s (len s - len kw - 1)%Z with
                | None => None
                | Some b =>
                    if unicode.IsSpace b then Some true
                    else keywordLoopChecked s rest
                end
      else keywordLoopChecked s rest
  end.

Definition isStartOfRegexChecked (s : gostring) : option bool :=
  let s := strings.TrimRight s (lit " " ++ [TAB; CR; LF]) in
  if (len s =? 0)%Z then Some true
  else match keywordLoopChecked s keywords with
       | None => None
       | Some true => Some true
       | Some false =>
           match indexChecked s (len s - 1)%Z with
           | None => None
           | Some lastChar =>
               Some (if byteIn lastChar regexPrecedingChars then true
                     else false)
           end
       end.

(** The update of [inRegex] in [Parse], with [sb.String()[sb.Len()-1]]
    checked and [isStartOfRegex] as above; [&&] evaluates its right side
    only when the left one holds. *)
Definition regexAfterChecked (st : scanner) (c : gostring) : option bool :=
  if streq (stringLiteralDelimiter st) jsQuoteNone then
    let startsRegex :=
      if negb (inRegex st) && streq c (lit "/")
      then isStartOfRegexChecked (sb st)
      else Some false in
    match startsRegex with
    | None => None
    | Some true => Some true
    | Some false =>
        if inRegex st && streq c (lit "/") then
          if (len (sb st) >? 0)%Z then
            match indexChecked (sb st) (len (sb st) - 1)%Z with
            | None => None
            | Some b =>
                Some (if negb (Ascii.eqb b BACKSLASH) then false
                      else inRegex st)
            end
          else Some (inRegex st)
        else Some (inRegex st)
    end
  else Some (inRegex st).

(** ** The string and regex state as one automaton

    The two variables [stringLiteralDelimiter] and [inRegex], read as one
    of three states. *)
Inductive lexState : Type :=
| Plain
| InString (quote : jsQuote)
| InRegex.

Definition lexStateOf (st : scanner) : lexState :=
  if inRegex st then InRegex
  else if streq (stringLiteralDelimiter st) jsQuoteNone then Plain
  else InString (stringLiteralDelimiter st).

(** The test of the second [if] of the character step: [c] is one of the
    three quote characters. *)
Definition isQuoteUnit (c : gostring) : bool :=
  streq c [DQUOTE] || streq c (lit "'") || streq c (lit "`").

(** The transition that reading the lexical unit [c] makes, with [text] the
    contents of [sb] before [c] is appended. *)
Definition lexStep (l : lexState) (text c : gostring) : lexState :=
  match l with
  | Plain =>
      if streq c (lit "/") && isStartOfRegex text then InRegex
      else if isQuoteUnit c then InString c
      else Plain
  | InString quote => if streq c quote then Plain else InString quote
  | InRegex =>
      if streq c (lit "/") && (0 <? length text)
         && negb (Ascii.eqb (byteAt text (length text - 1)) BACKSLASH)
      then Plain
      else InRegex
  end.

(** [stringLiteralDelimiter] is one of the four constants of [jsQuote]. *)
Definition knownQuote (q : jsQuote) : Prop :=
  q = jsQuoteNone \/ q = jsQuoteSingle \/ q = jsQuoteDouble
  \/ q = jsQuoteBacktick.

(** ** The entries

    No entry of script text is empty. *)
Definition textsNotEmpty (l : list ScriptContents) : Prop :=
  forall entry t, In entry l -> Value entry = Some t -> t <> [].

(** ** The helper of the tests

    [clean] prepares the text of a test file: [bytes.ReplaceAll] and
    [bytes.TrimSuffix] of Go's standard library, on bytes. *)

Module bytes.

(** [bytes.ReplaceAll] with a dollar sign and a newline as the old text
    and a newline as the new one: the occurrences are replaced from left to
    right, and the search goes on after each one. *)
Fixpoint ReplaceDollarNewline (b : gostring) : gostring :=
  match b with
  | [] => []
  | c :: rest =>
      match rest with
      | n :: rest' =>
          if Ascii.eqb c "$"%char && Ascii.eqb n LF
          then LF :: ReplaceDollarNewline rest'
          else c :: ReplaceDollarNewline rest
      | [] => [c]
      end
  end.

(** [bytes.TrimSuffix(b, suffix)]. *)
Definition TrimSuffix (b suffix : gostring) : gostring :=
  if strings.HasSuffix b suffix
  then firstn (length b - length suffix) b
  else b.

End bytes.

Definition clean (b : gostring) : gostring :=
  let b := bytes.ReplaceDollarNewline b in
  bytes.TrimSuffix b [LF].

(** ** More texts for the properties *)

Module Cases.

(** A block comment that holds [</script>], then code. *)
Definition blockComment : gostring :=
  lit "<script>/* </script> */ x</script>".

(** A string literal with an escaped quote in it. *)
Definition escapedQuote : gostring :=
  lit "<script>" ++ [DQUOTE] ++ lit "a" ++ [BACKSLASH; DQUOTE] ++ lit "b"
      ++ [DQUOTE] ++ lit "</script>".

(** The state of the loop before the backslash of [escapedQuote]. *)
Definition beforeBackslash : scanner :=
  mkScanner [] ([DQUOTE] ++ lit "a") jsQuoteDouble false 10.

Definition emptyScript : gostring := lit "<script></script>".

Definition emptyElement : ScriptElement :=
  mkScriptElement [] [] (NewRange (mkPosition 0 0 0) (mkPosition 17 0 17)).

(** Text, then open braces that nothing closes. *)
Definition openBraces : gostring := lit "<script>a{{ x".

(** The state of the loop before the braces of [openBraces]. *)
Definition beforeBraces : scanner :=
  mkScanner [] (lit "a") jsQuoteNone false 9.

Definition missingBraces : ParseError :=
  Error "go code: missing close braces" (mkPosition 12 0 12).

(** An attribute parser that reports an error wherever it is run, as the
    attribute parser of the package does at an attribute that it cannot
    read to its end. *)
Definition failingAttributes : Parser (list Attribute) := fun s i =>
  (mkResult [] false
     (Some (Error "attribute: unexpected end" (PositionAt s i))),
   i).

(** A regex that matches one backslash, then code. *)
Definition backslashRegex : gostring :=
  lit "<script>/" ++ [BACKSLASH; BACKSLASH] ++ lit "/.test(x)</script>".

(** The state of the loop after the opening slash of [backslashRegex]. *)
Definition insideRegex : scanner :=
  mkScanner [] (lit "/") jsQuoteNone true 9.

End Cases.

(** * Properties *)

Unset Implicit Arguments.

(** ** Strings *)

Lemma streq_eq (a b : gostring) : streq a b = true <-> a = b.
Proof.
  revert b; induction a as [|x a IH]; intros [|y b]; simpl;
    try (split; [discriminate | congruence]); try tauto.
  rewrite andb_true_iff, Ascii.eqb_eq, IH.
  split; [intros [-> ->]; reflexivity | intros H; inversion H; auto].
Qed.

Lemma streq_refl (a : gostring) : streq a a = true.
Proof. now apply streq_eq. Qed.

Lemma streq_neq (a b : gostring) : streq a b = false <-> a <> b.
Proof.
  rewrite <- streq_eq. destruct (streq a b); split; congruence.
Qed.

Lemma byteIn_In (c : ascii) (set : gostring) :
  byteIn c set = true <-> In c set.
Proof.
  unfold byteIn. rewrite existsb_exists. split.
  - intros (x & Hx & E). apply Ascii.eqb_eq in E. now subst.
  - intros H. exists c. split; [assumption | apply Ascii.eqb_refl].
Qed.

Lemma HasSuffix_spec (s suffix : gostring) :
  strings.HasSuffix s suffix = true <-> exists pre, s = pre ++ suffix.
Proof.
  unfold strings.HasSuffix. rewrite andb_true_iff, Nat.leb_le, streq_eq.
  split.
  - intros [Hlen E]. exists (firstn (length s - length suffix) s).
    rewrite <- E at 2. symmetry. apply firstn_skipn.
  - intros [pre ->]. rewrite length_app. split; [lia|].
    replace (length pre + length suffix - length suffix) with (length pre)
      by lia.
    rewrite skipn_app, skipn_all, Nat.sub_diag. reflexivity.
Qed.

Lemma byteAt_middle (pre post : gostring) (c : ascii) :
  byteAt (pre ++ c :: post) (length pre) = c.
Proof. unfold byteAt. now rewrite nth_middle. Qed.

Lemma byteAt_before_suffix (pre kw : gostring) (c : ascii) :
  byteAt ((pre ++ [c]) ++ kw) (length ((pre ++ [c]) ++ kw) - length kw - 1)
  = c.
Proof.
  rewrite <- app_assoc. simpl.
  replace (length (pre ++ c :: kw) - length kw - 1) with (length pre)
    by (rewrite length_app; simpl; lia).
  apply byteAt_middle.
Qed.

Lemma nonempty_last_dec (s : gostring) :
  s = [] \/ exists pre c, s = pre ++ [c].
Proof.
  destruct s as [|x s]; [now left | right].
  assert (H : x :: s <> []) by discriminate.
  destruct (exists_last H) as (pre & c & ->). now exists pre, c.
Qed.

(** ** [isStartOfRegex] *)

Lemma keywordLoop_spec (s : gostring) (kws : list gostring) :
  keywordLoop s kws = true <-> exists kw, In kw kws /\ endsWithWord s kw.
Proof.
  induction kws as [|kw kws IH]; simpl.
  - split; [discriminate | intros (kw & [] & _)].
  - assert (Hhere :
      strings.HasSuffix s kw = true
      /\ ((length s =? length kw)
          || unicode.IsSpace (byteAt s (length s - length kw - 1))) = true
      <-> endsWithWord s kw).
    { rewrite HasSuffix_spec, orb_true_iff, Nat.eqb_eq. unfold endsWithWord.
      split.
      - intros [[pre ->] H]. exists pre. split; [reflexivity|].
        destruct (nonempty_last_dec pre) as [-> | (pre' & c & ->)];
          [now left | right].
        exists pre', c. split; [reflexivity|].
        destruct H as [H | H].
        + rewrite !length_app in H. simpl in H. lia.
        + now rewrite byteAt_before_suffix in H.
      - intros (pre & -> & H). split; [now exists pre|].
        destruct H as [-> | (pre' & c & -> & Hc)]; [now left | right].
        now rewrite byteAt_before_suffix. }
    destruct (strings.HasSuffix s kw) eqn:Hs;
      [destruct ((length s =? length kw)
                 || unicode.IsSpace (byteAt s (length s - length kw - 1)))
         eqn:Hw|].
    + split; [intros _ | reflexivity].
      exists kw. split; [now left | now apply Hhere].
    + rewrite IH. split.
      * intros (k & Hk & Hw'). exists k. split; [now right | assumption].
      * intros (k & [<- | Hk] & Hw').
        -- apply Hhere in Hw'. destruct Hw'. discriminate.
        -- now exists k.
    + rewrite IH. split.
      * intros (k & Hk & Hw'). exists k. split; [now right | assumption].
      * intros (k & [<- | Hk] & Hw').
        -- apply Hhere in Hw'. destruct Hw'. discriminate.
        -- now exists k.
Qed.

Lemma byteAt_last (pre : gostring) (c : ascii) :
  byteAt (pre ++ [c]) (length (pre ++ [c]) - 1) = c.
Proof.
  replace (length (pre ++ [c]) - 1) with (length pre)
    by (rewrite length_app; simpl; lia).
  apply byteAt_middle.
Qed.

(** [strings.TrimRight] removes a run of cutset bytes from the end, and
    what it leaves does not end with a cutset byte. *)
Lemma TrimRight_spec (s cutset : gostring) :
  exists tail,
    s = strings.TrimRight s cutset ++ tail
    /\ Forall (fun c => byteIn c cutset = true) tail
    /\ forall pre c, strings.TrimRight s cutset = pre ++ [c] ->
                     byteIn c cutset = false.
Proof.
  induction s as [|x s (tail & E & Hall & Hlast)]; simpl.
  - exists []. repeat split; [constructor|].
    intros pre c H. now destruct pre.
  - destruct (strings.TrimRight s cutset) as [|y t] eqn:Ht.
    + destruct (byteIn x cutset) eqn:Hx.
      * exists (x :: tail). simpl in E. subst s.
        repeat split; [now constructor|].
        intros pre c H. now destruct pre.
      * exists tail. simpl in E. subst s. repeat split; [assumption|].
        intros [|p pre] c H; inversion H; subst; [assumption|].
        now destruct pre.
    + exists tail. rewrite E at 1. repeat split; [assumption|].
      intros [|p pre] c H; inversion H; subst.
      apply (Hlast pre c). assumption.
Qed.

Lemma TrimRight_blank_tail (ws cutset : gostring) :
  Forall (fun c => In c cutset) ws -> strings.TrimRight ws cutset = [].
Proof.
  induction 1 as [|c ws Hc _ IH]; simpl; [reflexivity|].
  rewrite IH. apply byteIn_In in Hc. now rewrite Hc.
Qed.

Lemma TrimRight_app_blank (s ws cutset : gostring) :
  Forall (fun c => In c cutset) ws ->
  strings.TrimRight (s ++ ws) cutset = strings.TrimRight s cutset.
Proof.
  intros Hws. induction s as [|x s IH]; simpl.
  - now apply TrimRight_blank_tail.
  - now rewrite IH.
Qed.

(** The answer of [isStartOfRegex] by the three cases of its body. *)
Lemma isStartOfRegex_cases (s : gostring) :
  let t := strings.TrimRight s (lit " " ++ [TAB; CR; LF]) in
  isStartOfRegex s = true
  <-> t = []
      \/ (exists kw, In kw keywords /\ endsWithWord t kw)
      \/ lastCharIn t regexPrecedingChars.
Proof.
  intros t. unfold isStartOfRegex. fold t.
  destruct (nonempty_last_dec t) as [E | (pre & c & E)].
  - rewrite E. simpl. split; [now left | reflexivity].
  - assert (Hlen : (length t =? 0) = false).
    { apply Nat.eqb_neq. rewrite E, length_app. simpl. lia. }
    rewrite Hlen.
    destruct (keywordLoop t keywords) eqn:Hk.
    + split; [intros _ | reflexivity].
      right; left. now apply keywordLoop_spec.
    + rewrite E at 1 2. rewrite byteAt_last.
      destruct (byteIn c regexPrecedingChars) eqn:Hc.
      * split; [intros _ | reflexivity].
        right; right. exists pre, c. split; [assumption|].
        now apply byteIn_In.
      * split; [discriminate|].
        intros [H | [H | (pre' & c' & E' & Hin)]].
        -- rewrite E in H. now destruct pre.
        -- apply keywordLoop_spec in H. congruence.
        -- rewrite E in E'. apply app_inj_tail in E'. destruct E' as [_ <-].
           apply byteIn_In in Hin. congruence.
Qed.

Lemma IsSpace_wordSpaces (c : ascii) :
  unicode.IsSpace c = true <-> In c wordSpaces.
Proof.
  rewrite <- byteIn_In.
  destruct c as [[] [] [] [] [] [] [] []]; vm_compute; split; intros H;
    first [reflexivity | discriminate].
Qed.

Lemma endsWithWord_wordSpaces (t kw : gostring) :
  endsWithWord t kw <-> endsWithWordIn wordSpaces t kw.
Proof.
  unfold endsWithWord, endsWithWordIn.
  split; intros (pre & E & [-> | (pre' & c & -> & Hc)]).
  - exists []. split; [assumption | now left].
  - exists (pre' ++ [c]). split; [assumption | right].
    exists pre', c. split; [reflexivity | now apply IsSpace_wordSpaces].
  - exists []. split; [assumption | now left].
  - exists (pre' ++ [c]). split; [assumption | right].
    exists pre', c. split; [reflexivity | now apply IsSpace_wordSpaces].
Qed.

Lemma TrimRight_fixed (t W : gostring) :
  (forall pre c, t = pre ++ [c] -> ~ In c W) -> strings.TrimRight t W = t.
Proof.
  induction t as [|x r IH]; intros Hlast; [reflexivity|].
  cbn [strings.TrimRight].
  destruct r as [|y r'].
  - cbn [strings.TrimRight].
    destruct (byteIn x W) eqn:Hx; [|reflexivity].
    apply byteIn_In in Hx. now apply (Hlast [] x) in Hx.
  - rewrite IH; [reflexivity|].
    intros pre c E. apply (Hlast (x :: pre) c). now rewrite E.
Qed.

(** The text that remains is the one that [strings.TrimRight] returns. *)
Lemma trimmedOf_TrimRight (W s t : gostring) :
  trimmedOf W s t <-> t = strings.TrimRight s W.
Proof.
  split.
  - intros (ws & -> & Hws & Hlast).
    rewrite (TrimRight_app_blank t ws W Hws).
    symmetry. now apply TrimRight_fixed.
  - intros ->. destruct (TrimRight_spec s W) as (tail & E & Hall & Hlast).
    exists tail. split; [assumption|]. split.
    + apply Forall_impl with (2 := Hall). intros c. apply byteIn_In.
    + intros pre c Et Hin. apply byteIn_In in Hin.
      rewrite (Hlast pre c Et) in Hin. discriminate.
Qed.

(** C6 (as the code has it): [isStartOfRegex s] is true exactly when the
    text [t] that remains of [s] after the spaces, tabs, carriage returns
    and newlines at its end are removed -- and no other white space -- is
    empty, or ends with one of the twelve keywords, the keyword being all
    of [t] or standing after a byte that is white space as a code point (a
    tab, a newline, a vertical tab, a form feed, a carriage return, a
    space, 0x85 or 0xA0), or has one of [( , = : [ ! & | ? { ;] as its
    last byte; in every other case it is false. *)
Theorem isStartOfRegex_spec (s : gostring) :
  isStartOfRegex s = true
  <-> startOfRegexAsSpecified trimmedBlanks wordSpaces s.
Proof.
  pose proof (isStartOfRegex_cases s) as Hcases. cbv zeta in Hcases.
  rewrite Hcases. clear Hcases.
  change (lit " " ++ [TAB; CR; LF]) with trimmedBlanks.
  change keywords with specifiedKeywords.
  change regexPrecedingChars with specifiedPrecedingChars.
  unfold startOfRegexAsSpecified. split.
  - intros H. exists (strings.TrimRight s trimmedBlanks).
    split; [now apply trimmedOf_TrimRight|].
    destruct H as [H | [(kw & Hin & Hw) | H]]; [now left | | now right; right].
    right; left. exists kw. split; [assumption|].
    now apply endsWithWord_wordSpaces.
  - intros (t & Ht & H). apply trimmedOf_TrimRight in Ht. subst t.
    destruct H as [H | [(kw & Hin & Hw) | H]]; [now left | | now right; right].
    right; left. exists kw. split; [assumption|].
    now apply endsWithWord_wordSpaces.
Qed.

Lemma endsWithWordIn_inv (W t kw : gostring) :
  endsWithWordIn W t kw ->
  strings.HasSuffix t kw = true
  /\ (length t = length kw
      \/ In (byteAt t (length t - length kw - 1)) W).
Proof.
  intros (pre & -> & H). split; [apply HasSuffix_spec; now exists pre|].
  destruct H as [-> | (pre' & c & -> & Hc)]; [now left | right].
  now rewrite byteAt_before_suffix.
Qed.

Lemma lastCharIn_inv (t set : gostring) :
  lastCharIn t set -> In (byteAt t (length t - 1)) set.
Proof. intros (pre & c & -> & Hc). now rewrite byteAt_last. Qed.

(** [H] says that a concrete text is the start of a regex by the wording,
    with concrete sets of white space: refuted by going through the
    keywords. *)
Ltac not_as_specified H :=
  let t := fresh "t" in
  let Ht := fresh "Ht" in
  let kw := fresh "kw" in
  let Hin := fresh "Hin" in
  let Hw := fresh "Hw" in
  let Hs := fresh "Hs" in
  destruct H as (t & Ht & H); apply trimmedOf_TrimRight in Ht;
  vm_compute in Ht; subst t;
  destruct H as [H | [(kw & Hin & Hw) | H]];
  [ discriminate
  | apply endsWithWordIn_inv in Hw; destruct Hw as [Hs Hw];
    unfold specifiedKeywords in Hin; cbn [In] in Hin;
    repeat (destruct Hin as [<- | Hin];
            [ first [ vm_compute in Hs; discriminate
                    | destruct Hw as [Hw | Hw];
                      [ vm_compute in Hw; discriminate
                      | vm_compute in Hw;
                        repeat (destruct Hw as [Hw | Hw]; [discriminate|]);
                        contradiction ] ]
            | ]);
    contradiction
  | apply lastCharIn_inv in H; vm_compute in H;
    repeat (destruct H as [H | H]; [discriminate|]); contradiction ].

(** Against C6: no one set of white space fits the two uses of the
    wording.  With the four blanks that the code trims, [x], a vertical
    tab and [return] is no start of a regex by the wording, and
    [isStartOfRegex] answers true; so it does for [return] after the two
    bytes of a letter with an accent, the second of which is 0xA0.  With
    the white space of ASCII, or of the code points, a text that is one
    vertical tab is a start of a regex by the wording, and [isStartOfRegex]
    answers false. *)
Lemma white_space_read_two_ways :
  (isStartOfRegex (lit "x" ++ [VT] ++ lit "return") = true
   /\ ~ startOfRegexAsSpecified trimmedBlanks trimmedBlanks
         (lit "x" ++ [VT] ++ lit "return"))
  /\ (isStartOfRegex ([ascii_of_nat 195; ascii_of_nat 160] ++ lit "return")
      = true
      /\ ~ startOfRegexAsSpecified asciiSpaces asciiSpaces
            ([ascii_of_nat 195; ascii_of_nat 160] ++ lit "return"))
  /\ (isStartOfRegex [VT] = false
      /\ startOfRegexAsSpecified asciiSpaces asciiSpaces [VT]
      /\ startOfRegexAsSpecified wordSpaces wordSpaces [VT]).
Proof.
  assert (Hvt : forall W, In VT W -> startOfRegexAsSpecified W W [VT]).
  { intros W HW. exists []. split; [|now left].
    exists [VT]. split; [reflexivity|]. split.
    - now constructor.
    - intros pre c E. now destruct pre. }
  split; [|split].
  - split; [reflexivity|]. intros H. not_as_specified H.
  - split; [reflexivity|]. intros H. not_as_specified H.
  - split; [reflexivity|]. split; apply Hvt; vm_compute; tauto.
Qed.

(** ** [hasJavaScriptType] *)

Section Classifier.

Variable EqualFold : gostring -> gostring -> bool.

Let literalType := isLiteralTypeAttribute EqualFold.

Lemma hasJavaScriptType_skip (a : Attribute) (rest : list Attribute) :
  literalType a = false ->
  hasJavaScriptType EqualFold (a :: rest) = hasJavaScriptType EqualFold rest.
Proof.
  unfold literalType.
  destruct a as [[name | e] v | k e]; simpl; try reflexivity.
  now intros ->.
Qed.

Lemma hasJavaScriptType_first (k : AttributeKey) (v : gostring)
    (rest : list Attribute) :
  literalType (ConstantAttribute k v) = true ->
  hasJavaScriptType EqualFold (ConstantAttribute k v :: rest)
  = existsb (EqualFold v) javaScriptTypeAttributeValues.
Proof.
  unfold literalType. destruct k as [name | e]; simpl; [|discriminate].
  now intros ->.
Qed.

(** The classifier reads the first literal [type] attribute and nothing
    after it, whatever [EqualFold] decides. *)
Lemma hasJavaScriptType_first_literal (attrs : list Attribute) :
  hasJavaScriptType EqualFold attrs = true
  <-> (forall a, In a attrs -> isLiteralTypeAttribute EqualFold a = false)
      \/ (exists pre k v post,
            attrs = pre ++ ConstantAttribute k v :: post
            /\ (forall a, In a pre ->
                          isLiteralTypeAttribute EqualFold a = false)
            /\ isLiteralTypeAttribute EqualFold (ConstantAttribute k v) = true
            /\ exists t, In t javaScriptTypeAttributeValues
                         /\ EqualFold v t = true).
Proof.
  fold literalType.
  induction attrs as [|a rest IH].
  - simpl. split; [intros _; left; now intros a [] | reflexivity].
  - destruct (literalType a) eqn:Ha.
    + destruct a as [k v | k e]; [|discriminate].
      rewrite (hasJavaScriptType_first _ _ _ Ha), existsb_exists.
      split.
      * intros Hex. right. exists [], k, v, rest.
        repeat split; [now intros a [] | assumption | assumption].
      * intros [Hnone | (pre & k' & v' & post & E & Hpre & _ & Hex)].
        -- specialize (Hnone _ (or_introl eq_refl)). congruence.
        -- destruct pre as [|p pre]; simpl in E; inversion E; subst.
           ++ assumption.
           ++ specialize (Hpre _ (or_introl eq_refl)). congruence.
    + rewrite (hasJavaScriptType_skip _ _ Ha), IH. split.
      * intros [Hnone | (pre & k & v & post & E & Hpre & Hk & Hex)].
        -- left. intros b [<- | Hb]; auto.
        -- right. exists (a :: pre), k, v, post. subst rest.
           repeat split; try assumption.
           intros b [<- | Hb]; auto.
      * intros [Hnone | (pre & k & v & post & E & Hpre & Hk & Hex)].
        -- left. intros b Hb. apply Hnone. now right.
        -- destruct pre as [|p pre]; simpl in E; inversion E; subst.
           ++ congruence.
           ++ right. exists pre, k, v, post.
              repeat split; try assumption.
              intros b Hb. apply Hpre. now right.
Qed.

End Classifier.

(** *** [strings.EqualFold] against an ASCII text *)

Lemma SimpleFold_upper (r : Z) :
  (65 <= r <= 90)%Z -> unicode.SimpleFold r = (r + 32)%Z.
Proof.
  intros H. unfold unicode.SimpleFold, unicode.asciiFold.
  destruct (Z.ltb_spec r 0); [lia|].
  destruct (Z.ltb_spec 0x10FFFF r); [lia|]. cbn [orb].
  destruct (Z.ltb_spec r 128); [|lia].
  destruct (Z.leb_spec 65 r); [|lia].
  destruct (Z.leb_spec r 90); [|lia]. reflexivity.
Qed.

Lemma SimpleFold_lower (r : Z) :
  (97 <= r <= 122)%Z -> r <> 107%Z -> r <> 115%Z ->
  unicode.SimpleFold r = (r - 32)%Z.
Proof.
  intros H Hk Hs. unfold unicode.SimpleFold, unicode.asciiFold.
  destruct (Z.ltb_spec r 0); [lia|].
  destruct (Z.ltb_spec 0x10FFFF r); [lia|]. cbn [orb].
  destruct (Z.ltb_spec r 128); [|lia].
  destruct (Z.leb_spec 65 r); [|lia].
  destruct (Z.leb_spec r 90); [lia|]. cbn [andb].
  destruct (Z.eqb_spec r 107); [lia|].
  destruct (Z.eqb_spec r 115); [lia|].
  destruct (Z.leb_spec 97 r); [|lia].
  destruct (Z.leb_spec r 122); [|lia]. reflexivity.
Qed.

Lemma SimpleFold_no_letter (r : Z) :
  (0 <= r < 128)%Z -> ~ (65 <= r <= 90)%Z -> ~ (97 <= r <= 122)%Z ->
  unicode.SimpleFold r = r.
Proof.
  intros H Hu Hl. unfold unicode.SimpleFold, unicode.asciiFold.
  destruct (Z.ltb_spec r 0); [lia|].
  destruct (Z.ltb_spec 0x10FFFF r); [lia|]. cbn [orb].
  destruct (Z.ltb_spec r 128); [|lia].
  destruct (Z.leb_spec 65 r), (Z.leb_spec r 90); cbn [andb]; try lia;
    (destruct (Z.eqb_spec r 107); [lia|]);
    (destruct (Z.eqb_spec r 115); [lia|]);
    destruct (Z.leb_spec 97 r), (Z.leb_spec r 122); cbn [andb]; try lia;
    reflexivity.
Qed.

Lemma foldCase_ascii (r : Z) :
  (0 <= r < 128)%Z ->
  foldCase r = if ((65 <=? r) && (r <=? 90))%Z then (r + 32)%Z else r.
Proof.
  intros H. unfold foldCase.
  destruct ((65 <=? r) && (r <=? 90))%Z; [reflexivity|].
  destruct (Z.eqb_spec r 0x17F); [lia|].
  destruct (Z.eqb_spec r 0x212A); [lia|]. reflexivity.
Qed.

Lemma foldCase_other (r : Z) :
  (128 <= r)%Z ->
  foldCase r = if (r =? 0x17F)%Z then 115%Z
               else if (r =? 0x212A)%Z then 107%Z else r.
Proof.
  intros H. unfold foldCase.
  destruct (Z.leb_spec 65 r), (Z.leb_spec r 90); cbn [andb]; try lia;
    reflexivity.
Qed.

(** The two letters of ASCII that a rune outside ASCII folds to. *)
Lemma foldUpTo_spec (sr tr : Z) :
  (0 <= tr < 128)%Z -> (128 <= sr)%Z ->
  strings.foldUpTo 4 tr sr (unicode.SimpleFold tr) = sr
  <-> foldCase sr = foldCase tr.
Proof.
  intros Htr Hsr.
  rewrite (foldCase_ascii tr Htr), (foldCase_other sr Hsr).
  assert (Hcases : (65 <= tr <= 90)%Z
                   \/ tr = 107%Z \/ tr = 115%Z
                   \/ ((97 <= tr <= 122)%Z /\ tr <> 107%Z /\ tr <> 115%Z)
                   \/ (~ (65 <= tr <= 90)%Z /\ ~ (97 <= tr <= 122)%Z))
    by lia.
  destruct Hcases as [Hu | [-> | [-> | [(Hl & Hk & Hs) | (Hu & Hl)]]]].
  - rewrite (SimpleFold_upper tr Hu).
    destruct (Z.leb_spec 65 tr); [|lia].
    destruct (Z.leb_spec tr 90); [|lia]. cbn [andb].
    cbn [strings.foldUpTo].
    destruct (Z.eqb_spec (tr + 32) tr); [lia|].
    destruct (Z.ltb_spec (tr + 32) sr); [|lia]. cbn [negb andb].
    destruct (Z.eq_dec tr 75) as [-> | Hk];
      [|destruct (Z.eq_dec tr 83) as [-> | Hs]].
    + change (unicode.SimpleFold (75 + 32)) with 0x212A%Z.
      destruct (Z.eqb_spec 0x212A 75); [lia|].
      destruct (Z.ltb_spec 0x212A sr); cbn [negb andb].
      * change (unicode.SimpleFold 0x212A) with 75%Z.
        change ((75 =? 75)%Z) with true. cbn [negb andb].
        destruct (Z.eqb_spec sr 0x17F); [lia|].
        destruct (Z.eqb_spec sr 0x212A); lia.
      * destruct (Z.eqb_spec sr 0x17F); [lia|].
        destruct (Z.eqb_spec sr 0x212A); lia.
    + change (unicode.SimpleFold (83 + 32)) with 0x17F%Z.
      destruct (Z.eqb_spec 0x17F 83); [lia|].
      destruct (Z.ltb_spec 0x17F sr); cbn [negb andb].
      * change (unicode.SimpleFold 0x17F) with 83%Z.
        change ((83 =? 83)%Z) with true. cbn [negb andb].
        destruct (Z.eqb_spec sr 0x17F); [lia|].
        destruct (Z.eqb_spec sr 0x212A); lia.
      * destruct (Z.eqb_spec sr 0x17F); [lia|].
        destruct (Z.eqb_spec sr 0x212A); lia.
    + rewrite (SimpleFold_lower (tr + 32)) by lia.
      replace (tr + 32 - 32)%Z with tr by lia.
      rewrite Z.eqb_refl. cbn [negb andb].
      destruct (Z.eqb_spec sr 0x17F); [lia|].
      destruct (Z.eqb_spec sr 0x212A); lia.
  - change (unicode.SimpleFold 107) with 0x212A%Z.
    change ((65 <=? 107) && (107 <=? 90))%Z with false. cbv iota.
    cbn [strings.foldUpTo].
    destruct (Z.eqb_spec 0x212A 107); [lia|].
    destruct (Z.ltb_spec 0x212A sr); cbn [negb andb].
    + change (unicode.SimpleFold 0x212A) with 75%Z.
      destruct (Z.eqb_spec 75 107); [lia|].
      destruct (Z.ltb_spec 75 sr); [|lia]. cbn [negb andb].
      change (unicode.SimpleFold 75) with 107%Z.
      rewrite Z.eqb_refl. cbn [negb andb].
      destruct (Z.eqb_spec sr 0x17F); [lia|].
      destruct (Z.eqb_spec sr 0x212A); lia.
    + destruct (Z.eqb_spec sr 0x17F); [lia|].
      destruct (Z.eqb_spec sr 0x212A); lia.
  - change (unicode.SimpleFold 115) with 0x17F%Z.
    change ((65 <=? 115) && (115 <=? 90))%Z with false. cbv iota.
    cbn [strings.foldUpTo].
    destruct (Z.eqb_spec 0x17F 115); [lia|].
    destruct (Z.ltb_spec 0x17F sr); cbn [negb andb].
    + change (unicode.SimpleFold 0x17F) with 83%Z.
      destruct (Z.eqb_spec 83 115); [lia|].
      destruct (Z.ltb_spec 83 sr); [|lia]. cbn [negb andb].
      change (unicode.SimpleFold 83) with 115%Z.
      rewrite Z.eqb_refl. cbn [negb andb].
      destruct (Z.eqb_spec sr 0x17F); [lia|].
      destruct (Z.eqb_spec sr 0x212A); lia.
    + destruct (Z.eqb_spec sr 0x17F); [lia|].
      destruct (Z.eqb_spec sr 0x212A); lia.
  - rewrite (SimpleFold_lower tr Hl Hk Hs).
    destruct (Z.leb_spec 65 tr), (Z.leb_spec tr 90); cbn [andb]; try lia.
    cbn [strings.foldUpTo].
    destruct (Z.eqb_spec (tr - 32) tr); [lia|].
    destruct (Z.ltb_spec (tr - 32) sr); [|lia]. cbn [negb andb].
    rewrite (SimpleFold_upper (tr - 32)) by lia.
    replace (tr - 32 + 32)%Z with tr by lia.
    rewrite Z.eqb_refl. cbn [negb andb].
    destruct (Z.eqb_spec sr 0x17F); [lia|].
    destruct (Z.eqb_spec sr 0x212A); lia.
  - rewrite (SimpleFold_no_letter tr Htr Hu Hl).
    destruct (Z.leb_spec 65 tr), (Z.leb_spec tr 90); cbn [andb]; try lia;
      cbn [strings.foldUpTo]; rewrite Z.eqb_refl; cbn [negb andb];
      (destruct (Z.eqb_spec sr 0x17F); [lia|]);
      destruct (Z.eqb_spec sr 0x212A); lia.
Qed.

Lemma upperLower_spec (a b : Z) :
  (a < b)%Z -> (0 <= a)%Z -> (b < 128)%Z ->
  strings.upperLower a b = true <-> foldCase a = foldCase b.
Proof.
  intros Hlt Ha Hb.
  rewrite (foldCase_ascii a), (foldCase_ascii b) by lia.
  unfold strings.upperLower.
  destruct (Z.leb_spec 65 a), (Z.leb_spec a 90), (Z.leb_spec 65 b),
    (Z.leb_spec b 90), (Z.eqb_spec b (a + 32)); cbn [andb];
    split; intros; try lia; try discriminate; reflexivity.
Qed.

(** What the loop after [hasUnicode] decides for a rune of [s] and an ASCII
    character of [t]. *)
Lemma foldedRunes_spec (sr tr : Z) :
  (0 <= tr < 128)%Z ->
  strings.foldedRunes sr tr = true <-> foldCase sr = foldCase tr.
Proof.
  intros Htr. unfold strings.foldedRunes, utf8.RuneSelf.
  destruct (Z.eqb_spec tr sr) as [-> | Hne]; [tauto|].
  destruct (Z.ltb_spec tr sr) as [Hlt | Hge].
  - destruct (Z.ltb_spec sr 0x80) as [Hs | Hs].
    + rewrite (upperLower_spec tr sr) by lia. split; congruence.
    + rewrite Z.eqb_eq. now apply foldUpTo_spec.
  - destruct (Z.ltb_spec tr 0x80) as [_ | ?]; [|lia].
    destruct (Z.ltb_spec sr 0) as [Hneg | Hpos].
    + unfold strings.upperLower.
      destruct (Z.leb_spec 65 sr); [lia|]. cbn [andb].
      rewrite (foldCase_ascii tr Htr). unfold foldCase.
      destruct (Z.leb_spec 65 sr); [lia|]. cbn [andb].
      destruct (Z.eqb_spec sr 0x17F); [lia|].
      destruct (Z.eqb_spec sr 0x212A); [lia|].
      destruct ((65 <=? tr) && (tr <=? 90))%Z; split; intros;
        try discriminate; lia.
    + now apply upperLower_spec; lia.
Qed.

Lemma byte_range (c : ascii) : (0 <= utf8.byte c < 256)%Z.
Proof.
  unfold utf8.byte. pose proof (nat_ascii_bounded c). lia.
Qed.

Lemma lor_below (a b : Z) :
  (0 <= a)%Z -> (0 <= b)%Z -> (Z.lor a b < 128)%Z -> (a < 128)%Z.
Proof.
  intros Ha Hb H.
  destruct (Z.ltb_spec a 128) as [|Hbig]; [assumption | exfalso].
  assert (Hl : (7 <= Z.log2 a)%Z).
  { change 7%Z with (Z.log2 128). now apply Z.log2_le_mono. }
  assert (Hor : (0 < Z.lor a b)%Z).
  { assert (0 <= Z.lor a b)%Z by now apply Z.lor_nonneg.
    assert (Z.lor a b <> 0%Z) by (rewrite Z.lor_eq_0_iff; lia). lia. }
  apply (Z.log2_lt_pow2 _ 7 Hor) in H.
  rewrite (Z.log2_lor a b Ha Hb) in H. lia.
Qed.

Lemma runes_cons (c : ascii) (s : gostring) :
  utf8.runes (c :: s)
  = fst (utf8.DecodeRuneInString (c :: s))
    :: utf8.rangeOver (length s)
         (skipn (snd (utf8.DecodeRuneInString (c :: s))) (c :: s)).
Proof.
  unfold utf8.runes. cbn [length utf8.rangeOver].
  now destruct (utf8.DecodeRuneInString (c :: s)).
Qed.

Lemma runes_ascii (c : ascii) (s : gostring) :
  (utf8.byte c < 128)%Z -> utf8.runes (c :: s) = utf8.byte c :: utf8.runes s.
Proof.
  intros H. rewrite runes_cons. cbn [utf8.DecodeRuneInString].
  unfold utf8.RuneSelf.
  destruct (Z.ltb_spec (utf8.byte c) 0x80); [reflexivity | lia].
Qed.

Lemma runes_isASCII (t : gostring) :
  isASCII t -> utf8.runes t = map utf8.byte t.
Proof.
  induction 1 as [|c t Hc _ IH]; [reflexivity|].
  now rewrite (runes_ascii c t Hc), IH.
Qed.

Lemma hasUnicode_spec (rs : list Z) (t : gostring) :
  isASCII t ->
  strings.hasUnicode rs t = true
  <-> map foldCase rs = map foldCase (map utf8.byte t).
Proof.
  revert t. induction rs as [|sr rs IH]; intros t Ht.
  - cbn [strings.hasUnicode map]. rewrite Nat.eqb_eq.
    destruct t; cbn [length map]; split; intros; try discriminate;
      try reflexivity; lia.
  - destruct Ht as [|d t Hd Ht]; cbn [strings.hasUnicode map].
    + split; discriminate.
    + unfold utf8.RuneSelf.
      destruct (Z.ltb_spec (utf8.byte d) 0x80); [|lia].
      pose proof (byte_range d) as Hr.
      pose proof (foldedRunes_spec sr (utf8.byte d)) as Hf.
      destruct (strings.foldedRunes sr (utf8.byte d)).
      * rewrite (IH t Ht). split.
        -- intros ->. f_equal. apply Hf; [lia | reflexivity].
        -- intros E. now injection E.
      * split; [discriminate|]. intros E. injection E as E _.
        apply Hf in E; [discriminate | lia].
Qed.

Lemma EqualFold_hasUnicode (s t : gostring) :
  isASCII t -> strings.EqualFold s t = strings.hasUnicode (utf8.runes s) t.
Proof.
  revert t. induction s as [|c s IH]; intros t Ht.
  - cbn [strings.EqualFold utf8.runes length utf8.rangeOver
         strings.hasUnicode].
    unfold utf8.runes. cbn [length utf8.rangeOver strings.hasUnicode].
    apply Nat.eqb_sym.
  - destruct Ht as [|d t Hd Ht].
    + rewrite runes_cons. reflexivity.
    + cbn [strings.EqualFold]. unfold utf8.RuneSelf.
      destruct (Z.leb_spec 0x80 (Z.lor (utf8.byte c) (utf8.byte d)))
        as [|Hsmall]; [reflexivity|].
      pose proof (byte_range c) as Hc. pose proof (byte_range d) as Hd'.
      assert (Hc' : (utf8.byte c < 128)%Z)
        by (apply (lor_below _ (utf8.byte d)); lia).
      rewrite (runes_ascii c s Hc'). cbn [strings.hasUnicode].
      unfold utf8.RuneSelf.
      destruct (Z.ltb_spec (utf8.byte d) 0x80); [|lia].
      unfold strings.foldedRunes, utf8.RuneSelf.
      destruct (Z.eqb_spec (utf8.byte d) (utf8.byte c)); [now apply IH|].
      destruct (Z.ltb_spec (utf8.byte d) (utf8.byte c)).
      * destruct (Z.ltb_spec (utf8.byte c) 0x80); [|lia].
        rewrite (IH t Ht). reflexivity.
      * destruct (Z.ltb_spec (utf8.byte d) 0x80); [|lia].
        rewrite (IH t Ht). reflexivity.
Qed.

(** [strings.EqualFold] against a text of ASCII characters decides
    equality under case folding. *)
Lemma EqualFold_spec (v t : gostring) :
  isASCII t -> strings.EqualFold v t = true <-> equalsIgnoringCase v t.
Proof.
  intros Ht. unfold equalsIgnoringCase.
  rewrite (EqualFold_hasUnicode v t Ht), (hasUnicode_spec _ t Ht).
  now rewrite (runes_isASCII t Ht).
Qed.

Lemma isLiteralType_spec (a : Attribute) :
  isLiteralTypeAttribute strings.EqualFold a = true <-> isLiteralType a.
Proof.
  destruct a as [[name | e] v | k e]; cbn [isLiteralTypeAttribute isLiteralType];
    try (split; [discriminate | contradiction]).
  apply EqualFold_spec. unfold isASCII.
  repeat (apply Forall_cons; [vm_compute; reflexivity|]). apply Forall_nil.
Qed.

Lemma isLiteralType_false (a : Attribute) :
  isLiteralTypeAttribute strings.EqualFold a = false <-> ~ isLiteralType a.
Proof.
  rewrite <- isLiteralType_spec.
  destruct (isLiteralTypeAttribute strings.EqualFold a); split;
    congruence || (intros H; exfalso; now apply H).
Qed.

(** C5: the classifier answers "JavaScript" exactly when no attribute is a
    literal [type] attribute -- a constant attribute whose constant key
    equals [type] case-insensitively --, or the value of the first such
    attribute equals, case-insensitively, one of the empty string,
    [text/javascript], [javascript] and [module].  Attributes with an
    expression as value or as key are passed over, and what follows the
    first literal [type] attribute is not read.  Case-insensitive equality
    is equality under Unicode simple case folding, as [strings.EqualFold]
    decides it. *)
Theorem hasJavaScriptType_spec (attrs : list Attribute) :
  hasJavaScriptType strings.EqualFold attrs = true
  <-> (forall a, In a attrs -> ~ isLiteralType a)
      \/ (exists pre k v post,
            attrs = pre ++ ConstantAttribute k v :: post
            /\ (forall a, In a pre -> ~ isLiteralType a)
            /\ isLiteralType (ConstantAttribute k v)
            /\ exists t,
                 In t [lit ""; lit "text/javascript"; lit "javascript";
                       lit "module"]
                 /\ equalsIgnoringCase v t).
Proof.
  rewrite (hasJavaScriptType_first_literal strings.EqualFold attrs).
  change javaScriptTypeAttributeValues
    with [lit ""; lit "text/javascript"; lit "javascript"; lit "module"].
  assert (Hvalues : forall v t,
            In t [lit ""; lit "text/javascript"; lit "javascript";
                  lit "module"] ->
            strings.EqualFold v t = true <-> equalsIgnoringCase v t).
  { intros v t Hin. apply EqualFold_spec. unfold isASCII.
    cbn [In] in Hin.
    repeat (destruct Hin as [<- | Hin];
            [repeat (apply Forall_cons; [vm_compute; reflexivity|]);
             apply Forall_nil|]).
    contradiction. }
  split.
  - intros [Hnone | (pre & k & v & post & E & Hpre & Hk & t & Hin & Ht)].
    + left. intros a Ha. apply isLiteralType_false. now apply Hnone.
    + right. exists pre, k, v, post. split; [assumption|]. split.
      * intros a Ha. apply isLiteralType_false. now apply Hpre.
      * split; [now apply isLiteralType_spec|].
        exists t. split; [assumption | now apply Hvalues].
  - intros [Hnone | (pre & k & v & post & E & Hpre & Hk & t & Hin & Ht)].
    + left. intros a Ha. apply isLiteralType_false. now apply Hnone.
    + right. exists pre, k, v, post. split; [assumption|]. split.
      * intros a Ha. apply isLiteralType_false. now apply Hpre.
      * split; [now apply isLiteralType_spec|].
        exists t. split; [assumption | now apply Hvalues].
Qed.

(** ** The combinators *)

Lemma slice_same (s : gostring) (a : nat) : slice s a a = [].
Proof. unfold slice. now rewrite Nat.sub_diag. Qed.

Lemma length_slice (s : gostring) (a b : nat) :
  a <= b -> b <= length s -> length (slice s a b) = b - a.
Proof.
  intros Hab Hb. unfold slice. rewrite length_firstn, length_skipn. lia.
Qed.

Lemma firstn_plus (x y : nat) (l : gostring) :
  firstn (x + y) l = firstn x l ++ firstn y (skipn x l).
Proof.
  revert l; induction x as [|x IH]; intros [|c l]; simpl;
    try reflexivity.
  - now rewrite firstn_nil.
  - now rewrite IH.
Qed.

Lemma slice_app (s : gostring) (a b c : nat) :
  a <= b -> b <= c -> slice s a b ++ slice s b c = slice s a c.
Proof.
  intros Hab Hbc. unfold slice.
  replace (c - a) with ((b - a) + (c - b)) by lia.
  rewrite firstn_plus. f_equal.
  rewrite skipn_skipn. now replace (b - a + a) with b by lia.
Qed.

Lemma slice_occurs (m s : gostring) (i : nat) :
  occursAt m s i <-> slice s i (i + length m) = m /\ i + length m <= length s.
Proof.
  unfold occursAt, slice. replace (i + length m - i) with (length m) by lia.
  split.
  - intros (pre & post & -> & <-).
    rewrite skipn_app, skipn_all, Nat.sub_diag. simpl.
    rewrite firstn_app, firstn_all, Nat.sub_diag. simpl.
    rewrite app_nil_r, !length_app. split; [reflexivity | lia].
  - intros [E Hlen].
    exists (firstn i s), (skipn (length m) (skipn i s)). split.
    + rewrite <- E at 1. rewrite firstn_skipn. symmetry. apply firstn_skipn.
    + rewrite length_firstn. lia.
Qed.

Lemma Peek_true (s : gostring) (i n : nat) (x : gostring) :
  Peek s i n = (x, true) -> x = slice s i (i + n) /\ i + n <= length s.
Proof.
  unfold Peek. destruct (i + n <=? length s) eqn:H; [|discriminate].
  apply Nat.leb_le in H. intros E. inversion E. auto.
Qed.

Lemma Peek_false (s : gostring) (i n : nat) (x : gostring) :
  Peek s i n = (x, false) -> length s < i + n.
Proof.
  unfold Peek. destruct (i + n <=? length s) eqn:H; [discriminate|].
  apply Nat.leb_gt in H. auto.
Qed.

(** [parse.String]: it matches exactly where the text stands, and moves the
    cursor past it. *)
Lemma String_occurs (m s : gostring) (i : nat) :
  occursAt m s i -> parse.String m s i = (mkResult m true None, i + length m).
Proof.
  intros H. apply slice_occurs in H. destruct H as [E Hlen].
  unfold parse.String, Peek.
  apply Nat.leb_le in Hlen. rewrite Hlen, E, streq_refl. reflexivity.
Qed.

Lemma String_not_occurs (m s : gostring) (i : nat) :
  ~ occursAt m s i -> parse.String m s i = (mkResult [] false None, i).
Proof.
  intros H. unfold parse.String.
  destruct (Peek s i (length m)) as [x [|]] eqn:P; [|reflexivity].
  apply Peek_true in P. destruct P as [-> Hlen].
  destruct (streq m (slice s i (i + length m))) eqn:E; [|reflexivity].
  apply streq_eq in E. exfalso. apply H. apply slice_occurs. now split.
Qed.

Lemma occursAt_dec (m s : gostring) (i : nat) :
  occursAt m s i \/ ~ occursAt m s i.
Proof.
  rewrite slice_occurs.
  destruct (streq (slice s i (i + length m)) m) eqn:E.
  - apply streq_eq in E. destruct (Nat.le_gt_cases (i + length m) (length s)).
    + now left.
    + right. intros [_ H']. lia.
  - apply streq_neq in E. right. now intros [H' _].
Qed.

Lemma String_inv (m s : gostring) (i : nat) (r : Result gostring) (i' : nat) :
  parse.String m s i = (r, i') ->
  err r = None
  /\ (ok r = true -> occursAt m s i /\ i' = i + length m /\ value r = m)
  /\ (ok r = false -> ~ occursAt m s i /\ i' = i).
Proof.
  intros E. destruct (occursAt_dec m s i) as [H | H].
  - rewrite (String_occurs _ _ _ H) in E. inversion E; subst; simpl.
    repeat split; auto; discriminate.
  - rewrite (String_not_occurs _ _ _ H) in E. inversion E; subst; simpl.
    repeat split; auto; discriminate.
Qed.

Lemma isErr_None {T : Type} (r : Result T) : err r = None -> isErr r = false.
Proof. unfold isErr. now intros ->. Qed.

Lemma isErr_false {T : Type} (r : Result T) : isErr r = false -> err r = None.
Proof. unfold isErr. now destruct (err r). Qed.

Lemma Seek_inside (s : gostring) (i index : nat) :
  index <= length s -> Seek s i index = index.
Proof. unfold Seek. intros H. apply Nat.leb_le in H. now rewrite H. Qed.

Lemma wb_String (m : gostring) : wellBehaved (parse.String m).
Proof.
  intros s i r i' E _. apply String_inv in E.
  destruct E as (He & Hok & Hno). split; [assumption|]. split.
  - intros H. now apply Hno.
  - intros H. destruct (Hok H) as (Hocc & -> & _).
    apply slice_occurs in Hocc. lia.
Qed.

Lemma RuneWhere_inv (f : ascii -> bool) (s : gostring) (i : nat)
    (r : Result gostring) (i' : nat) :
  RuneWhere f s i = (r, i') ->
  err r = None
  /\ (ok r = true ->
      exists c, nth_error s i = Some c /\ f c = true
                /\ value r = [c] /\ i' = i + 1)
  /\ (ok r = false ->
      i' = i /\ forall c, nth_error s i = Some c -> f c = false).
Proof.
  unfold RuneWhere, Peek, slice. replace (i + 1 - i) with 1 by lia.
  destruct (i + 1 <=? length s) eqn:H.
  - apply Nat.leb_le in H.
    destruct (skipn i s) as [|c rest] eqn:Hs.
    { apply skipn_all_iff in Hs. lia. }
    assert (Hn : nth_error s i = Some c).
    { rewrite <- (firstn_skipn i s), Hs, nth_error_app2;
        rewrite length_firstn; [|lia].
      now replace (i - Nat.min i (length s)) with 0 by lia. }
    simpl. destruct (f c) eqn:Hf; intros E; injection E as <- <-; simpl;
      (split; [reflexivity|]); split; try discriminate; intros _.
    + now exists c.
    + split; [reflexivity|]. intros c' Hc'. congruence.
  - apply Nat.leb_gt in H. intros E; injection E as <- <-; simpl.
    split; [reflexivity|]. split; [discriminate|]. intros _.
    split; [reflexivity|]. intros c Hc.
    assert (i < length s) by (apply nth_error_Some; congruence). lia.
Qed.

Lemma wb_RuneWhere (f : ascii -> bool) : wellBehaved (RuneWhere f).
Proof.
  intros s i r i' E _. apply RuneWhere_inv in E.
  destruct E as (He & Hok & Hno). split; [assumption|]. split.
  - intros H. now apply Hno.
  - intros H. destruct (Hok H) as (c & Hc & _ & _ & ->).
    assert (i < length s) by (apply nth_error_Some; congruence). lia.
Qed.

Lemma EOF_inv (s : gostring) (i : nat) :
  EOF s i = (mkResult [] (length s <=? i) None, i).
Proof.
  unfold EOF, Peek.
  destruct (i + 1 <=? length s) eqn:H; simpl; f_equal; f_equal.
  - apply Nat.leb_le in H. symmetry. apply Nat.leb_gt. lia.
  - apply Nat.leb_gt in H. symmetry. apply Nat.leb_le. lia.
Qed.

Lemma wb_EOF : wellBehaved EOF.
Proof.
  intros s i r i' E Hi. rewrite EOF_inv in E. injection E as <- <-; simpl.
  repeat split; auto.
Qed.

Lemma span_le (f : ascii -> bool) (s : gostring) : span f s <= length s.
Proof. induction s as [|c s IH]; simpl; [|destruct (f c)]; lia. Qed.

Lemma wb_OptionalWhitespace : wellBehaved OptionalWhitespace.
Proof.
  intros s i r i' E Hi. unfold OptionalWhitespace in E.
  injection E as <- <-; simpl.
  pose proof (span_le unicode.IsSpace (skipn i s)) as H.
  rewrite length_skipn in H.
  repeat split; try discriminate; lia.
Qed.

Lemma wb_Any {T : Type} (zero : T) (parsers : list (Parser T)) :
  Forall wellBehaved parsers -> wellBehaved (Any zero parsers).
Proof.
  induction 1 as [|p rest Hp Hrest IH]; intros s i r i' E Hi; simpl in E.
  - injection E as <- <-; simpl. repeat split; auto; discriminate.
  - destruct (p s i) as [r1 i1] eqn:E1.
    destruct (Hp _ _ _ _ E1 Hi) as (He & Hno & Hok).
    rewrite (isErr_None _ He) in E. simpl in E.
    destruct (ok r1) eqn:O1.
    + injection E as <- <-. auto.
    + rewrite (Hno eq_refl) in *. destruct rest as [|q rest].
      * injection E as <- <-. repeat split; auto; congruence.
      * now apply IH.
Qed.

Lemma wb_Or {A B : Type} (a : Parser A) (b : Parser B) :
  wellBehaved a -> wellBehaved b -> wellBehaved (Or a b).
Proof.
  intros Ha Hb s i r i' E Hi. unfold Or in E.
  destruct (a s i) as [ra i1] eqn:Ea.
  destruct (Ha _ _ _ _ Ea Hi) as (He & Hno & Hok).
  rewrite (isErr_None _ He) in E.
  destruct (ok ra) eqn:Oa.
  - injection E as <- <-; simpl. repeat split; auto; try discriminate;
      now apply Hok.
  - rewrite (Hno eq_refl) in *.
    destruct (b s i) as [rb i2] eqn:Eb.
    destruct (Hb _ _ _ _ Eb Hi) as (Heb & Hnob & Hokb).
    rewrite (isErr_None _ Heb) in E.
    destruct (ok rb) eqn:Ob; injection E as <- <-; simpl;
      repeat split; auto; try discriminate; now apply Hokb.
Qed.

Lemma sequence_inv {T : Type} (parsers : list (Parser T)) :
  Forall wellBehaved parsers ->
  forall s i r i', sequence parsers s i = (r, i') -> i <= length s ->
    err r = None /\ (ok r = true -> i <= i' /\ i' <= length s).
Proof.
  induction 1 as [|p rest Hp Hrest IH]; intros s i r i' E Hi; simpl in E.
  - injection E as <- <-; simpl. auto.
  - destruct (p s i) as [r1 i1] eqn:E1.
    destruct (Hp _ _ _ _ E1 Hi) as (He & Hno & Hok).
    rewrite (isErr_None _ He) in E.
    destruct (ok r1) eqn:O1; simpl in E.
    + destruct (Hok eq_refl) as [H1 H2].
      destruct (IH _ _ _ _ E H2) as [He' Hok'].
      split; [assumption|]. intros O. specialize (Hok' O). lia.
    + injection E as <- <-; simpl. split; [reflexivity | discriminate].
Qed.

(** When a sequence matches, its first parser matched and the rest matched
    from where the first one stopped. *)
Lemma sequence_cons {T : Type} (p : Parser T) (rest : list (Parser T))
    (s : gostring) (i : nat) (r : Result unit) (i' : nat) :
  sequence (p :: rest) s i = (r, i') -> err r = None -> ok r = true ->
  exists r1 i1, p s i = (r1, i1) /\ err r1 = None /\ ok r1 = true
                /\ sequence rest s i1 = (r, i').
Proof.
  simpl. destruct (p s i) as [r1 i1] eqn:E1. intros E He O.
  destruct (isErr r1) eqn:Er.
  - injection E as <- <-. simpl in He. unfold isErr in Er.
    rewrite He in Er. discriminate.
  - destruct (ok r1) eqn:O1; simpl in E.
    + exists r1, i1. repeat split; auto. now apply isErr_false.
    + injection E as <- <-. discriminate.
Qed.

Lemma StringFrom_inv {T : Type} (parsers : list (Parser T)) :
  Forall wellBehaved parsers ->
  forall s i r i', StringFrom parsers s i = (r, i') -> i <= length s ->
    err r = None
    /\ (ok r = false -> i' = i)
    /\ (ok r = true ->
        i <= i' /\ i' <= length s /\ value r = slice s i i'
        /\ exists r0, sequence parsers s i = (r0, i')
                      /\ err r0 = None /\ ok r0 = true).
Proof.
  intros Hall s i r i' E Hi. unfold StringFrom in E.
  destruct (sequence parsers s i) as [r0 i1] eqn:E0.
  destruct (sequence_inv _ Hall _ _ _ _ E0 Hi) as [He Hok].
  rewrite (isErr_None _ He) in E.
  destruct (ok r0) eqn:O0; simpl in E; injection E as <- <-; simpl.
  - destruct (Hok eq_refl). repeat split; auto; try discriminate.
    now exists r0.
  - repeat split; try discriminate. intros _. now apply Seek_inside.
Qed.

Lemma wb_StringFrom {T : Type} (parsers : list (Parser T)) :
  Forall wellBehaved parsers -> wellBehaved (StringFrom parsers).
Proof.
  intros Hall s i r i' E Hi.
  destruct (StringFrom_inv _ Hall _ _ _ _ E Hi) as (He & Hno & Hok).
  repeat split; auto; now apply Hok.
Qed.

Lemma untilLoop_inv {T : Type} (d : Parser T) (s : gostring) :
  wellBehaved d ->
  forall fuel start i r j,
    untilLoop d s fuel start i = (r, j) ->
    start <= length s -> i <= length s -> length s - i < fuel ->
    err r = None
    /\ (ok r = true ->
        i <= j /\ j <= length s /\ value r = slice s start j
        /\ matchesAt d s j = true
        /\ forall k, i <= k -> k < j -> matchesAt d s k = false)
    /\ (ok r = false ->
        j = start
        /\ forall k, i <= k -> k <= length s -> matchesAt d s k = false).
Proof.
  intros Hd. induction fuel as [|fuel IH]; intros start i r j E Hs Hi Hf;
    [lia|].
  simpl in E. destruct (d s i) as [rd i1] eqn:Ed.
  destruct (Hd _ _ _ _ Ed Hi) as (He & Hno & Hok).
  rewrite (isErr_None _ He) in E.
  destruct (ok rd) eqn:Od.
  - injection E as <- <-; simpl. split; [reflexivity|]. split; [|discriminate].
    intros _. repeat split; auto.
    + unfold matchesAt. now rewrite Ed.
    + intros k H1 H2. lia.
  - rewrite (Hno eq_refl) in E. unfold Take in E.
    destruct (i + 1 <=? length s) eqn:Hl.
    + apply Nat.leb_le in Hl.
      destruct (IH _ _ _ _ E Hs) as (He' & Hok' & Hno'); [lia | lia |].
      split; [assumption|]. split.
      * intros O. destruct (Hok' O) as (H1 & H2 & H3 & H4 & H5).
        repeat split; auto; [lia|].
        intros k Hk1 Hk2. destruct (Nat.eq_dec k i) as [-> | Hne].
        -- unfold matchesAt. now rewrite Ed.
        -- apply H5; lia.
      * intros O. destruct (Hno' O) as (H1 & H2). split; [assumption|].
        intros k Hk1 Hk2. destruct (Nat.eq_dec k i) as [-> | Hne].
        -- unfold matchesAt. now rewrite Ed.
        -- apply H2; lia.
    + apply Nat.leb_gt in Hl. injection E as <- <-; simpl.
      split; [reflexivity|]. split; [discriminate|]. intros _.
      split; [now apply Seek_inside|].
      intros k Hk1 Hk2. assert (k = i) as -> by lia.
      unfold matchesAt. now rewrite Ed.
Qed.

Lemma StringUntil_inv {T : Type} (d : Parser T) (s : gostring) (i : nat)
    (r : Result gostring) (j : nat) :
  wellBehaved d -> StringUntil d s i = (r, j) -> i <= length s ->
  err r = None
  /\ (ok r = true ->
      i <= j /\ j <= length s /\ value r = slice s i j
      /\ matchesAt d s j = true
      /\ forall k, i <= k -> k < j -> matchesAt d s k = false)
  /\ (ok r = false ->
      j = i /\ forall k, i <= k -> k <= length s -> matchesAt d s k = false).
Proof.
  intros Hd E Hi. unfold StringUntil in E.
  apply (untilLoop_inv d s Hd _ _ _ _ _ E); auto.
Qed.

Lemma wb_StringUntil {T : Type} (d : Parser T) :
  wellBehaved d -> wellBehaved (StringUntil d).
Proof.
  intros Hd s i r j E Hi.
  destruct (StringUntil_inv d s i r j Hd E Hi) as (He & Hok & Hno).
  repeat split; auto; try now apply Hok. intros O. now apply Hno.
Qed.

(** ** The token parsers *)

Lemma occursAt_room (m s : gostring) (i : nat) :
  occursAt m s i -> i + length m <= length s.
Proof. intros H. now apply slice_occurs in H. Qed.

Lemma occursAt_head (c : ascii) (m s : gostring) (i : nat) :
  occursAt (c :: m) s i -> occursAt [c] s i.
Proof.
  intros (pre & post & -> & <-). exists pre, (m ++ post). now split.
Qed.

Lemma occursAt_nth (c : ascii) (s : gostring) (i : nat) :
  occursAt [c] s i <-> nth_error s i = Some c.
Proof.
  split.
  - intros (pre & post & -> & <-). now rewrite nth_error_app2, Nat.sub_diag.
  - intros H. destruct (nth_error_split _ _ H) as (pre & post & -> & <-).
    now exists pre, post.
Qed.

Lemma StringFrom_first_fails (m : gostring) (rest : list (Parser gostring))
    (s : gostring) (i : nat) :
  ~ occursAt m s i ->
  StringFrom (parse.String m :: rest) s i = (mkResult [] false None, i).
Proof.
  intros H. unfold StringFrom. simpl.
  rewrite (String_not_occurs _ _ _ H). simpl.
  unfold Seek. now destruct (i <=? length s).
Qed.

Lemma StringFrom_first_ok (m : gostring) (rest : list (Parser gostring))
    (s : gostring) (i : nat) :
  occursAt m s i ->
  StringFrom (parse.String m :: rest) s i
  = let (r, i1) := sequence rest s (i + length m) in
    if isErr r then (mkResult [] (ok r) (err r), i1)
    else if negb (ok r) then (mkResult [] false None, Seek s i1 i)
    else (mkResult (slice s i i1) true None, i1).
Proof.
  intros H. unfold StringFrom. simpl.
  now rewrite (String_occurs _ _ _ H).
Qed.

(** [jsBackslashEscape] matches a backslash and the byte after it. *)
Lemma jsBackslashEscape_eq (s : gostring) (i : nat) :
  (occursAt [BACKSLASH] s i /\ i + 2 <= length s
   /\ jsBackslashEscape s i = (mkResult (slice s i (i + 2)) true None, i + 2))
  \/ ((~ occursAt [BACKSLASH] s i \/ length s < i + 2)
      /\ jsBackslashEscape s i = (mkResult [] false None, i)).
Proof.
  unfold jsBackslashEscape.
  destruct (occursAt_dec [BACKSLASH] s i) as [H | H].
  - pose proof (occursAt_room _ _ _ H) as Hr. simpl in Hr.
    rewrite (StringFrom_first_ok _ _ _ _ H). simpl.
    destruct (AnyRune s (i + 1)) as [r i1] eqn:E.
    apply RuneWhere_inv in E. destruct E as (He & Hok & Hno).
    rewrite (isErr_None _ He).
    destruct (ok r) eqn:O; simpl.
    + destruct (Hok eq_refl) as (c & Hc & _ & _ & ->). left.
      assert (i + 1 < length s) by (apply nth_error_Some; congruence).
      repeat split; auto; try lia.
      now replace (i + 1 + 1) with (i + 2) by lia.
    + destruct (Hno eq_refl) as (-> & Hc). right. split.
      * right. destruct (nth_error s (i + 1)) as [c|] eqn:Hn.
        -- specialize (Hc c eq_refl). discriminate.
        -- apply nth_error_None in Hn. lia.
      * rewrite Seek_inside; [reflexivity | lia].
  - right. split; [now left|]. now apply StringFrom_first_fails.
Qed.

Lemma no_escape_head (c : ascii) (m s : gostring) (i : nat) :
  ~ occursAt [BACKSLASH] s i \/ length s < i + 2 ->
  ~ occursAt (BACKSLASH :: c :: m) s i.
Proof.
  intros [H | H] Hocc.
  - apply H. now apply occursAt_head in Hocc.
  - apply occursAt_room in Hocc. simpl in Hocc. lia.
Qed.

(** [jsCharacter] is a backslash with the byte after it or, where that
    does not match, one byte: the three other escape forms never match
    where the first one did not, and so the parameter [hexDigits] is never
    run. *)
Lemma jsCharacterWith_eq (hexDigits : Parser gostring) (s : gostring)
    (i : nat) :
  jsCharacterWith hexDigits s i
  = let (r, i1) := jsBackslashEscape s i in
    if ok r then (r, i1) else AnyRune s i.
Proof.
  unfold jsCharacterWith, jsEscapedCharacter. simpl.
  destruct (jsBackslashEscape_eq s i) as [(_ & _ & ->) | (H & ->)]; simpl.
  - reflexivity.
  - unfold jsUnicodeEscape, jsHexEscape, jsExtendedUnicodeEscape.
    rewrite !StringFrom_first_fails by now apply no_escape_head.
    unfold isErr. simpl. destruct (AnyRune s i) as [[v o [e|]] i1];
      destruct o; reflexivity.
Qed.

Lemma jsCharacter_hexDigits_irrelevant (x y : Parser gostring) (s : gostring)
    (i : nat) :
  jsCharacterWith x s i = jsCharacterWith y s i.
Proof. now rewrite !jsCharacterWith_eq. Qed.

(** [jsCharacter] takes one or two bytes, and fails only at the end of the
    text. *)
Lemma jsCharacter_inv (hexDigits : Parser gostring) (s : gostring) (i : nat)
    (r : Result gostring) (i' : nat) :
  jsCharacterWith hexDigits s i = (r, i') ->
  err r = None
  /\ (ok r = true -> i < i' /\ i' <= length s /\ value r = slice s i i')
  /\ (ok r = false -> i' = i /\ length s <= i).
Proof.
  rewrite jsCharacterWith_eq.
  destruct (jsBackslashEscape_eq s i) as [(_ & Hl & ->) | (H & ->)]; simpl.
  - intros E; injection E as <- <-; simpl.
    repeat split; auto; try discriminate; lia.
  - intros E. apply RuneWhere_inv in E. destruct E as (He & Hok & Hno).
    split; [assumption|]. split.
    + intros O. destruct (Hok O) as (c & Hc & _ & Hv & ->).
      assert (i < length s) by (apply nth_error_Some; congruence).
      repeat split; try lia. rewrite Hv.
      apply occursAt_nth, slice_occurs in Hc. simpl in Hc.
      symmetry. apply Hc.
    + intros O. destruct (Hno O) as (-> & Hc). split; [reflexivity|].
      destruct (nth_error s i) as [c|] eqn:Hn.
      * specialize (Hc c eq_refl). discriminate.
      * now apply nth_error_None in Hn.
Qed.

(** X1, escape forms: a lexical unit that [jsCharacter] reads is a backslash
    with the one byte after it, or one byte; the forms [\uXXXX], [\xXX] and
    [\u{...}] come after the general form in [jsEscapedCharacter] and never
    match where it did not. *)
Theorem escapes_take_two_bytes (hexDigits : Parser gostring) (s : gostring)
    (i : nat) (r : Result gostring) (i' : nat) :
  jsCharacterWith hexDigits s i = (r, i') -> ok r = true ->
  (nth_error s i = Some BACKSLASH /\ i' = i + 2
   /\ value r = slice s i (i + 2))
  \/ (i' = i + 1 /\ value r = slice s i (i + 1)
      /\ (nth_error s i <> Some BACKSLASH \/ length s = i + 1)).
Proof.
  rewrite jsCharacterWith_eq.
  destruct (jsBackslashEscape_eq s i) as [(Hb & Hl & ->) | (H & ->)];
    cbn [ok].
  - intros E _. injection E as <- <-. left.
    split; [now apply occursAt_nth | split; reflexivity].
  - intros E O. apply RuneWhere_inv in E. destruct E as (_ & Hok & _).
    destruct (Hok O) as (c & Hc & _ & Hv & ->). right.
    split; [reflexivity|]. split.
    + rewrite Hv. apply occursAt_nth, slice_occurs in Hc. symmetry. apply Hc.
    + destruct H as [H | H].
      * left. intros Hn. apply H. now apply occursAt_nth.
      * right. assert (i < length s) by (apply nth_error_Some; congruence).
        lia.
Qed.

(** Splits [Forall wellBehaved [p1; ...; pn]] into one goal per parser. *)
Ltac each_parser :=
  repeat (apply Forall_cons; [|]); [.. | apply Forall_nil].

Lemma wb_NewLine : wellBehaved NewLine.
Proof. apply wb_Any. each_parser; apply wb_String. Qed.

Lemma wb_endOfSingleLineComment : wellBehaved jsEndOfSingleLineComment.
Proof.
  apply wb_StringFrom. each_parser.
  apply wb_Or; [apply wb_NewLine | apply wb_EOF].
Qed.

Lemma wb_endOfMultiLineComment : wellBehaved jsEndOfMultiLineComment.
Proof.
  apply wb_StringFrom. each_parser.
  apply wb_Or; [apply wb_String | apply wb_EOF].
Qed.

(** A delimiter of the form "[a] or end of input" matches at the end of the
    text. *)
Lemma orEOF_at_end {A : Type} (a : Parser A) (s : gostring) :
  wellBehaved a -> matchesAt (StringFrom [Or a EOF]) s (length s) = true.
Proof.
  intros Ha. unfold matchesAt, StringFrom, sequence, Or.
  destruct (a s (length s)) as [ra i1] eqn:Ea.
  destruct (Ha _ _ _ _ Ea (le_n _)) as (He & Hno & _).
  rewrite (isErr_None _ He).
  destruct (ok ra) eqn:Oa; simpl; [reflexivity|].
  rewrite (Hno eq_refl), EOF_inv, Nat.leb_refl. reflexivity.
Qed.

Lemma unit_result (r : Result unit) :
  err r = None -> ok r = true -> r = mkResult tt true None.
Proof. destruct r as [[] o e]; simpl. now intros -> ->. Qed.

(** "Text up to the delimiter, then the delimiter, then [tail]" matches
    from every cursor when the delimiter matches at the end of the text and
    [tail] always matches. *)
Lemma until_delimiter_sequence (d : Parser gostring)
    (tail : list (Parser gostring)) :
  wellBehaved d ->
  (forall s, matchesAt d s (length s) = true) ->
  Forall wellBehaved tail ->
  (forall s i, i <= length s -> ok (fst (sequence tail s i)) = true) ->
  forall s i, i <= length s ->
    exists i', sequence (StringUntil d :: d :: tail) s i
               = (mkResult tt true None, i')
               /\ i <= i' /\ i' <= length s.
Proof.
  intros Hd Hend Htail Hok s i Hi. simpl.
  destruct (StringUntil d s i) as [ru j] eqn:Eu.
  destruct (StringUntil_inv d s i ru j Hd Eu Hi) as (He & Hyes & Hno).
  rewrite (isErr_None _ He).
  destruct (ok ru) eqn:Ou.
  - destruct (Hyes eq_refl) as (H1 & H2 & _ & Hm & _). simpl.
    unfold matchesAt in Hm. destruct (d s j) as [rd j'] eqn:Ed.
    destruct (Hd _ _ _ _ Ed H2) as (Hed & _ & Hokd). simpl in Hm.
    rewrite (isErr_None _ Hed), Hm. simpl.
    destruct (Hokd Hm) as [H3 H4].
    specialize (Hok s j' H4).
    destruct (sequence tail s j') as [rt i'] eqn:Et. simpl in Hok.
    destruct (sequence_inv tail Htail _ _ _ _ Et H4) as [Het Hokt].
    exists i'. rewrite (unit_result rt Het Hok).
    specialize (Hokt Hok). split; [reflexivity | lia].
  - destruct (Hno eq_refl) as [_ Hall].
    specialize (Hall (length s) Hi (le_n _)). rewrite Hend in Hall.
    discriminate.
Qed.

Lemma jsSingleLineComment_eq (s : gostring) (i : nat) :
  (occursAt (lit "//") s i
   /\ exists i', jsSingleLineComment s i
                 = (mkResult (slice s i i') true None, i')
                 /\ i + 2 <= i' /\ i' <= length s)
  \/ (~ occursAt (lit "//") s i
      /\ jsSingleLineComment s i = (mkResult [] false None, i)).
Proof.
  unfold jsSingleLineComment, jsStartSingleLineComment.
  destruct (occursAt_dec (lit "//") s i) as [H | H].
  - left. split; [assumption|].
    rewrite (StringFrom_first_ok _ _ _ _ H).
    pose proof (occursAt_room _ _ _ H) as Hr.
    destruct (until_delimiter_sequence jsEndOfSingleLineComment []
                wb_endOfSingleLineComment
                (fun s => orEOF_at_end NewLine s wb_NewLine)
                (Forall_nil _) (fun _ _ _ => eq_refl) s _ Hr)
      as (i' & -> & H1 & H2).
    exists i'. simpl in *. repeat split; auto.
  - right. split; [assumption|]. now apply StringFrom_first_fails.
Qed.

Lemma OptionalWhitespace_always (s : gostring) (i : nat) :
  i <= length s -> ok (fst (sequence [OptionalWhitespace] s i)) = true.
Proof. reflexivity. Qed.

Lemma jsMultiLineComment_eq (s : gostring) (i : nat) :
  (occursAt (lit "/*") s i
   /\ exists i', jsMultiLineComment s i
                 = (mkResult (slice s i i') true None, i')
                 /\ i + 2 <= i' /\ i' <= length s)
  \/ (~ occursAt (lit "/*") s i
      /\ jsMultiLineComment s i = (mkResult [] false None, i)).
Proof.
  unfold jsMultiLineComment, jsStartMultiLineComment.
  destruct (occursAt_dec (lit "/*") s i) as [H | H].
  - left. split; [assumption|].
    rewrite (StringFrom_first_ok _ _ _ _ H).
    pose proof (occursAt_room _ _ _ H) as Hr.
    destruct (until_delimiter_sequence jsEndOfMultiLineComment
                [OptionalWhitespace]
                wb_endOfMultiLineComment
                (fun s => orEOF_at_end (parse.String (lit "*/")) s
                            (wb_String _))
                (Forall_cons _ wb_OptionalWhitespace (Forall_nil _))
                OptionalWhitespace_always s _ Hr)
      as (i' & -> & H1 & H2).
    exists i'. simpl in *. repeat split; auto.
  - right. split; [assumption|]. now apply StringFrom_first_fails.
Qed.

Lemma slice_starts (m s : gostring) (i i' : nat) :
  occursAt m s i -> i + length m <= i' ->
  exists rest, slice s i i' = m ++ rest.
Proof.
  intros H Hi. apply slice_occurs in H. destruct H as [E Hl].
  exists (slice s (i + length m) i').
  rewrite <- E at 1. apply eq_sym, slice_app; lia.
Qed.

(** [jsComment] never fails with an error; it matches exactly where [//] or
    [/*] stands, takes the two bytes and more, and returns the text it
    took. *)
Lemma jsComment_inv (s : gostring) (i : nat) (r : Result gostring) (i' : nat) :
  jsComment s i = (r, i') ->
  err r = None
  /\ (ok r = true ->
      i + 2 <= i' /\ i' <= length s /\ value r = slice s i i'
      /\ isCommentText (value r))
  /\ (ok r = false ->
      i' = i /\ ~ occursAt (lit "//") s i /\ ~ occursAt (lit "/*") s i).
Proof.
  unfold jsComment. simpl.
  destruct (jsSingleLineComment_eq s i)
    as [(H & j & -> & H1 & H2) | (H & ->)]; simpl.
  - intros E; injection E as <- <-; simpl.
    repeat split; auto; try discriminate.
    destruct (slice_starts (lit "//") s i j H H1) as [rest ->].
    exists rest. now left.
  - destruct (jsMultiLineComment_eq s i)
      as [(H' & j & -> & H1 & H2) | (H' & ->)]; simpl;
      intros E; injection E as <- <-; simpl.
    + repeat split; auto; try discriminate.
      destruct (slice_starts (lit "/*") s i j H' H1) as [rest ->].
      exists rest. now right.
    + repeat split; auto; discriminate.
Qed.

(** ** The scanning loop *)

(** *** A single-line comment up to its newline *)

Lemma occursAt_nth_error (m s : gostring) (i k : nat) :
  occursAt m s i -> k < length m -> nth_error s (i + k) = nth_error m k.
Proof.
  intros (pre & post & -> & <-) Hk.
  rewrite nth_error_app2 by lia.
  replace (length pre + k - length pre) with k by lia.
  now rewrite nth_error_app1.
Qed.

Lemma occursAt_prefix (m rest s : gostring) (i : nat) :
  occursAt (m ++ rest) s i -> occursAt m s i.
Proof.
  intros (pre & post & -> & <-). exists pre, (rest ++ post).
  now rewrite <- app_assoc.
Qed.

Lemma occursAt_two (a b : ascii) (s : gostring) (j : nat) :
  occursAt [a; b] s j ->
  nth_error s j = Some a /\ nth_error s (j + 1) = Some b.
Proof.
  intros H. split.
  - pose proof (occursAt_nth_error _ _ _ 0 H) as H0.
    rewrite Nat.add_0_r in H0. apply H0. simpl. lia.
  - apply (occursAt_nth_error _ _ _ 1 H). simpl. lia.
Qed.

(** Where the end of a single-line comment matches, and how far it takes
    the cursor: past a newline, or nowhere at the end of the text. *)
Lemma endOfSingleLineComment_cases (s : gostring) (j : nat)
    (r : Result gostring) (j' : nat) :
  jsEndOfSingleLineComment s j = (r, j') -> ok r = true -> j <= length s ->
  (nth_error s j = Some LF /\ j' = j + 1)
  \/ (nth_error s j = Some CR /\ nth_error s (j + 1) = Some LF /\ j' = j + 2)
  \/ (j = length s /\ j' = j).
Proof.
  unfold jsEndOfSingleLineComment, StringFrom, sequence, Or, NewLine.
  simpl.
  destruct (occursAt_dec [CR; LF] s j) as [H2 | H2].
  - rewrite (String_occurs _ _ _ H2). simpl.
    intros E _ _. injection E as _ <-.
    right; left. destruct (occursAt_two _ _ _ _ H2). auto.
  - rewrite (String_not_occurs _ _ _ H2). simpl.
    destruct (occursAt_dec [LF] s j) as [H1 | H1].
    + rewrite (String_occurs _ _ _ H1). simpl.
      intros E _ _. injection E as _ <-.
      left. split; [now apply occursAt_nth | reflexivity].
    + rewrite (String_not_occurs _ _ _ H1). simpl.
      rewrite EOF_inv. simpl.
      destruct (length s <=? j) eqn:Hl; simpl.
      * intros E _ Hj. injection E as _ <-. apply Nat.leb_le in Hl.
        right; right. split; lia.
      * intros E O. injection E as <- _. discriminate.
Qed.

Lemma endOfSingleLineComment_at_newline (s : gostring) (j : nat) :
  nth_error s j = Some LF -> matchesAt jsEndOfSingleLineComment s j = true.
Proof.
  intros H.
  unfold matchesAt, jsEndOfSingleLineComment, StringFrom, sequence, Or,
    NewLine.
  simpl.
  assert (H2 : ~ occursAt [CR; LF] s j).
  { intros H2. apply occursAt_two in H2. destruct H2 as [H2 _].
    rewrite H in H2. discriminate. }
  rewrite (String_not_occurs _ _ _ H2). simpl.
  apply occursAt_nth in H. now rewrite (String_occurs _ _ _ H).
Qed.

(** A comment [//body] that a newline ends is matched whole, newline
    included, whatever [body] holds. *)
Lemma jsSingleLineComment_line (s body : gostring) (i : nat) :
  ~ In LF body ->
  occursAt (lit "//" ++ body ++ [LF]) s i ->
  jsSingleLineComment s i
  = (mkResult (lit "//" ++ body ++ [LF]) true None, i + 2 + length body + 1).
Proof.
  intros Hbody Hocc.
  set (L := i + 2 + length body).
  assert (Hnth : forall k, k < length body ->
                           nth_error s (i + 2 + k) = nth_error body k).
  { intros k Hk. replace (i + 2 + k) with (i + (2 + k)) by lia.
    rewrite (occursAt_nth_error _ _ _ _ Hocc)
      by (simpl; rewrite length_app; simpl; lia).
    simpl. now rewrite nth_error_app1. }
  assert (HL : nth_error s L = Some LF).
  { unfold L. replace (i + 2 + length body) with (i + (2 + length body)) by lia.
    rewrite (occursAt_nth_error _ _ _ _ Hocc)
      by (simpl; rewrite length_app; simpl; lia).
    simpl. now rewrite nth_error_app2, Nat.sub_diag. }
  assert (Hlen : L < length s) by (apply nth_error_Some; congruence).
  assert (Hno : forall k, i + 2 <= k -> k < L -> nth_error s k <> Some LF).
  { intros k H1 H2 Hk. replace k with (i + 2 + (k - (i + 2))) in Hk by lia.
    rewrite Hnth in Hk by (unfold L in H2; lia).
    apply nth_error_In in Hk. contradiction. }
  unfold jsSingleLineComment, jsStartSingleLineComment.
  rewrite (StringFrom_first_ok _ _ _ _ (occursAt_prefix (lit "//") _ _ _ Hocc)).
  simpl.
  destruct (StringUntil jsEndOfSingleLineComment s (i + 2)) as [ru j] eqn:Eu.
  destruct (StringUntil_inv _ _ _ _ _ wb_endOfSingleLineComment Eu)
    as (He & Hyes & Hnot); [lia|].
  rewrite (isErr_None _ He).
  destruct (ok ru) eqn:Ou.
  - destruct (Hyes eq_refl) as (H1 & H2 & _ & Hm & Hfirst). simpl.
    assert (HjL : j <= L).
    { destruct (Nat.le_gt_cases j L) as [|Hgt]; [assumption|].
      pose proof (endOfSingleLineComment_at_newline s L HL) as Hc.
      rewrite (Hfirst L) in Hc; [discriminate | unfold L; lia | lia]. }
    unfold matchesAt in Hm.
    destruct (jsEndOfSingleLineComment s j) as [rd j'] eqn:Ed.
    simpl in Hm.
    destruct (wb_endOfSingleLineComment _ _ _ _ Ed H2) as (Hed & _ & _).
    rewrite (isErr_None _ Hed), Hm. simpl.
    assert (Hj' : j' = L + 1).
    { destruct (endOfSingleLineComment_cases s j rd j' Ed Hm H2)
        as [[Hc ->] | [(Hc & Hc' & ->) | [-> _]]].
      - destruct (Nat.eq_dec j L) as [-> | Hne]; [reflexivity|].
        exfalso. apply (Hno j); auto. lia.
      - assert (j <> L) by (intros ->; rewrite HL in Hc; discriminate).
        destruct (Nat.eq_dec (j + 1) L) as [E | Hne]; [lia|].
        exfalso. apply (Hno (j + 1)); auto; lia.
      - lia. }
    subst j'. apply slice_occurs in Hocc. destruct Hocc as [Hs _].
    assert (Hv : slice s i (L + 1) = lit "//" ++ body ++ [LF]).
    { rewrite <- Hs. f_equal. unfold L. simpl. rewrite length_app. simpl. lia. }
    rewrite Hv. reflexivity.
  - destruct (Hnot eq_refl) as [_ Hall].
    pose proof (endOfSingleLineComment_at_newline s L HL) as Hc.
    rewrite (Hall L) in Hc; [discriminate | unfold L; lia | lia].
Qed.

Section ScannerProperties.

Variable goCodeInJavaScript : Parser GoCode.
Variable hexDigits : Parser gostring.

Local Abbreviation oneRound := (loopBody goCodeInJavaScript hexDigits).
Local Abbreviation rounds := (scan goCodeInJavaScript hexDigits).
Local Abbreviation passes := (reachable goCodeInJavaScript hexDigits).
Local Abbreviation endTag := (lit "</script>").

Lemma loopBody_end_tag (s : gostring) (st : scanner) :
  occursAt endTag s (cursor st) ->
  oneRound s st = Break (moveTo st (cursor st + 9)).
Proof.
  intros H. unfold loopBody, jsEndTag.
  rewrite (String_occurs _ _ _ H). reflexivity.
Qed.

(** What a round that continues the loop did. *)
Lemma loopBody_Continue (s : gostring) (st st' : scanner) :
  oneRound s st = Continue st' ->
  ~ occursAt endTag s (cursor st)
  /\ exists rGo i2,
       goCodeInJavaScript s (cursor st) = (rGo, i2) /\ err rGo = None
       /\ ((ok rGo = true
            /\ st' = appendEntry st
                       (NewScriptContentsGo (value rGo)
                          (negb (streq (stringLiteralDelimiter st)
                                       jsQuoteNone)))
                       i2)
           \/ (ok rGo = false
               /\ exists rC i3,
                    jsComment s i2 = (rC, i3)
                    /\ ((ok rC = true
                         /\ st' = appendEntry st
                                    (NewScriptContentsScriptCode (value rC))
                                    i3)
                        \/ (ok rC = false
                            /\ exists rCh i4,
                                 jsCharacterWith hexDigits s i2 = (rCh, i4)
                                 /\ ok rCh = true
                                 /\ st' = readUnit st (value rCh) i4)))).
Proof.
  unfold loopBody, jsEndTag.
  destruct (occursAt_dec endTag s (cursor st)) as [H | H].
  { rewrite (String_occurs _ _ _ H). discriminate. }
  rewrite (String_not_occurs _ _ _ H). simpl.
  intros E. split; [assumption|].
  destruct (goCodeInJavaScript s (cursor st)) as [rGo i2].
  exists rGo, i2. split; [reflexivity|].
  destruct (err rGo) as [e|]; [discriminate|]. split; [reflexivity|].
  destruct (ok rGo).
  { left. split; [reflexivity|]. now injection E as <-. }
  right. split; [reflexivity|].
  destruct (jsComment s i2) as [rC i3] eqn:EC.
  exists rC, i3. split; [reflexivity|].
  destruct (jsComment_inv _ _ _ _ EC) as (HeC & _ & HnoC).
  rewrite HeC in E.
  destruct (ok rC).
  { left. split; [reflexivity|]. now injection E as <-. }
  right. split; [reflexivity|].
  destruct (HnoC eq_refl) as (-> & _).
  unfold jsCharacter in E.
  destruct (jsCharacterWith hexDigits s i2) as [rCh i4] eqn:ECh.
  exists rCh, i4. split; [reflexivity|].
  destruct (jsCharacter_inv _ _ _ _ _ ECh) as (HeCh & _ & _).
  rewrite HeCh in E.
  destruct (ok rCh); simpl in E.
  - split; [reflexivity|]. now injection E as <-.
  - rewrite EOF_inv in E. simpl in E.
    destruct (length s <=? i4); discriminate.
Qed.

(** What a round that leaves the loop by [break] did: it found the end
    tag, or it found nothing to read at the end of the text. *)
Lemma loopBody_Break (s : gostring) (st st' : scanner) :
  oneRound s st = Break st' ->
  (occursAt endTag s (cursor st) /\ st' = moveTo st (cursor st + 9))
  \/ (~ occursAt endTag s (cursor st)
      /\ exists rGo i2,
           goCodeInJavaScript s (cursor st) = (rGo, i2)
           /\ err rGo = None /\ ok rGo = false
           /\ length s <= i2 /\ st' = moveTo st i2).
Proof.
  unfold loopBody, jsEndTag.
  destruct (occursAt_dec endTag s (cursor st)) as [H | H].
  { rewrite (String_occurs _ _ _ H). simpl.
    intros E. left. split; [assumption|]. now injection E as <-. }
  rewrite (String_not_occurs _ _ _ H). simpl.
  intros E. right. split; [assumption|].
  destruct (goCodeInJavaScript s (cursor st)) as [rGo i2].
  exists rGo, i2. split; [reflexivity|].
  destruct (err rGo) as [e|]; [discriminate|]. split; [reflexivity|].
  destruct (ok rGo); [discriminate|]. split; [reflexivity|].
  destruct (jsComment s i2) as [rC i3] eqn:EC.
  destruct (jsComment_inv _ _ _ _ EC) as (HeC & _ & HnoC).
  rewrite HeC in E.
  destruct (ok rC); [discriminate|].
  destruct (HnoC eq_refl) as (-> & _).
  unfold jsCharacter in E.
  destruct (jsCharacterWith hexDigits s i2) as [rCh i4] eqn:ECh.
  destruct (jsCharacter_inv _ _ _ _ _ ECh) as (HeCh & _ & HnoCh).
  rewrite HeCh in E.
  destruct (ok rCh); simpl in E; [discriminate|].
  destruct (HnoCh eq_refl) as (-> & Hlen).
  rewrite EOF_inv in E. simpl in E.
  apply Nat.leb_le in Hlen. rewrite Hlen in E.
  apply Nat.leb_le in Hlen. split; [assumption|]. now injection E as <-.
Qed.

(** A round returns from inside the loop only with an error of the
    expression parser; the error of the character step is never
    raised. *)
Lemma loopBody_Return (s : gostring) (st : scanner)
    (r : Result (option ScriptElement)) (i : nat) :
  oneRound s st = Return r i ->
  exists rGo e,
    goCodeInJavaScript s (cursor st) = (rGo, i)
    /\ err rGo = Some e /\ r = mkResult None false (Some e).
Proof.
  unfold loopBody, jsEndTag.
  destruct (occursAt_dec endTag s (cursor st)) as [H | H].
  { rewrite (String_occurs _ _ _ H). discriminate. }
  rewrite (String_not_occurs _ _ _ H). simpl.
  intros E.
  destruct (goCodeInJavaScript s (cursor st)) as [rGo i2].
  destruct (err rGo) as [e|] eqn:He.
  { exists rGo, e. injection E as <- <-. auto. }
  destruct (ok rGo); [discriminate|].
  destruct (jsComment s i2) as [rC i3] eqn:EC.
  destruct (jsComment_inv _ _ _ _ EC) as (HeC & _ & HnoC).
  rewrite HeC in E.
  destruct (ok rC); [discriminate|].
  destruct (HnoC eq_refl) as (-> & _).
  unfold jsCharacter in E.
  destruct (jsCharacterWith hexDigits s i2) as [rCh i4] eqn:ECh.
  destruct (jsCharacter_inv _ _ _ _ _ ECh) as (HeCh & _ & HnoCh).
  rewrite HeCh in E.
  destruct (ok rCh); simpl in E; [discriminate|].
  destruct (HnoCh eq_refl) as (-> & Hlen).
  rewrite EOF_inv in E. simpl in E.
  apply Nat.leb_le in Hlen. rewrite Hlen in E. discriminate.
Qed.


Lemma rounds_more_fuel (s : gostring) (n m : nat) (st : scanner)
    (x : loopExit) :
  rounds n s st = Some x -> n <= m -> rounds m s st = Some x.
Proof.
  revert m st. induction n as [|n IH]; intros m st E Hm; [discriminate|].
  destruct m as [|m]; [lia|]. simpl in *.
  destruct (oneRound s st); auto. apply IH; [assumption | lia].
Qed.

(** The loop, run from a state that it passes through, ends as the loop
    run from the start does. *)
Lemma rounds_from_passes (s : gostring) (st0 st : scanner) :
  passes s st0 st ->
  forall n x, rounds n s st = Some x ->
              exists m, n <= m /\ rounds m s st0 = Some x.
Proof.
  induction 1 as [|st st' Hreach IH Hstep]; intros n x E.
  - exists n. split; [lia | assumption].
  - destruct (IH (S n) x) as (m & Hm & Em).
    + simpl. now rewrite Hstep.
    + exists m. split; [lia | assumption].
Qed.

(** The loop ends in a state that it passed through. *)
Lemma rounds_end (s : gostring) (n : nat) (st0 : scanner) (x : loopExit) :
  rounds n s st0 = Some x ->
  exists st, passes s st0 st
             /\ match x with
                | Broke st' => oneRound s st = Break st'
                | Returned r i => oneRound s st = Return r i
                end.
Proof.
  revert st0. induction n as [|n IH]; intros st0 E; [discriminate|].
  simpl in E. destruct (oneRound s st0) as [st1 | st1 | r i] eqn:Hstep.
  - destruct (IH _ E) as (st & Hreach & Hend). exists st. split; [|assumption].
    clear - Hreach Hstep.
    induction Hreach as [|a b Hab IHab Hb].
    + eapply reach_round; [apply reach_start | eassumption].
    + eapply reach_round; eassumption.
  - injection E as <-. exists st0. split; [apply reach_start | assumption].
  - injection E as <-. exists st0. split; [apply reach_start | assumption].
Qed.

(** C1: the end-tag check comes first in every round and does not read the
    string or regex state.  Whenever the loop starts a round at a byte
    where [</script>] stands, whatever [stringLiteralDelimiter] and
    [inRegex] are, the round breaks the loop with the cursor after the
    tag, and the element that is returned ends there: its contents are
    what was scanned before that byte. *)
Theorem end_tag_check_unconditional (s : gostring) (i5 : nat) (st : scanner) :
  passes s (scanStart i5) st ->
  occursAt endTag s (cursor st) ->
  oneRound s st = Break (moveTo st (cursor st + 9))
  /\ exists fuel, forall more start attrs,
       parseJavaScript goCodeInJavaScript hexDigits (fuel + more) start
                       attrs s i5
       = Some (mkResult
                 (Some (mkScriptElement attrs (contents (flush st))
                          (NewRange start (PositionAt s (cursor st + 9)))))
                 true None,
               cursor st + 9).
Proof.
  intros Hreach Hocc.
  pose proof (loopBody_end_tag s st Hocc) as Hstep.
  split; [assumption|].
  destruct (rounds_from_passes s _ _ Hreach 1
              (Broke (moveTo st (cursor st + 9)))) as (m & _ & Em).
  { simpl. now rewrite Hstep. }
  exists m. intros more start attrs. unfold parseJavaScript.
  rewrite (rounds_more_fuel s m (m + more) _ _ Em) by lia.
  unfold flush, moveTo. simpl. now destruct (0 <? length (sb st)).
Qed.

(** *** The string and regex state *)

Lemma regexAfter_exclusive (st : scanner) (c : gostring) :
  exclusive st -> regexAfter st c = true ->
  stringLiteralDelimiter st = jsQuoteNone.
Proof.
  unfold exclusive, regexAfter. intros Hst.
  destruct (streq (stringLiteralDelimiter st) jsQuoteNone) eqn:E.
  - intros _. now apply streq_eq.
  - assumption.
Qed.

Lemma readUnit_exclusive (st : scanner) (c : gostring) (i : nat) :
  exclusive st -> exclusive (readUnit st c i).
Proof.
  intros Hst. unfold exclusive, readUnit. simpl. intros Hre.
  unfold delimiterAfter. rewrite Hre. simpl.
  now apply regexAfter_exclusive with (c := c).
Qed.

Lemma round_exclusive (s : gostring) (st st' : scanner) :
  oneRound s st = Continue st' -> exclusive st -> exclusive st'.
Proof.
  intros Hstep Hst.
  destruct (loopBody_Continue s st st' Hstep)
    as (_ & rGo & i2 & _ & _ & [[_ ->] | (_ & rC & i3 & _ &
          [[_ ->] | (_ & rCh & i4 & _ & _ & ->)])]).
  - exact Hst.
  - exact Hst.
  - now apply readUnit_exclusive.
Qed.

Lemma passes_exclusive (s : gostring) (i0 : nat) (st : scanner) :
  passes s (scanStart i0) st -> exclusive st.
Proof.
  induction 1 as [|st st' _ IH Hstep].
  - unfold exclusive. discriminate.
  - now apply (round_exclusive s st st').
Qed.

(** C10: in no state that the loop passes through is [inRegex] true while
    [stringLiteralDelimiter] is not [jsQuoteNone]; the same holds between
    the two updates of a round, when [inRegex] has its new value and
    [stringLiteralDelimiter] still the old one. *)
Theorem regex_and_string_exclusive (s : gostring) (i0 : nat) (st : scanner) :
  passes s (scanStart i0) st ->
  ~ (inRegex st = true /\ stringLiteralDelimiter st <> jsQuoteNone)
  /\ forall c,
       ~ (regexAfter st c = true /\ stringLiteralDelimiter st <> jsQuoteNone).
Proof.
  intros Hreach. pose proof (passes_exclusive s i0 st Hreach) as Hst.
  split.
  - intros [Hre Hq]. apply Hq. now apply Hst.
  - intros c [Hre Hq]. apply Hq. now apply regexAfter_exclusive with (c := c).
Qed.

(** *** Expression entries *)

(** C8 (every round): the entries that a round appends to [Contents]
    extend it at its end, and an expression entry among them holds the
    node that the expression parser returned at the cursor of that round
    and, as its flag, whether [stringLiteralDelimiter] was other than
    [jsQuoteNone] when the round began. *)
Theorem expression_entry_flag (s : gostring) (st st' : scanner) :
  oneRound s st = Continue st' ->
  exists added,
    contents st' = contents st ++ added
    /\ forall entry code,
         In entry added -> GoCodeOf entry = Some code ->
         entry = NewScriptContentsGo code
                   (negb (streq (stringLiteralDelimiter st) jsQuoteNone))
         /\ exists rGo,
              goCodeInJavaScript s (cursor st) = (rGo, cursor st')
              /\ err rGo = None /\ ok rGo = true /\ value rGo = code.
Proof.
  intros Hstep.
  assert (Hflush : exists pending,
             contents (flush st) = contents st ++ pending
             /\ forall entry, In entry pending -> GoCodeOf entry = None).
  { unfold flush. destruct (0 <? length (sb st)); simpl.
    - exists [NewScriptContentsScriptCode (sb st)]. split; [reflexivity|].
      now intros entry [<- | []].
    - exists []. split; [now rewrite app_nil_r | now intros entry []]. }
  destruct Hflush as (pending & Hp & Hnone).
  destruct (loopBody_Continue s st st' Hstep)
    as (_ & rGo & i2 & EGo & HeGo & [[OGo ->] | (_ & rC & i3 & _ &
          [[_ ->] | (_ & rCh & i4 & _ & _ & ->)])]); simpl.
  - exists (pending ++ [NewScriptContentsGo (value rGo)
              (negb (streq (stringLiteralDelimiter st) jsQuoteNone))]).
    rewrite Hp, app_assoc. split; [reflexivity|].
    intros entry code Hin Hcode. apply in_app_or in Hin.
    destruct Hin as [Hin | [<- | []]].
    + rewrite (Hnone _ Hin) in Hcode. discriminate.
    + simpl in Hcode. injection Hcode as <-. split; [reflexivity|].
      now exists rGo.
  - exists (pending ++ [NewScriptContentsScriptCode (value rC)]).
    rewrite Hp, app_assoc. split; [reflexivity|].
    intros entry code Hin Hcode. apply in_app_or in Hin.
    destruct Hin as [Hin | [<- | []]].
    + rewrite (Hnone _ Hin) in Hcode. discriminate.
    + discriminate.
  - exists []. split; [now rewrite app_nil_r | now intros entry code []].
Qed.

(** *** Comments *)

(** C7: a single-line comment is read as one unit.  When a round starts
    at [//body] followed by a newline, whatever [body] holds -- the text
    [</script>] included -- and the expression parser does not match
    there, the round does not end the loop: the comment with its newline
    becomes an entry of its own, after the pending text if there is some,
    and the next round starts after the newline, so that no round starts,
    and no end tag is looked for, inside the comment. *)
Theorem comment_is_one_unit (s body : gostring) (st : scanner)
    (rGo : Result GoCode) :
  ~ In LF body ->
  occursAt (lit "//" ++ body ++ [LF]) s (cursor st) ->
  goCodeInJavaScript s (cursor st) = (rGo, cursor st) ->
  err rGo = None -> ok rGo = false ->
  oneRound s st
  = Continue (appendEntry st
                (NewScriptContentsScriptCode (lit "//" ++ body ++ [LF]))
                (cursor st + 2 + length body + 1)).
Proof.
  intros Hbody Hocc EGo HeGo OGo.
  assert (Hend : ~ occursAt endTag s (cursor st)).
  { intros H.
    assert (H1 : nth_error s (cursor st + 0) = Some "/"%char)
      by (rewrite (occursAt_nth_error _ _ _ 0 Hocc); simpl; auto; lia).
    assert (H2 : nth_error s (cursor st + 0) = Some "<"%char)
      by (rewrite (occursAt_nth_error _ _ _ 0 H); simpl; auto; lia).
    rewrite H1 in H2. discriminate. }
  unfold loopBody, jsEndTag.
  rewrite (String_not_occurs _ _ _ Hend). simpl.
  rewrite EGo, HeGo, OGo.
  unfold jsComment. simpl.
  rewrite (jsSingleLineComment_line s body (cursor st) Hbody Hocc).
  reflexivity.
Qed.

(** *** Adjacent entries of script text *)

Lemma merged_snoc (l : list ScriptContents) (x : ScriptContents) :
  merged l ->
  (forall pre a, l = pre ++ [a] -> pairMerged a x) ->
  merged (l ++ [x]).
Proof.
  induction l as [|a [|b l] IH]; intros Hm Hlast.
  - exact I.
  - simpl. split; [|exact I]. now apply (Hlast []).
  - destruct Hm as [Hab Hm]. split; [assumption|].
    apply IH; [assumption|].
    intros pre c E. apply (Hlast (a :: pre)). simpl. now rewrite E.
Qed.

Lemma merged_adjacent (l pre post : list ScriptContents)
    (a b : ScriptContents) :
  merged l -> l = pre ++ a :: b :: post -> pairMerged a b.
Proof.
  revert l. induction pre as [|p pre IH]; intros l Hm ->.
  - now destruct Hm.
  - apply (IH (pre ++ a :: b :: post)); [|reflexivity].
    simpl in Hm. destruct (pre ++ a :: b :: post) eqn:E.
    + now destruct pre.
    + now destruct Hm.
Qed.

Lemma flush_merged (st : scanner) :
  merged (contents st) -> lastNotPending (contents st) ->
  merged (contents (flush st)).
Proof.
  intros Hm Hl. unfold flush. destruct (0 <? length (sb st)); [|assumption].
  simpl. apply merged_snoc; [assumption|].
  intros pre a E ta tb Ha _. left. now apply (Hl pre a E).
Qed.

Lemma appendEntry_merged (st : scanner) (c : ScriptContents) (i : nat) :
  merged (contents st) -> lastNotPending (contents st) ->
  notPendingText c ->
  merged (contents (appendEntry st c i))
  /\ lastNotPending (contents (appendEntry st c i)).
Proof.
  intros Hm Hl Hc. simpl. split.
  - apply merged_snoc; [now apply flush_merged|].
    intros pre a _ ta tb _ Hb. right. now apply Hc.
  - intros pre a E. apply app_inj_tail in E. now destruct E as [_ <-].
Qed.

Lemma round_merged (s : gostring) (st st' : scanner) :
  oneRound s st = Continue st' ->
  merged (contents st) /\ lastNotPending (contents st) ->
  merged (contents st') /\ lastNotPending (contents st').
Proof.
  intros Hstep [Hm Hl].
  destruct (loopBody_Continue s st st' Hstep)
    as (_ & rGo & i2 & _ & _ & [[_ ->] | (_ & rC & i3 & EC &
          [[OC ->] | (_ & rCh & i4 & _ & _ & ->)])]).
  - apply appendEntry_merged; auto. intros t Ht. discriminate.
  - apply appendEntry_merged; auto. intros t Ht. injection Ht as <-.
    destruct (jsComment_inv _ _ _ _ EC) as (_ & Hok & _).
    now apply Hok.
  - now split.
Qed.

Lemma passes_merged (s : gostring) (i5 : nat) (st : scanner) :
  passes s (scanStart i5) st ->
  merged (contents st) /\ lastNotPending (contents st).
Proof.
  induction 1 as [|st st' _ IH Hstep].
  - split; [exact I|]. intros pre a E. now destruct pre.
  - now apply (round_merged s st st').
Qed.

(** When the loop ends by [break], the contents with the last flush have
    no two neighbours of script text without a comment among them. *)
Lemma rounds_merged (s : gostring) (fuel i5 : nat) (st : scanner) :
  rounds fuel s (scanStart i5) = Some (Broke st) ->
  merged (contents (flush st)).
Proof.
  intros E. destruct (rounds_end s _ _ _ E) as (st1 & Hreach & Hbreak).
  destruct (passes_merged s i5 st1 Hreach) as [Hm Hl].
  assert (Hc : contents st = contents st1 /\ sb st = sb st1).
  { destruct (loopBody_Break s st1 st Hbreak)
      as [[_ ->] | (_ & rGo & i2 & _ & _ & _ & _ & ->)]; now split. }
  destruct Hc as [Hc Hs]. apply flush_merged; now rewrite Hc.
Qed.

(** *** Progress of the loop *)

Local Abbreviation disciplined :=
  (expressionsDisciplined goCodeInJavaScript).

(** A round that continues the loop moves the cursor forward, inside the
    text. *)
Lemma round_progress (s : gostring) (st st' : scanner) :
  disciplined s -> cursor st <= length s ->
  oneRound s st = Continue st' ->
  cursor st < cursor st' /\ cursor st' <= length s.
Proof.
  intros Hgo Hc Hstep.
  destruct (loopBody_Continue s st st' Hstep)
    as (_ & rGo & i2 & EGo & HeGo & Hcases).
  destruct (Hgo _ _ _ EGo Hc HeGo) as [Hno Hok].
  destruct Hcases as [[OGo ->] | (OGo & rC & i3 & EC &
          [[OC ->] | (OC & rCh & i4 & ECh & OCh & ->)])]; simpl.
  - now apply Hok.
  - rewrite (Hno OGo) in EC.
    destruct (jsComment_inv _ _ _ _ EC) as (_ & HokC & _).
    destruct (HokC OC) as (H1 & H2 & _). lia.
  - rewrite (Hno OGo) in ECh.
    destruct (jsCharacter_inv _ _ _ _ _ ECh) as (_ & HokCh & _).
    destruct (HokCh OCh) as (H1 & H2 & _). lia.
Qed.

Lemma passes_cursor (s : gostring) (st0 st : scanner) :
  disciplined s -> cursor st0 <= length s -> passes s st0 st ->
  cursor st0 <= cursor st /\ cursor st <= length s.
Proof.
  intros Hgo H0. induction 1 as [|st st' _ IH Hstep]; [lia|].
  destruct IH as [H1 H2].
  destruct (round_progress s st st' Hgo H2 Hstep). lia.
Qed.

(** The loop ends: with the expression parser disciplined, more rounds
    than bytes are left is fuel enough. *)
Lemma rounds_terminate (s : gostring) :
  disciplined s ->
  forall fuel st, cursor st <= length s -> length s - cursor st < fuel ->
                  exists x, rounds fuel s st = Some x.
Proof.
  intros Hgo. induction fuel as [|fuel IH]; intros st Hc Hf; [lia|].
  simpl. destruct (oneRound s st) as [st' | st' | r i] eqn:Hstep.
  - destruct (round_progress s st st' Hgo Hc Hstep) as [H1 H2].
    apply IH; lia.
  - now exists (Broke st').
  - now exists (Returned r i).
Qed.

(** *** The text that the entries hold *)

Lemma serialize_app (source : GoCode -> gostring)
    (a b : list ScriptContents) :
  serialize source (a ++ b) = serialize source a ++ serialize source b.
Proof. unfold serialize. now rewrite map_app, concat_app. Qed.

Lemma flush_sb (st : scanner) : sb (flush st) = [].
Proof.
  unfold flush. destruct (0 <? length (sb st)) eqn:E; [reflexivity|].
  apply Nat.ltb_ge in E. destruct (sb st); [reflexivity | simpl in E; lia].
Qed.

Lemma flush_serialize (source : GoCode -> gostring) (st : scanner) :
  serialize source (contents (flush st))
  = serialize source (contents st) ++ sb st.
Proof.
  unfold flush. destruct (0 <? length (sb st)) eqn:E; simpl.
  - rewrite serialize_app. unfold serialize. simpl. now rewrite app_nil_r.
  - apply Nat.ltb_ge in E. destruct (sb st); [|simpl in E; lia].
    now rewrite app_nil_r.
Qed.

Lemma appendEntry_holdsText (source : GoCode -> gostring) (s : gostring)
    (i5 : nat) (st : scanner) (c : ScriptContents) (i : nat) :
  holdsText source s i5 st ->
  cursor st <= i -> i <= length s ->
  serializeEntry source c = slice s (cursor st) i ->
  holdsText source s i5 (appendEntry st c i).
Proof.
  intros (H1 & H2 & H3) Hi Hl Hc. unfold holdsText. simpl.
  repeat split; [lia | lia |].
  rewrite flush_sb, app_nil_r, serialize_app, flush_serialize, H3.
  unfold serialize at 1. simpl. rewrite app_nil_r, Hc.
  apply slice_app; lia.
Qed.

Lemma round_holdsText (source : GoCode -> gostring) (s : gostring)
    (i5 : nat) (st st' : scanner) :
  disciplined s -> rendersSource goCodeInJavaScript source s ->
  oneRound s st = Continue st' ->
  holdsText source s i5 st -> holdsText source s i5 st'.
Proof.
  intros Hgo Hsrc Hstep Hst.
  pose proof Hst as (H1 & H2 & H3).
  destruct (loopBody_Continue s st st' Hstep)
    as (_ & rGo & i2 & EGo & HeGo & Hcases).
  destruct (Hgo _ _ _ EGo H2 HeGo) as [Hno Hok].
  destruct Hcases as [[OGo ->] | (OGo & rC & i3 & EC &
          [[OC ->] | (OC & rCh & i4 & ECh & OCh & ->)])].
  - destruct (Hok OGo). apply appendEntry_holdsText; auto; [lia|].
    unfold serializeEntry. simpl. now apply Hsrc.
  - rewrite (Hno OGo) in EC.
    destruct (jsComment_inv _ _ _ _ EC) as (_ & HokC & _).
    destruct (HokC OC) as (Ha & Hb & Hv & _).
    apply appendEntry_holdsText; auto; lia.
  - rewrite (Hno OGo) in ECh.
    destruct (jsCharacter_inv _ _ _ _ _ ECh) as (_ & HokCh & _).
    destruct (HokCh OCh) as (Ha & Hb & Hv).
    unfold holdsText. simpl. repeat split; [lia | lia |].
    rewrite app_assoc, H3, Hv. apply slice_app; lia.
Qed.

Lemma passes_holdsText (source : GoCode -> gostring) (s : gostring)
    (i5 : nat) (st : scanner) :
  disciplined s -> rendersSource goCodeInJavaScript source s ->
  i5 <= length s ->
  passes s (scanStart i5) st -> holdsText source s i5 st.
Proof.
  intros Hgo Hsrc Hi. induction 1 as [|st st' _ IH Hstep].
  - unfold holdsText. simpl. rewrite slice_same. repeat split; auto.
  - now apply (round_holdsText source s i5 st st').
Qed.

(** How the loop ends by [break]: at an end tag, or at the end of the
    text; the entries, with the last flush, are the text from [i5] to
    that place. *)
Lemma rounds_round_trip (source : GoCode -> gostring) (s : gostring)
    (fuel i5 : nat) (st : scanner) :
  disciplined s -> rendersSource goCodeInJavaScript source s ->
  i5 <= length s ->
  rounds fuel s (scanStart i5) = Some (Broke st) ->
  exists stop,
    i5 <= stop
    /\ serialize source (contents (flush st)) = slice s i5 stop
    /\ ((occursAt endTag s stop /\ cursor st = stop + 9)
        \/ (stop = length s /\ cursor st = stop)).
Proof.
  intros Hgo Hsrc Hi E.
  destruct (rounds_end s _ _ _ E) as (st1 & Hreach & Hbreak).
  destruct (passes_holdsText source s i5 st1 Hgo Hsrc Hi Hreach)
    as (H1 & H2 & H3).
  exists (cursor st1). split; [assumption|].
  destruct (loopBody_Break s st1 st Hbreak)
    as [[Hocc ->] | (_ & rGo & i2 & EGo & HeGo & OGo & Hlen & ->)].
  - split; [|left; now split].
    now rewrite flush_serialize.
  - destruct (Hgo _ _ _ EGo H2 HeGo) as [Hno _]. rewrite (Hno OGo) in *.
    split; [|right; simpl; lia].
    now rewrite flush_serialize.
Qed.

(** The loop on a text with no end tag after [i5]: it ends, at the end of
    the text or with an error of the expression parser. *)
Lemma rounds_unterminated (s : gostring) (fuel i5 : nat) :
  disciplined s -> i5 <= length s -> length s - i5 < fuel ->
  (forall k, i5 <= k -> ~ occursAt endTag s k) ->
  (exists st, passes s (scanStart i5) st /\ cursor st = length s
              /\ rounds fuel s (scanStart i5) = Some (Broke st))
  \/ (exists st e i rGo,
        passes s (scanStart i5) st
        /\ rounds fuel s (scanStart i5)
           = Some (Returned (mkResult None false (Some e)) i)
        /\ goCodeInJavaScript s (cursor st) = (rGo, i) /\ err rGo = Some e).
Proof.
  intros Hgo Hi Hf Hnone.
  destruct (rounds_terminate s Hgo fuel (scanStart i5) Hi Hf) as [x E].
  destruct (rounds_end s _ _ _ E) as (st1 & Hreach & Hend).
  destruct (passes_cursor s (scanStart i5) st1 Hgo Hi Hreach) as [H1 H2].
  simpl in H1.
  destruct x as [st | r i].
  - left. exists st1.
    destruct (loopBody_Break s st1 st Hend)
      as [[Hocc _] | (_ & rGo & i2 & EGo & HeGo & OGo & Hlen & ->)].
    + now apply Hnone in Hocc.
    + destruct (Hgo _ _ _ EGo H2 HeGo) as [Hno _]. rewrite (Hno OGo) in *.
      assert (Hc : cursor st1 = length s) by lia.
      split; [assumption|]. split; [assumption|].
      rewrite E. unfold moveTo. now destruct st1.
  - right.
    destruct (loopBody_Return s st1 r i Hend) as (rGo & e & EGo & He & ->).
    exists st1, e, i, rGo. auto.
Qed.

End ScannerProperties.

(** ** [scriptElementParser.Parse] *)

Section ParseProperties.

Variable EqualFold : gostring -> gostring -> bool.
Variable elementNameParser : Parser gostring.
Variable attributesParser : Parser (list Attribute).
Variable goCodeInJavaScript : Parser GoCode.
Variable hexDigits : Parser gostring.

Local Abbreviation parseScript :=
  (Parse EqualFold elementNameParser attributesParser goCodeInJavaScript
         hexDigits).
Local Abbreviation accepted :=
  (tagAccepted elementNameParser attributesParser).
Local Abbreviation refused :=
  (tagRefused elementNameParser attributesParser).
Local Abbreviation javaScript :=
  (parseJavaScript goCodeInJavaScript hexDigits).
Local Abbreviation endTag := (lit "</script>").

Lemma Rune_err (c : ascii) (s : gostring) (i : nat) :
  isErr (fst (Rune c s i)) = false.
Proof.
  destruct (Rune c s i) as [r i'] eqn:E. apply RuneWhere_inv in E.
  simpl. apply isErr_None. apply E.
Qed.

Lemma Rune_ok (c : ascii) (s : gostring) (i : nat) (r : Result gostring)
    (i' : nat) :
  Rune c s i = (r, i') -> ok r = true -> i' = i + 1 /\ i' <= length s.
Proof.
  intros E O. apply RuneWhere_inv in E. destruct E as (_ & Hok & _).
  destruct (Hok O) as (x & Hx & _ & _ & ->). split; [reflexivity|].
  assert (i < length s) by (apply nth_error_Some; congruence). lia.
Qed.


(** After the opening tag, [Parse] is the parser of the contents. *)
Lemma Parse_accepted (fuel : nat) (s : gostring) (i0 : nat)
    (attrs : list Attribute) (i5 : nat) :
  accepted s i0 attrs i5 ->
  parseScript fuel s i0
  = if negb (hasJavaScriptType EqualFold attrs)
    then Some (parseRawText attrs s i5)
    else javaScript fuel (PositionAt s i0) attrs s i5.
Proof.
  intros (rLt & i1 & rName & i2 & rAttrs & i3 & rSpace & i4 & rGt
          & ELt & OLt & EName & HeName & OName & VName
          & EAttrs & HeAttrs & OAttrs & VAttrs & ESpace & EGt & OGt).
  unfold Parse.
  pose proof (Rune_err "<"%char s i0) as HLt. fold lt in HLt.
  rewrite ELt in *. cbn [fst] in HLt. rewrite HLt, OLt. cbn [negb orb].
  rewrite EName, (isErr_None _ HeName), OName, VName, streq_refl.
  cbn [negb orb].
  rewrite EAttrs, (isErr_None _ HeAttrs), OAttrs. cbn [negb orb].
  rewrite ESpace.
  assert (HeSpace : isErr rSpace = false).
  { unfold OptionalWhitespace in ESpace. now injection ESpace as <- _. }
  rewrite HeSpace.
  pose proof (Rune_err ">"%char s i4) as HGt. fold gt in HGt.
  rewrite EGt in *. cbn [fst] in HGt. rewrite HGt, OGt. cbn [negb orb].
  now rewrite VAttrs.
Qed.

(** [Parse] returns an element only after the opening tag. *)
Lemma Parse_element (fuel : nat) (s : gostring) (i0 : nat)
    (r : Result (option ScriptElement)) (i' : nat) (e : ScriptElement) :
  parseScript fuel s i0 = Some (r, i') -> value r = Some e ->
  exists attrs i5, accepted s i0 attrs i5.
Proof.
  unfold Parse. intros E V.
  destruct (lt s i0) as [rLt i1] eqn:ELt.
  destruct (isErr rLt || negb (ok rLt)) eqn:CLt.
  { injection E as <- _. discriminate. }
  apply orb_false_elim in CLt. destruct CLt as [_ OLt].
  apply negb_false_iff in OLt.
  destruct (elementNameParser s i1) as [rName i2] eqn:EName.
  destruct (isErr rName || negb (ok rName)) eqn:CName.
  { injection E as <- _. discriminate. }
  apply orb_false_elim in CName. destruct CName as [HeName OName].
  apply negb_false_iff in OName. apply isErr_false in HeName.
  destruct (streq (value rName) (lit "script")) eqn:VName; cbn [negb] in E.
  2:{ injection E as <- _. discriminate. }
  apply streq_eq in VName.
  destruct (attributesParser s i2) as [rAttrs i3] eqn:EAttrs.
  destruct (isErr rAttrs || negb (ok rAttrs)) eqn:CAttrs.
  { injection E as <- _. discriminate. }
  apply orb_false_elim in CAttrs. destruct CAttrs as [HeAttrs OAttrs].
  apply negb_false_iff in OAttrs. apply isErr_false in HeAttrs.
  destruct (OptionalWhitespace s i3) as [rSpace i4] eqn:ESpace.
  destruct (isErr rSpace).
  { injection E as <- _. discriminate. }
  destruct (gt s i4) as [rGt i5] eqn:EGt.
  destruct (isErr rGt || negb (ok rGt)) eqn:CGt.
  { injection E as <- _. discriminate. }
  apply orb_false_elim in CGt. destruct CGt as [_ OGt].
  apply negb_false_iff in OGt.
  exists (value rAttrs), i5.
  exists rLt, i1, rName, i2, rAttrs, i3, rSpace, i4, rGt.
  repeat split; assumption.
Qed.

Lemma accepted_inside (s : gostring) (i0 : nat) (attrs : list Attribute)
    (i5 : nat) :
  accepted s i0 attrs i5 -> 0 < i5 /\ i5 <= length s.
Proof.
  intros (rLt & i1 & rName & i2 & rAttrs & i3 & rSpace & i4 & rGt
          & _ & _ & _ & _ & _ & _ & _ & _ & _ & _ & _ & EGt & OGt).
  destruct (Rune_ok _ _ _ _ _ EGt OGt). lia.
Qed.


(** C3 (as the code has it): in the contents of an element that [Parse]
    returns, two neighbours that are both script text always include the
    text of a comment, which begins with [//] or [/*].  Text read
    character by character is flushed as one entry between two other
    entries; a comment is an entry of its own and may stand next to
    script text or to another comment. *)
Theorem adjacent_literals_hold_a_comment (fuel : nat) (s : gostring)
    (i0 : nat) (e : ScriptElement) (i' : nat) :
  parseScript fuel s i0 = Some (mkResult (Some e) true None, i') ->
  forall pre a b post ta tb,
    Contents e = pre ++ a :: b :: post ->
    Value a = Some ta -> Value b = Some tb ->
    isCommentText ta \/ isCommentText tb.
Proof.
  intros E pre a b post ta tb Hc Ha Hb.
  destruct (Parse_element fuel s i0 _ _ e E eq_refl) as (attrs & i5 & Hacc).
  rewrite (Parse_accepted fuel s i0 attrs i5 Hacc) in E.
  destruct (negb (hasJavaScriptType EqualFold attrs)).
  - unfold parseRawText in E.
    destruct (StringUntil jsEndTag s i5) as [rText i6].
    destruct (isErr rText || negb (ok rText)); [discriminate|].
    destruct (jsEndTag s i6) as [rEnd i7].
    injection E as <- _. simpl in Hc.
    destruct pre as [|p [|q pre]]; discriminate.
  - unfold parseJavaScript in E.
    destruct (scan goCodeInJavaScript hexDigits fuel s (scanStart i5))
      as [[st | r i]|] eqn:Es; [| |discriminate].
    + injection E as <- _. simpl in Hc.
      pose proof (rounds_merged _ _ s fuel i5 st Es) as Hm.
      exact (merged_adjacent _ pre post a b Hm Hc ta tb Ha Hb).
    + injection E as -> _.
      destruct (rounds_end _ _ s _ _ _ Es) as (st1 & _ & Hret).
      destruct (loopBody_Return _ _ s st1 _ _ Hret) as (rGo & e' & _ & _ & H).
      discriminate.
Qed.

(** C4 (as the code has it): for a JavaScript script that [Parse] returns,
    with an expression parser that keeps the discipline of the cursor and
    whose nodes render back to their source text, the entries of the
    contents, serialised in order, are exactly the text that the scanner
    consumed after the [>] of the opening tag: the text up to the end tag
    at which the loop stopped or, when the loop met no end tag at the
    start of a round, up to the end of the input. *)
Theorem contents_round_trip (source : GoCode -> gostring) (fuel : nat)
    (s : gostring) (i0 : nat) (e : ScriptElement) (iEnd : nat) :
  expressionsDisciplined goCodeInJavaScript s ->
  rendersSource goCodeInJavaScript source s ->
  parseScript fuel s i0 = Some (mkResult (Some e) true None, iEnd) ->
  hasJavaScriptType EqualFold (Attributes e) = true ->
  exists i5 stop,
    accepted s i0 (Attributes e) i5
    /\ i5 <= stop
    /\ serialize source (Contents e) = slice s i5 stop
    /\ ((occursAt endTag s stop /\ iEnd = stop + 9)
        \/ (stop = length s /\ iEnd = stop)).
Proof.
  intros Hgo Hsrc E Hjs.
  destruct (Parse_element fuel s i0 _ _ e E eq_refl) as (attrs & i5 & Hacc).
  rewrite (Parse_accepted fuel s i0 attrs i5 Hacc) in E.
  destruct (accepted_inside s i0 attrs i5 Hacc) as [_ Hi5].
  destruct (hasJavaScriptType EqualFold attrs) eqn:Hattrs; cbn [negb] in E.
  - unfold parseJavaScript in E.
    destruct (scan goCodeInJavaScript hexDigits fuel s (scanStart i5))
      as [[st | r i]|] eqn:Es; [| |discriminate].
    + injection E as <- <-. cbn [Attributes Contents] in *.
      destruct (rounds_round_trip _ _ source s fuel i5 st Hgo Hsrc Hi5 Es)
        as (stop & H1 & H2 & H3).
      exists i5, stop. repeat split; auto.
      destruct H3 as [[Ho Hc] | [Hl Hc]]; [left | right]; split; auto;
        unfold flush; destruct (0 <? length (sb st)); simpl; assumption.
    + injection E as -> _.
      destruct (rounds_end _ _ s _ _ _ Es) as (st1 & _ & Hret).
      destruct (loopBody_Return _ _ s st1 _ _ Hret) as (rGo & e' & _ & _ & H).
      discriminate.
  - unfold parseRawText in E.
    destruct (StringUntil jsEndTag s i5) as [rText i6].
    destruct (isErr rText || negb (ok rText)); [discriminate|].
    destruct (jsEndTag s i6) as [rEnd i7].
    injection E as <- _. simpl in Hjs. congruence.
Qed.

(** C2 (as the code has it): when the opening tag is recognised and no
    [</script>] stands anywhere after it, a script that is not JavaScript
    gives the error "expected end tag not present", which carries the
    position after the opening tag -- together with [ok = true] and the
    element, which holds the attributes and no contents.  A JavaScript
    script, with an expression parser that keeps the discipline of the
    cursor, is scanned to the end of the input and returned as a success:
    the element holds the attributes, the contents that the loop has
    collected when its cursor is at the end of the input, the text of [sb]
    flushed as the last entry, and the range from the [<] to the end of
    the input, where the cursor is left -- unless the expression parser
    reports an error in a round of the loop, which is then returned with
    no element. *)
Theorem unterminated_script (fuel : nat) (s : gostring) (i0 : nat)
    (attrs : list Attribute) (i5 : nat) :
  expressionsDisciplined goCodeInJavaScript s ->
  accepted s i0 attrs i5 ->
  (forall k, i5 <= k -> ~ occursAt endTag s k) ->
  length s - i5 < fuel ->
  if hasJavaScriptType EqualFold attrs
  then (exists st,
          reachable goCodeInJavaScript hexDigits s (scanStart i5) st
          /\ cursor st = length s
          /\ parseScript fuel s i0
             = Some (mkResult
                       (Some (mkScriptElement attrs (contents (flush st))
                                (NewRange (PositionAt s i0)
                                          (PositionAt s (length s)))))
                       true None,
                     length s))
       \/ (exists st err i rGo,
             reachable goCodeInJavaScript hexDigits s (scanStart i5) st
             /\ parseScript fuel s i0
                = Some (mkResult None false (Some err), i)
             /\ goCodeInJavaScript s (cursor st) = (rGo, i)
             /\ parse.err rGo = Some err)
  else parseScript fuel s i0
       = Some (mkResult (Some (mkScriptElement attrs [] zeroRange)) true
                 (Some (Error "<script>: expected end tag not present"
                              (PositionAt s i5))),
               i5).
Proof.
  intros Hgo Hacc Hnone Hfuel.
  rewrite (Parse_accepted fuel s i0 attrs i5 Hacc).
  destruct (accepted_inside s i0 attrs i5 Hacc) as [_ Hi5].
  destruct (hasJavaScriptType EqualFold attrs); cbn [negb].
  - unfold parseJavaScript.
    destruct (rounds_unterminated goCodeInJavaScript hexDigits s fuel i5
                Hgo Hi5 Hfuel Hnone)
      as [(st & Hreach & Hc & ->) | (st & err & i & rGo & Hreach & -> & EGo
                                     & He)].
    + left. exists st. split; [assumption|]. split; [assumption|].
      assert (Hf : cursor (flush st) = length s).
      { unfold flush. now destruct (0 <? length (sb st)). }
      now rewrite Hf.
    + right. now exists st, err, i, rGo.
  - unfold parseRawText.
    destruct (StringUntil jsEndTag s i5) as [rText i6] eqn:Eu.
    destruct (StringUntil_inv _ _ _ _ _ (wb_String endTag) Eu Hi5)
      as (He & Hyes & Hno).
    rewrite (isErr_None _ He).
    destruct (ok rText) eqn:O.
    + destruct (Hyes eq_refl) as (H1 & _ & _ & Hm & _).
      unfold matchesAt, jsEndTag in Hm.
      destruct (parse.String endTag s i6) as [rd j'] eqn:Ed.
      apply String_inv in Ed. destruct Ed as (_ & Hok & _).
      destruct (Hok Hm) as [Hocc _]. now apply Hnone in Hocc.
    + destruct (Hno eq_refl) as [-> _]. reflexivity.
Qed.

(** X2, raw-text mode: when the opening tag is recognised, the attributes do
    not give a JavaScript type, and the first [</script>] after the tag
    stands at byte [stop], [Parse] returns one entry that holds the text
    between the tag and [stop] as it is, and leaves the cursor after the end
    tag.  The range of the element is not set on this path. *)
Theorem raw_text_is_one_literal (fuel : nat) (s : gostring) (i0 : nat)
    (attrs : list Attribute) (i5 stop : nat) :
  accepted s i0 attrs i5 ->
  hasJavaScriptType EqualFold attrs = false ->
  i5 <= stop -> occursAt endTag s stop ->
  (forall k, i5 <= k -> k < stop -> ~ occursAt endTag s k) ->
  parseScript fuel s i0
  = Some (mkResult
            (Some (mkScriptElement attrs
                     [NewScriptContentsScriptCode (slice s i5 stop)]
                     zeroRange))
            true None,
          stop + 9).
Proof.
  intros Hacc Hraw Hstop Hocc Hfirst.
  rewrite (Parse_accepted fuel s i0 attrs i5 Hacc), Hraw. cbn [negb].
  destruct (accepted_inside s i0 attrs i5 Hacc) as [_ Hi5].
  assert (Hat : matchesAt (parse.String endTag) s stop = true).
  { unfold matchesAt. now rewrite (String_occurs _ _ _ Hocc). }
  unfold parseRawText.
  destruct (StringUntil jsEndTag s i5) as [rText i6] eqn:Eu.
  destruct (StringUntil_inv _ _ _ _ _ (wb_String endTag) Eu Hi5)
    as (He & Hyes & Hno).
  rewrite (isErr_None _ He).
  pose proof (occursAt_room _ _ _ Hocc) as Hroom. simpl in Hroom.
  destruct (ok rText) eqn:O; cbn [negb orb].
  - destruct (Hyes eq_refl) as (H1 & H2 & Hv & Hm & Hbefore).
    assert (i6 = stop) as ->.
    { destruct (Nat.lt_trichotomy i6 stop) as [Hlt | [-> | Hgt]].
      - exfalso. apply (Hfirst i6 H1 Hlt).
        unfold matchesAt, jsEndTag in Hm.
        destruct (parse.String endTag s i6) as [rd j'] eqn:Ed.
        apply String_inv in Ed. destruct Ed as (_ & Hok & _).
        now apply Hok.
      - reflexivity.
      - rewrite (Hbefore stop Hstop Hgt) in Hat. discriminate. }
    unfold jsEndTag. rewrite (String_occurs _ _ _ Hocc), Hv. reflexivity.
  - destruct (Hno eq_refl) as [_ Hall].
    rewrite (Hall stop Hstop) in Hat; [discriminate | lia].
Qed.

(** X3: [Parse] returns.  With an expression parser that keeps the
    discipline of the cursor, more rounds of fuel than the text has bytes
    always end the scanning loop. *)
Theorem Parse_returns (fuel : nat) (s : gostring) (i0 : nat) :
  expressionsDisciplined goCodeInJavaScript s ->
  length s < fuel ->
  exists r i, parseScript fuel s i0 = Some (r, i).
Proof.
  intros Hgo Hfuel. unfold Parse.
  destruct (lt s i0) as [rLt i1].
  destruct (isErr rLt || negb (ok rLt)); [eauto|].
  destruct (elementNameParser s i1) as [rName i2].
  destruct (isErr rName || negb (ok rName)); [eauto|].
  destruct (negb (streq (value rName) (lit "script"))); [eauto|].
  destruct (attributesParser s i2) as [rAttrs i3].
  destruct (isErr rAttrs || negb (ok rAttrs)); [eauto|].
  destruct (OptionalWhitespace s i3) as [rSpace i4].
  destruct (isErr rSpace); [eauto|].
  destruct (gt s i4) as [rGt i5] eqn:EGt.
  destruct (isErr rGt || negb (ok rGt)) eqn:CGt; [eauto|].
  apply orb_false_elim in CGt. destruct CGt as [_ OGt].
  apply negb_false_iff in OGt.
  destruct (Rune_ok _ _ _ _ _ EGt OGt) as [_ Hi5].
  destruct (negb (hasJavaScriptType EqualFold (value rAttrs))).
  - destruct (parseRawText (value rAttrs) s i5) as [r i]. eauto.
  - unfold parseJavaScript.
    destruct (rounds_terminate goCodeInJavaScript hexDigits s Hgo fuel
                (scanStart i5) Hi5) as [[st | r i] ->]; [simpl; lia | |];
      eauto.
Qed.

End ParseProperties.

(** ** The instance of the surrounding grammar *)

Lemma Model_disciplined (s : gostring) :
  expressionsDisciplined Model.goCodeInJavaScript s.
Proof.
  intros i r i' E Hi He. unfold Model.goCodeInJavaScript in E.
  cbv zeta in E.
  destruct (parse.String (lit "{{") s i) as [ro i1] eqn:Eo.
  apply String_inv in Eo. destruct Eo as (_ & Hok & _).
  destruct (ok ro) eqn:Oo; cbv beta iota delta [negb] in E.
  2:{ injection E as <- <-. split; [reflexivity | discriminate]. }
  destruct (Hok eq_refl) as (Hocc & -> & _).
  change (length (lit "{{")) with 2 in E.
  apply occursAt_room in Hocc. simpl in Hocc.
  destruct (OptionalWhitespace s (i + 2)) as [rw i2] eqn:Ew.
  destruct (wb_OptionalWhitespace _ _ _ _ Ew Hocc) as (_ & _ & Hw).
  assert (Ow : ok rw = true).
  { unfold OptionalWhitespace in Ew. now injection Ew as <- _. }
  destruct (Hw Ow) as [H1 H2].
  destruct (StringUntil (parse.String (lit "}}")) s i2) as [rt i3] eqn:Et.
  destruct (StringUntil_inv _ _ _ _ _ (wb_String (lit "}}")) Et H2)
    as (_ & Hyes & _).
  destruct (ok rt) eqn:Ot; cbv beta iota delta [negb] in E.
  2:{ injection E as <- _. discriminate. }
  injection E as <- <-. split; [discriminate|]. intros _.
  destruct (Hyes eq_refl) as (H3 & _ & _ & Hm & _).
  unfold matchesAt in Hm.
  destruct (parse.String (lit "}}") s i3) as [rc i4] eqn:Ec.
  apply String_inv in Ec. destruct Ec as (_ & Hc & _).
  destruct (Hc Hm) as (Hocc' & _). apply occursAt_room in Hocc'.
  simpl in Hocc'. lia.
Qed.

Ltac accept_tag :=
  unfold Model.accepted, tagAccepted;
  do 9 eexists; repeat (split; [reflexivity|]); reflexivity.

(** [Hocc] says that a text stands in a concrete text at byte [k]: refuted
    by trying each [k] up to the end of the text. *)
Ltac try_each_place k Hocc :=
  first [ lia
        | destruct k as [|k];
          [ first [lia | vm_compute in Hocc; discriminate]
          | try_each_place k Hocc ] ].

Ltac nowhere k Hocc :=
  let Hroom := fresh "Hroom" in
  apply slice_occurs in Hocc; destruct Hocc as [Hocc Hroom];
  vm_compute length in Hroom;
  try_each_place k Hocc.

(** [E] is a run of a parser on a concrete text from the cursor [i], which
    [Hi] keeps inside the text: the goal is proved for each [i] by
    running the parser. *)
Ltac try_each_cursor i E :=
  first [ lia
        | destruct i as [|i];
          [ vm_compute in E; inversion E; subst;
            first [discriminate | reflexivity]
          | try_each_cursor i E ] ].


(** [quotedEndTag]: the loop starts its second round inside the string, at
    the inner [</script>], with a double quote as [stringLiteralDelimiter];
    the round breaks the loop, and the element that [Parse] returns ends
    there, with the opening quote as its only content. *)
Lemma end_tag_inside_string :
  stringLiteralDelimiter Examples.insideString = jsQuoteDouble
  /\ Model.round Examples.quotedEndTag (scanStart 8)
     = Continue Examples.insideString
  /\ Model.round Examples.quotedEndTag Examples.insideString
     = Break (moveTo Examples.insideString 18)
  /\ Model.ParseWith 3 Examples.quotedEndTag 0
     = Some (mkResult
               (Some (mkScriptElement []
                        [NewScriptContentsScriptCode [DQUOTE]]
                        (NewRange (mkPosition 0 0 0) (mkPosition 18 0 18))))
               true None,
             18).
Proof.
  assert (Hstep : Model.round Examples.quotedEndTag (scanStart 8)
                  = Continue Examples.insideString) by reflexivity.
  assert (Hreach : reachable Model.goCodeInJavaScript Model.hexDigits
                     Examples.quotedEndTag (scanStart 8)
                     Examples.insideString).
  { eapply reach_round; [apply reach_start | exact Hstep]. }
  assert (Hocc : occursAt (lit "</script>") Examples.quotedEndTag
                          (cursor Examples.insideString)).
  { exists (lit "<script>" ++ [DQUOTE]), ([DQUOTE] ++ lit "</script>").
    split; reflexivity. }
  destruct (end_tag_check_unconditional Model.goCodeInJavaScript
              Model.hexDigits Examples.quotedEndTag 8 Examples.insideString
              Hreach Hocc) as [Hbreak _].
  split; [reflexivity|]. split; [exact Hstep|]. split; [exact Hbreak|].
  vm_compute. reflexivity.
Defined.


(** [quotedEndTag], inside the string: a string is open and [inRegex] is
    false, and no lexical unit read in that state sets it. *)
Lemma exclusive_inside_string :
  ~ (inRegex Examples.insideString = true
     /\ stringLiteralDelimiter Examples.insideString <> jsQuoteNone)
  /\ forall c,
       ~ (regexAfter Examples.insideString c = true
          /\ stringLiteralDelimiter Examples.insideString <> jsQuoteNone).
Proof.
  apply (regex_and_string_exclusive Model.goCodeInJavaScript Model.hexDigits
           Examples.quotedEndTag 8 Examples.insideString).
  eapply reach_round; [apply reach_start | reflexivity].
Defined.

(** [commentThenCode]: the first round reads the whole comment line, the
    text [</script>] in it included, as one entry, and the element ends at
    the end tag after [real();]. *)
Lemma comment_line_with_end_tag :
  Model.round Examples.commentThenCode (scanStart 8)
  = Continue (appendEntry (scanStart 8)
                (NewScriptContentsScriptCode (lit "// </script>" ++ [LF]))
                21)
  /\ Model.ParseWith 9 Examples.commentThenCode 0
     = Some (mkResult (Some Examples.commentThenCodeElement) true None, 37).
Proof.
  split.
  - apply (comment_is_one_unit Model.goCodeInJavaScript Model.hexDigits
             Examples.commentThenCode (lit " </script>") (scanStart 8)
             (fst (Model.goCodeInJavaScript Examples.commentThenCode 8))).
    + intros H. vm_compute in H. intuition discriminate.
    + exists (lit "<script>"), (lit "real();</script>"). split; reflexivity.
    + reflexivity.
    + reflexivity.
    + reflexivity.
  - vm_compute. reflexivity.
Defined.

(** [expression]: the contents are one expression entry, the node for
    [name], with the flag false; the round that appends it starts with no
    string open. *)
Lemma name_expression :
  Model.ParseWith 2 Examples.expression 0
  = Some (mkResult
            (Some (mkScriptElement []
                     [NewScriptContentsGo Examples.nameNode false]
                     (NewRange (mkPosition 0 0 0) (mkPosition 27 0 27))))
            true None,
          27)
  /\ exists added,
       [NewScriptContentsGo Examples.nameNode false] = [] ++ added
       /\ forall entry code,
            In entry added -> GoCodeOf entry = Some code ->
            entry = NewScriptContentsGo code false
            /\ exists rGo,
                 Model.goCodeInJavaScript Examples.expression 8 = (rGo, 18)
                 /\ err rGo = None /\ ok rGo = true /\ value rGo = code.
Proof.
  split; [vm_compute; reflexivity|].
  apply (expression_entry_flag Model.goCodeInJavaScript Model.hexDigits
           Examples.expression (scanStart 8)
           (mkScanner [NewScriptContentsGo Examples.nameNode false] []
                      jsQuoteNone false 18)).
  reflexivity.
Defined.

(** Against C3: the contents of [commentThenCode] are two entries of script
    text, one next to the other. *)
Lemma two_adjacent_literals :
  Model.ParseWith 9 Examples.commentThenCode 0
  = Some (mkResult (Some Examples.commentThenCodeElement) true None, 37)
  /\ Contents Examples.commentThenCodeElement
     = [NewScriptContentsScriptCode (lit "// </script>" ++ [LF]);
        NewScriptContentsScriptCode (lit "real();")].
Proof. split; [vm_compute; reflexivity | reflexivity]. Qed.

(** In [commentThenCode], the first of the two neighbours is a comment. *)
Lemma comment_next_to_text :
  isCommentText (lit "// </script>" ++ [LF]) \/ isCommentText (lit "real();").
Proof.
  apply (adjacent_literals_hold_a_comment Model.EqualFold
           Model.elementNameParser Model.attributesParser
           Model.goCodeInJavaScript Model.hexDigits
           9 Examples.commentThenCode 0 Examples.commentThenCodeElement 37
           ltac:(vm_compute; reflexivity) []
           (NewScriptContentsScriptCode (lit "// </script>" ++ [LF]))
           (NewScriptContentsScriptCode (lit "real();")) []);
    reflexivity.
Defined.

(** Against C2: [unterminatedJS] is returned as a success, with no error;
    [unterminatedJSON] gives an error together with [ok = true] and an
    element. *)
Lemma unterminated_runs :
  Model.ParseWith 11 Examples.unterminatedJS 0
  = Some (mkResult
            (Some (mkScriptElement []
                     [NewScriptContentsScriptCode (lit "var x = 1;")]
                     (NewRange (mkPosition 0 0 0) (mkPosition 18 0 18))))
            true None,
          18)
  /\ Model.ParseWith 0 Examples.unterminatedJSON 0
     = Some (mkResult
               (Some (mkScriptElement Examples.jsonType [] zeroRange))
               true
               (Some (Error "<script>: expected end tag not present"
                            (mkPosition 32 0 32))),
             32).
Proof. split; vm_compute; reflexivity. Qed.

(** [unterminated_script] on the two texts. *)
Lemma unterminated_script_runs :
  ((exists st,
      reachable Model.goCodeInJavaScript Model.hexDigits
                Examples.unterminatedJS (scanStart 8) st
      /\ cursor st = 18
      /\ Model.ParseWith 11 Examples.unterminatedJS 0
         = Some (mkResult
                   (Some (mkScriptElement [] (contents (flush st))
                            (NewRange (PositionAt Examples.unterminatedJS 0)
                                      (PositionAt Examples.unterminatedJS
                                                  18))))
                   true None,
                 18))
   \/ (exists st err i rGo,
         reachable Model.goCodeInJavaScript Model.hexDigits
                   Examples.unterminatedJS (scanStart 8) st
         /\ Model.ParseWith 11 Examples.unterminatedJS 0
            = Some (mkResult None false (Some err), i)
         /\ Model.goCodeInJavaScript Examples.unterminatedJS (cursor st)
            = (rGo, i)
         /\ parse.err rGo = Some err))
  /\ Model.ParseWith 3 Examples.unterminatedJSON 0
     = Some (mkResult
               (Some (mkScriptElement Examples.jsonType [] zeroRange))
               true
               (Some (Error "<script>: expected end tag not present"
                            (PositionAt Examples.unterminatedJSON 32))),
             32).
Proof.
  split.
  - apply (unterminated_script Model.EqualFold Model.elementNameParser
             Model.attributesParser Model.goCodeInJavaScript Model.hexDigits
             11 Examples.unterminatedJS 0 [] 8).
    + apply Model_disciplined.
    + accept_tag.
    + intros k Hk Hocc. nowhere k Hocc.
    + vm_compute. lia.
  - apply (unterminated_script Model.EqualFold Model.elementNameParser
             Model.attributesParser Model.goCodeInJavaScript Model.hexDigits
             3 Examples.unterminatedJSON 0 Examples.jsonType 32).
    + apply Model_disciplined.
    + accept_tag.
    + intros k Hk Hocc. nowhere k Hocc.
    + vm_compute. lia.
Defined.

(** Against C4: in [<script>// foo</script>] the text between the tags is
    [// foo]; the comment runs over the end tag to the end of the input,
    [Parse] returns a success, and the contents serialise to
    [// foo</script>]. *)
Lemma comment_swallows_end_tag :
  Examples.commentToTheEnd = lit "<script>" ++ lit "// foo" ++ lit "</script>"
  /\ Model.ParseWith 2 Examples.commentToTheEnd 0
     = Some (mkResult
               (Some (mkScriptElement []
                        [NewScriptContentsScriptCode (lit "// foo</script>")]
                        (NewRange (mkPosition 0 0 0) (mkPosition 23 0 23))))
               true None,
             23)
  /\ serialize Examples.spacedSource
       [NewScriptContentsScriptCode (lit "// foo</script>")]
     = lit "// foo</script>"
  /\ lit "// foo</script>" <> lit "// foo".
Proof.
  split; [reflexivity|]. split; [vm_compute; reflexivity|].
  split; [reflexivity | discriminate].
Qed.

Lemma spacedSource_renders :
  rendersSource Model.goCodeInJavaScript Examples.spacedSource
                Examples.textAndExpression.
Proof.
  intros i r i' E Hi He Ho. vm_compute length in Hi.
  try_each_cursor i E.
Qed.

(** [textAndExpression]: the three entries serialise to [a{{ name }}b], the
    text between the [>] at byte 7 and the end tag at byte 19. *)
Lemma text_and_expression_round_trip :
  exists i5 stop,
    Model.accepted Examples.textAndExpression 0 [] i5
    /\ i5 <= stop
    /\ serialize Examples.spacedSource
         (Contents Examples.textAndExpressionElement)
       = slice Examples.textAndExpression i5 stop
    /\ ((occursAt (lit "</script>") Examples.textAndExpression stop
         /\ 29 = stop + 9)
        \/ (stop = length Examples.textAndExpression /\ 29 = stop)).
Proof.
  apply (contents_round_trip Model.EqualFold Model.elementNameParser
           Model.attributesParser Model.goCodeInJavaScript Model.hexDigits
           Examples.spacedSource 4 Examples.textAndExpression 0
           Examples.textAndExpressionElement 29).
  - apply Model_disciplined.
  - apply spacedSource_renders.
  - vm_compute. reflexivity.
  - reflexivity.
Defined.

(** ** The cases of [TestScriptElementParser]

    The expected elements of the test table, with the instance of the
    grammar. *)

Example test_no_content : Examples.parsesTo (lit "<script></script>") [] 17.
Proof. vm_compute. reflexivity. Qed.

Example test_go_expression :
  Examples.parsesTo (lit "<script>{{ name }}</script>")
           [NewScriptContentsGo Examples.nameNode false] 27.
Proof. vm_compute. reflexivity. Qed.

Example test_regex_with_forward_slashes :
  let code :=
    lit "const clientIdMatch = evt.detail.message.match(/data-client-id="
        ++ [DQUOTE] ++ lit "([^" ++ [DQUOTE] ++ lit "]+)" ++ [DQUOTE]
        ++ lit "/);" in
  Examples.parsesTo (lit "<script>" ++ code ++ lit "</script>")
           [NewScriptContentsScriptCode code] 92.
Proof. vm_compute. reflexivity. Qed.

Example test_division_with_numbers :
  Examples.parsesTo (lit "<script>var x = 1 / 2;</script>")
           [NewScriptContentsScriptCode (lit "var x = 1 / 2;")] 31.
Proof. vm_compute. reflexivity. Qed.

Example test_division_with_identifiers :
  Examples.parsesTo (lit "<script>var z = x / y;</script>")
           [NewScriptContentsScriptCode (lit "var z = x / y;")] 31.
Proof. vm_compute. reflexivity. Qed.

(** [A] is read as the two bytes [\u], not as one escape of six
    bytes. *)
Lemma unicode_escape_is_two_bytes :
  jsCharacterWith Model.hexDigits ([BACKSLASH] ++ lit "u0041") 0
  = (mkResult ([BACKSLASH] ++ lit "u") true None, 2)
  /\ ((nth_error ([BACKSLASH] ++ lit "u0041") 0 = Some BACKSLASH /\ 2 = 0 + 2
       /\ [BACKSLASH] ++ lit "u" = slice ([BACKSLASH] ++ lit "u0041") 0 (0 + 2))
      \/ (2 = 0 + 1
          /\ [BACKSLASH] ++ lit "u" = slice ([BACKSLASH] ++ lit "u0041") 0 (0 + 1)
          /\ (nth_error ([BACKSLASH] ++ lit "u0041") 0 <> Some BACKSLASH
              \/ length ([BACKSLASH] ++ lit "u0041") = 0 + 1))).
Proof.
  split; [reflexivity|].
  apply (escapes_take_two_bytes Model.hexDigits ([BACKSLASH] ++ lit "u0041") 0
           (mkResult ([BACKSLASH] ++ lit "u") true None) 2); reflexivity.
Defined.

(** The raw-text case of the specification:
    [<script type="application/json">{"a": 1}</script>]. *)
Lemma json_is_one_literal :
  Model.ParseWith 0 Examples.jsonScript 0
  = Some (mkResult
            (Some (mkScriptElement Examples.jsonType
                     [NewScriptContentsScriptCode
                        (slice Examples.jsonScript 32 40)]
                     zeroRange))
            true None,
          40 + 9)
  /\ slice Examples.jsonScript 32 40
     = lit "{" ++ [DQUOTE] ++ lit "a" ++ [DQUOTE] ++ lit ": 1}".
Proof.
  split; [|reflexivity].
  apply (raw_text_is_one_literal Model.EqualFold Model.elementNameParser
           Model.attributesParser Model.goCodeInJavaScript Model.hexDigits
           0 Examples.jsonScript 0 Examples.jsonType 32 40).
  - accept_tag.
  - reflexivity.
  - lia.
  - exists (firstn 40 Examples.jsonScript), []. split; reflexivity.
  - intros k Hk Hlt Hocc. apply slice_occurs in Hocc.
    destruct Hocc as [Hocc _].
    do 32 (destruct k as [|k]; [lia|]).
    do 8 (destruct k as [|k]; [vm_compute in Hocc; discriminate|]).
    lia.
Defined.

(** [Parse] returns on [unterminatedJS]. *)
Lemma Parse_returns_on_unterminated :
  exists r i, Model.ParseWith 19 Examples.unterminatedJS 0 = Some (r, i).
Proof.
  apply (Parse_returns Model.EqualFold Model.elementNameParser
           Model.attributesParser Model.goCodeInJavaScript Model.hexDigits
           19 Examples.unterminatedJS 0).
  - apply Model_disciplined.
  - vm_compute. lia.
Defined.

(** * More properties

    ** [isStartOfRegex] *)

(** X4: blanks between the text and the slash do not change the answer of
    [isStartOfRegex]: spaces, tabs, carriage returns and newlines appended
    to the text that precedes are passed over. *)
Theorem isStartOfRegex_trailing_blanks (s ws : gostring) :
  Forall (fun c => In c blanks) ws ->
  isStartOfRegex (s ++ ws) = isStartOfRegex s.
Proof.
  intros Hws. unfold isStartOfRegex.
  now rewrite (TrimRight_app_blank s ws (lit " " ++ [TAB; CR; LF]) Hws).
Qed.

Lemma isStartOfRegex_trailing_blanks_run :
  isStartOfRegex (lit "x = " ++ [TAB; LF]) = isStartOfRegex (lit "x =").
Proof.
  apply (isStartOfRegex_trailing_blanks (lit "x =") (lit " " ++ [TAB; LF])).
  repeat (apply Forall_cons; [vm_compute; tauto|]). apply Forall_nil.
Defined.

Lemma indexChecked_inside (s : gostring) (i : nat) :
  i < length s -> indexChecked s (Z.of_nat i) = Some (byteAt s i).
Proof.
  intros Hi. unfold indexChecked, byteAt.
  destruct (Z.ltb_spec (Z.of_nat i) 0); [lia|].
  rewrite Znat.Nat2Z.id. now apply nth_error_nth'.
Qed.

Lemma len_eqb (a b : gostring) :
  (len a =? len b)%Z = (length a =? length b).
Proof.
  unfold len. destruct (Nat.eqb_spec (length a) (length b)) as [E | E].
  - rewrite E. apply Z.eqb_refl.
  - apply Z.eqb_neq. lia.
Qed.

Lemma keywordLoopChecked_eq (s : gostring) (kws : list gostring) :
  keywordLoopChecked s kws = Some (keywordLoop s kws).
Proof.
  induction kws as [|kw rest IH]; simpl; [reflexivity|].
  destruct (strings.HasSuffix s kw) eqn:Hs; [|assumption].
  rewrite len_eqb.
  destruct (Nat.eqb_spec (length s) (length kw)) as [E | E]; [reflexivity|].
  apply HasSuffix_spec in Hs. destruct Hs as [pre ->].
  rewrite length_app in E.
  assert (Hpre : 0 < length pre) by lia.
  replace (len (pre ++ kw) - len kw - 1)%Z
    with (Z.of_nat (length (pre ++ kw) - length kw - 1))
    by (unfold len; rewrite length_app; lia).
  rewrite indexChecked_inside by (rewrite length_app; lia).
  simpl.
  destruct (unicode.IsSpace
              (byteAt (pre ++ kw) (length (pre ++ kw) - length kw - 1)));
    [reflexivity | assumption].
Qed.

Lemma isStartOfRegexChecked_eq (s : gostring) :
  isStartOfRegexChecked s = Some (isStartOfRegex s).
Proof.
  unfold isStartOfRegexChecked, isStartOfRegex.
  set (t := strings.TrimRight s (lit " " ++ [TAB; CR; LF])).
  change 0%Z with (len []). rewrite len_eqb. simpl (length []).
  destruct (Nat.eqb_spec (length t) 0) as [E | E]; [reflexivity|].
  rewrite keywordLoopChecked_eq.
  destruct (keywordLoop t keywords); [reflexivity|].
  replace (len t - 1)%Z with (Z.of_nat (length t - 1))
    by (unfold len; lia).
  rewrite indexChecked_inside by lia. reflexivity.
Qed.

(** X5: no index expression of the file goes out of range.  For every
    text, the two index expressions of [isStartOfRegex] are evaluated only
    inside the text, and so is [sb.String()[sb.Len()-1]] in the loop of
    [Parse]: the checked functions never panic and give the values of the
    unchecked ones. *)
Theorem index_expressions_in_range :
  (forall s, isStartOfRegexChecked s = Some (isStartOfRegex s))
  /\ (forall st c, regexAfterChecked st c = Some (regexAfter st c)).
Proof.
  split; [exact isStartOfRegexChecked_eq|].
  intros st c. unfold regexAfterChecked, regexAfter.
  destruct (streq (stringLiteralDelimiter st) jsQuoteNone); [|reflexivity].
  destruct (inRegex st) eqn:Hre; cbn [negb andb].
  - destruct (streq c (lit "/")); [|reflexivity].
    destruct (sb st) as [|x text] eqn:Hsb; [reflexivity|].
    assert (Hpos : (len (x :: text) >? 0)%Z = true).
    { apply Z.gtb_lt. unfold len. simpl length. lia. }
    rewrite Hpos.
    replace (len (x :: text) - 1)%Z
      with (Z.of_nat (length (x :: text) - 1))
      by (unfold len; simpl length; lia).
    rewrite indexChecked_inside by (simpl; lia).
    change (0 <? length (x :: text)) with true. cbn [andb].
    now destruct (negb (Ascii.eqb (byteAt (x :: text)
                                     (length (x :: text) - 1)) BACKSLASH)).
  - destruct (streq c (lit "/")); [|reflexivity].
    rewrite isStartOfRegexChecked_eq.
    now destruct (isStartOfRegex (sb st)).
Qed.

Lemma keyword_last_letter (kw : gostring) :
  In kw keywords ->
  exists body l, kw = body ++ [l] /\ In l (lit "ndeofw").
Proof.
  intros H. exists (removelast kw), (last kw zero).
  unfold keywords in H. cbn [map In] in H.
  repeat (destruct H as [<- | H];
          [split; [reflexivity | vm_compute; tauto]|]).
  contradiction.
Qed.

(** X6: a slash is division after everything else.  When the last byte of
    the text, blanks at the end apart, is none of the eleven characters of
    the [switch] and none of the letters [n d e o f w], with which the
    twelve keywords end, [isStartOfRegex] is false: so after a digit, a
    closing bracket or parenthesis, a quote, and after a name that ends
    with another letter. *)
Theorem isStartOfRegex_division (s pre : gostring) (c : ascii) :
  strings.TrimRight s blanks = pre ++ [c] ->
  ~ In c regexPrecedingChars ->
  ~ In c (lit "ndeofw") ->
  isStartOfRegex s = false.
Proof.
  intros Ht Hpunct Hletter. unfold isStartOfRegex.
  change (lit " " ++ [TAB; CR; LF]) with blanks. rewrite Ht.
  assert (Hlen : (length (pre ++ [c]) =? 0) = false).
  { apply Nat.eqb_neq. rewrite length_app. simpl. lia. }
  rewrite Hlen.
  destruct (keywordLoop (pre ++ [c]) keywords) eqn:Hk.
  - exfalso. apply keywordLoop_spec in Hk.
    destruct Hk as (kw & Hin & pre' & E & _).
    destruct (keyword_last_letter kw Hin) as (body & l & -> & Hl).
    rewrite app_assoc in E. apply app_inj_tail in E.
    destruct E as [_ ->]. contradiction.
  - rewrite byteAt_last.
    destruct (byteIn c regexPrecedingChars) eqn:Hc; [|reflexivity].
    apply byteIn_In in Hc. contradiction.
Qed.

Lemma isStartOfRegex_after_parenthesis :
  isStartOfRegex (lit "f(x) ") = false.
Proof.
  apply (isStartOfRegex_division (lit "f(x) ") (lit "f(x") ")"%char).
  - reflexivity.
  - simpl. intuition discriminate.
  - simpl. intuition discriminate.
Defined.

(** ** Comments *)

Lemma endOfMultiLineComment_cases (s : gostring) (j : nat)
    (r : Result gostring) (j' : nat) :
  jsEndOfMultiLineComment s j = (r, j') -> ok r = true -> j <= length s ->
  (occursAt (lit "*/") s j /\ j' = j + 2) \/ (j = length s /\ j' = j).
Proof.
  unfold jsEndOfMultiLineComment, StringFrom, sequence, Or.
  destruct (occursAt_dec (lit "*/") s j) as [H | H].
  - rewrite (String_occurs _ _ _ H). simpl.
    intros E _ _. injection E as _ <-. now left.
  - rewrite (String_not_occurs _ _ _ H). simpl.
    rewrite EOF_inv. simpl.
    destruct (length s <=? j) eqn:Hl; simpl.
    + intros E _ Hj. injection E as _ <-. apply Nat.leb_le in Hl.
      right. split; lia.
    + intros E O. injection E as <- _. discriminate.
Qed.

Lemma endOfMultiLineComment_at_close (s : gostring) (j : nat) :
  occursAt (lit "*/") s j -> matchesAt jsEndOfMultiLineComment s j = true.
Proof.
  intros H.
  unfold matchesAt, jsEndOfMultiLineComment, StringFrom, sequence, Or.
  now rewrite (String_occurs _ _ _ H).
Qed.

(** The run of a delimited comment after its opening: the text up to the
    first place [j] where [d] matches, then [d], which stops at [j']. *)
Lemma until_first_match (d : Parser gostring) (s : gostring) (i : nat) :
  wellBehaved d -> i <= length s ->
  matchesAt d s (length s) = true ->
  exists ru j rd j',
    StringUntil d s i = (ru, j) /\ err ru = None /\ ok ru = true
    /\ i <= j /\ j <= length s
    /\ (forall k, i <= k -> k < j -> matchesAt d s k = false)
    /\ d s j = (rd, j') /\ err rd = None /\ ok rd = true.
Proof.
  intros Hd Hi Hend.
  destruct (StringUntil d s i) as [ru j] eqn:Eu.
  destruct (StringUntil_inv d s i ru j Hd Eu Hi) as (He & Hyes & Hno).
  destruct (ok ru) eqn:Ou.
  - destruct (Hyes eq_refl) as (H1 & H2 & _ & Hm & Hfirst).
    unfold matchesAt in Hm. destruct (d s j) as [rd j'] eqn:Ed.
    destruct (Hd _ _ _ _ Ed H2) as (Hed & _ & _). simpl in Hm.
    exists ru, j, rd, j'. repeat split; auto.
  - destruct (Hno eq_refl) as [_ Hall].
    rewrite (Hall (length s) Hi (le_n _)) in Hend. discriminate.
Qed.

(** A comment [/*body*/] is matched whole, with the white space that
    follows it. *)
Lemma jsMultiLineComment_closed (s body : gostring) (i : nat) :
  occursAt (lit "/*" ++ body ++ lit "*/") s i ->
  (forall k, k < length body -> ~ occursAt (lit "*/") s (i + 2 + k)) ->
  let close := i + 2 + length body + 2 in
  let stop := close + span unicode.IsSpace (skipn close s) in
  jsMultiLineComment s i = (mkResult (slice s i stop) true None, stop).
Proof.
  intros Hocc Hbody close stop.
  set (L := i + 2 + length body).
  assert (HL : occursAt (lit "*/") s L).
  { destruct Hocc as (pre & post & -> & <-).
    exists (pre ++ lit "/*" ++ body), post. split.
    - now rewrite <- !app_assoc.
    - unfold L. rewrite !length_app. simpl. lia. }
  pose proof (occursAt_room _ _ _ HL) as Hroom. simpl in Hroom.
  unfold jsMultiLineComment, jsStartMultiLineComment.
  rewrite (StringFrom_first_ok _ _ _ _ (occursAt_prefix (lit "/*") _ _ _ Hocc)).
  change (length (lit "/*")) with 2. cbn [sequence].
  destruct (until_first_match jsEndOfMultiLineComment s (i + 2)
              wb_endOfMultiLineComment)
    as (ru & j & rd & j' & -> & Heu & Ou & H1 & H2 & Hfirst & Ed & Hed & Od).
  { unfold L in Hroom. simpl. lia. }
  { apply (orEOF_at_end (parse.String (lit "*/")) s (wb_String _)). }
  rewrite (isErr_None _ Heu), Ou. cbn [negb].
  rewrite Ed, (isErr_None _ Hed), Od. cbn [negb].
  assert (Hj : j = L /\ j' = close).
  { assert (HjL : j <= L).
    { destruct (Nat.le_gt_cases j L) as [|Hgt]; [assumption|].
      pose proof (endOfMultiLineComment_at_close s L HL) as Hc.
      rewrite (Hfirst L) in Hc; [discriminate | unfold L; lia | lia]. }
    destruct (endOfMultiLineComment_cases s j rd j' Ed Od H2)
      as [[Hc ->] | [-> _]]; [|lia].
    destruct (Nat.eq_dec j L) as [-> | Hne];
      [split; [reflexivity | unfold close, L; lia]|].
    exfalso. apply (Hbody (j - (i + 2))); [unfold L in *; lia|].
    now replace (i + 2 + (j - (i + 2))) with j by lia. }
  destruct Hj as [-> ->].
  unfold OptionalWhitespace. cbn [isErr err ok negb]. reflexivity.
Qed.

Lemma no_newline_no_crlf (s : gostring) (j : nat) :
  nth_error s (j + 1) <> Some LF -> ~ occursAt [CR; LF] s j.
Proof.
  intros H Hocc. apply occursAt_two in Hocc. now destruct Hocc.
Qed.

(** X7: a comment that nothing closes runs to the end of the input.  A
    [//] with no newline after it, and a [/*] with no [*/] after it, match
    as comments that hold all the rest of the text, whatever it is, and
    leave the cursor at the end. *)
Theorem comment_runs_to_end (s : gostring) (i : nat) :
  (occursAt (lit "//") s i
   /\ forall k, i + 2 <= k -> nth_error s k <> Some LF)
  \/ (occursAt (lit "/*") s i
      /\ forall k, i + 2 <= k -> ~ occursAt (lit "*/") s k) ->
  jsComment s i = (mkResult (slice s i (length s)) true None, length s).
Proof.
  intros [[Hocc Hnone] | [Hocc Hnone]];
    pose proof (occursAt_room _ _ _ Hocc) as Hroom; simpl in Hroom;
    unfold jsComment; cbn [Any].
  - unfold jsSingleLineComment, jsStartSingleLineComment.
    rewrite (StringFrom_first_ok _ _ _ _ Hocc).
    change (length (lit "//")) with 2. cbn [sequence].
    destruct (until_first_match jsEndOfSingleLineComment s (i + 2)
                wb_endOfSingleLineComment Hroom
                (orEOF_at_end NewLine s wb_NewLine))
      as (ru & j & rd & j' & -> & Heu & Ou & H1 & H2 & _ & Ed & Hed & Od).
    rewrite (isErr_None _ Heu), Ou. cbn [negb].
    rewrite Ed, (isErr_None _ Hed), Od. cbn [negb].
    destruct (endOfSingleLineComment_cases s j rd j' Ed Od H2)
      as [[Hc _] | [(_ & Hc & _) | [-> ->]]].
    + now apply Hnone in Hc.
    + apply Hnone in Hc; [contradiction | lia].
    + reflexivity.
  - assert (Hsingle : ~ occursAt (lit "//") s i).
    { intros H. apply occursAt_two in H. apply occursAt_two in Hocc.
      destruct H as [_ H], Hocc as [_ Hocc]. rewrite H in Hocc.
      discriminate. }
    unfold jsSingleLineComment at 1, jsStartSingleLineComment.
    rewrite (StringFrom_first_fails _ _ _ _ Hsingle). cbn [isErr err ok orb].
    unfold jsMultiLineComment, jsStartMultiLineComment.
    rewrite (StringFrom_first_ok _ _ _ _ Hocc).
    change (length (lit "/*")) with 2. cbn [sequence].
    destruct (until_first_match jsEndOfMultiLineComment s (i + 2)
                wb_endOfMultiLineComment Hroom
                (orEOF_at_end (parse.String (lit "*/")) s (wb_String _)))
      as (ru & j & rd & j' & -> & Heu & Ou & H1 & H2 & _ & Ed & Hed & Od).
    rewrite (isErr_None _ Heu), Ou. cbn [negb].
    rewrite Ed, (isErr_None _ Hed), Od. cbn [negb].
    destruct (endOfMultiLineComment_cases s j rd j' Ed Od H2)
      as [[Hc _] | [-> ->]].
    + now apply Hnone in Hc.
    + unfold OptionalWhitespace. rewrite skipn_all. simpl span.
      rewrite Nat.add_0_r. cbn [isErr err ok negb orb]. reflexivity.
Qed.

Lemma jsComment_fails (s : gostring) (i : nat) :
  ~ occursAt (lit "//") s i -> ~ occursAt (lit "/*") s i ->
  jsComment s i = (mkResult [] false None, i).
Proof.
  intros H1 H2. unfold jsComment. cbn [Any].
  unfold jsSingleLineComment, jsStartSingleLineComment.
  rewrite (StringFrom_first_fails _ _ _ _ H1). cbn [isErr err ok orb].
  unfold jsMultiLineComment, jsStartMultiLineComment.
  now rewrite (StringFrom_first_fails _ _ _ _ H2).
Qed.

Lemma occursAt_first (m s : gostring) (i : nat) (c : ascii) :
  occursAt (c :: m) s i -> nth_error s i = Some c.
Proof. intros H. now apply occursAt_nth, (occursAt_head c m). Qed.

(** ** More on the scanning loop *)

Section MoreScannerProperties.

Variable goCodeInJavaScript : Parser GoCode.
Variable hexDigits : Parser gostring.

Local Abbreviation oneRound := (loopBody goCodeInJavaScript hexDigits).
Local Abbreviation rounds := (scan goCodeInJavaScript hexDigits).
Local Abbreviation passes := (reachable goCodeInJavaScript hexDigits).
Local Abbreviation endTag := (lit "</script>").

(** X8: a comment [/*body*/] is read as one unit in every state of the
    scanner.  When a round starts at [/*] and the expression parser does
    not match there, the round does not end the loop and changes neither
    [stringLiteralDelimiter] nor [inRegex]: the comment up to the first
    [*/], together with the white space after it, becomes an entry of its
    own, whatever the comment holds, [</script>] included. *)
Theorem block_comment_is_one_unit (s body : gostring) (st : scanner)
    (rGo : Result GoCode) :
  occursAt (lit "/*" ++ body ++ lit "*/") s (cursor st) ->
  (forall k, k < length body ->
             ~ occursAt (lit "*/") s (cursor st + 2 + k)) ->
  goCodeInJavaScript s (cursor st) = (rGo, cursor st) ->
  err rGo = None -> ok rGo = false ->
  let close := cursor st + 2 + length body + 2 in
  let stop := close + span unicode.IsSpace (skipn close s) in
  oneRound s st
  = Continue (appendEntry st
                (NewScriptContentsScriptCode (slice s (cursor st) stop))
                stop).
Proof.
  intros Hocc Hbody EGo HeGo OGo close stop.
  pose proof (occursAt_first _ _ _ _ Hocc) as H0.
  assert (H1 : nth_error s (cursor st + 1) = Some "*"%char).
  { rewrite (occursAt_nth_error _ _ _ 1 Hocc); [reflexivity|].
    simpl. lia. }
  assert (Hend : ~ occursAt endTag s (cursor st)).
  { intros H. apply occursAt_first in H. congruence. }
  assert (Hsingle : ~ occursAt (lit "//") s (cursor st)).
  { intros H. apply occursAt_two in H. destruct H as [_ H]. congruence. }
  unfold loopBody, jsEndTag.
  rewrite (String_not_occurs _ _ _ Hend). cbn [isErr err ok orb].
  rewrite EGo, HeGo, OGo.
  unfold jsComment. cbn [Any].
  unfold jsSingleLineComment at 1, jsStartSingleLineComment.
  rewrite (StringFrom_first_fails _ _ _ _ Hsingle). cbn [isErr err ok orb].
  rewrite (jsMultiLineComment_closed s body (cursor st) Hocc Hbody).
  reflexivity.
Qed.

Lemma readUnit_escape (st : scanner) (x : ascii) (i : nat) :
  readUnit st [BACKSLASH; x] i
  = mkScanner (contents st) (sb st ++ [BACKSLASH; x])
              (stringLiteralDelimiter st) (inRegex st) i.
Proof.
  unfold readUnit, regexAfter, delimiterAfter.
  change (streq [BACKSLASH; x] (lit "/")) with false.
  change (streq [BACKSLASH; x] [DQUOTE]) with false.
  change (streq [BACKSLASH; x] (lit "'")) with false.
  change (streq [BACKSLASH; x] (lit "`")) with false.
  rewrite !andb_false_r. cbn [orb].
  destruct (streq (stringLiteralDelimiter st) jsQuoteNone),
    (inRegex st); reflexivity.
Qed.

(** A round that starts at a backslash reads it and the byte after it as
    one unit. *)
Lemma round_reads_escape (s : gostring) (st : scanner) (x : ascii)
    (rGo : Result GoCode) :
  nth_error s (cursor st) = Some BACKSLASH ->
  nth_error s (cursor st + 1) = Some x ->
  goCodeInJavaScript s (cursor st) = (rGo, cursor st) ->
  err rGo = None -> ok rGo = false ->
  oneRound s st
  = Continue (readUnit st [BACKSLASH; x] (cursor st + 2)).
Proof.
  intros H0 H1 EGo HeGo OGo.
  assert (Hend : ~ occursAt endTag s (cursor st)).
  { intros H. apply occursAt_first in H. rewrite H0 in H.
    vm_compute in H. discriminate. }
  assert (Hc1 : ~ occursAt (lit "//") s (cursor st)).
  { intros H. apply occursAt_first in H. rewrite H0 in H.
    vm_compute in H. discriminate. }
  assert (Hc2 : ~ occursAt (lit "/*") s (cursor st)).
  { intros H. apply occursAt_first in H. rewrite H0 in H.
    vm_compute in H. discriminate. }
  unfold loopBody, jsEndTag.
  rewrite (String_not_occurs _ _ _ Hend). cbn [isErr err ok orb].
  rewrite EGo, HeGo, OGo.
  rewrite (jsComment_fails _ _ Hc1 Hc2). cbn [err ok].
  unfold jsCharacter. rewrite jsCharacterWith_eq.
  destruct (jsBackslashEscape_eq s (cursor st))
    as [(_ & Hl & ->) | ([H | H] & _)].
  - cbn [err ok negb value].
    assert (Hv : slice s (cursor st) (cursor st + 2) = [BACKSLASH; x]).
    { unfold slice. replace (cursor st + 2 - cursor st) with 2 by lia.
      rewrite <- (firstn_skipn (cursor st) s) in H0, H1.
      assert (Hlen : length (firstn (cursor st) s) = cursor st)
        by (rewrite length_firstn; lia).
      rewrite nth_error_app2 in H0, H1 by lia.
      rewrite Hlen in H0, H1.
      replace (cursor st - cursor st) with 0 in H0 by lia.
      replace (cursor st + 1 - cursor st) with 1 in H1 by lia.
      destruct (skipn (cursor st) s) as [|a [|b r]];
        cbn [nth_error firstn] in *; try discriminate.
      injection H0 as ->. injection H1 as ->. reflexivity. }
    rewrite Hv. reflexivity.
  - exfalso. apply H. now apply occursAt_nth.
  - assert (cursor st + 1 < length s) by (apply nth_error_Some; congruence).
    lia.
Qed.

(** X9: an escaped byte never opens or closes a string or a regex.  When
    a round starts at a backslash that a byte [x] follows and the
    expression parser does not match there, the two bytes are appended to
    [sb] as one unit and [stringLiteralDelimiter] and [inRegex] stay as
    they are, whatever [x] is: a quote or a slash after a backslash is
    ordinary text. *)
Theorem escaped_byte_keeps_state (s : gostring) (st : scanner) (x : ascii)
    (rGo : Result GoCode) :
  nth_error s (cursor st) = Some BACKSLASH ->
  nth_error s (cursor st + 1) = Some x ->
  goCodeInJavaScript s (cursor st) = (rGo, cursor st) ->
  err rGo = None -> ok rGo = false ->
  oneRound s st
  = Continue (mkScanner (contents st) (sb st ++ [BACKSLASH; x])
                        (stringLiteralDelimiter st) (inRegex st)
                        (cursor st + 2)).
Proof.
  intros H0 H1 EGo HeGo OGo.
  rewrite <- (readUnit_escape st x (cursor st + 2)).
  exact (round_reads_escape s st x rGo H0 H1 EGo HeGo OGo).
Qed.

(** *** The automaton *)

Lemma streq_sym (a b : gostring) : streq a b = streq b a.
Proof.
  destruct (streq a b) eqn:E.
  - apply streq_eq in E. subst. symmetry. apply streq_refl.
  - symmetry. apply streq_neq. apply streq_neq in E. congruence.
Qed.

Lemma isQuoteUnit_known (c : gostring) :
  isQuoteUnit c = true ->
  c = jsQuoteDouble \/ c = jsQuoteSingle \/ c = jsQuoteBacktick.
Proof.
  unfold isQuoteUnit. rewrite !orb_true_iff, !streq_eq. tauto.
Qed.

Lemma readUnit_knownQuote (st : scanner) (c : gostring) (i : nat) :
  knownQuote (stringLiteralDelimiter st) ->
  knownQuote (stringLiteralDelimiter (readUnit st c i)).
Proof.
  intros Hq. unfold readUnit. cbn [stringLiteralDelimiter].
  unfold delimiterAfter. fold (isQuoteUnit c).
  destruct (negb (regexAfter st c)); [|assumption].
  destruct (isQuoteUnit c) eqn:Hc; [|assumption].
  destruct (streq (stringLiteralDelimiter st) jsQuoteNone).
  - apply isQuoteUnit_known in Hc. unfold knownQuote. tauto.
  - destruct (streq (stringLiteralDelimiter st) c); [now left | assumption].
Qed.

Lemma delimiter_is_a_quote_aux (s : gostring) (i0 : nat) (st : scanner) :
  passes s (scanStart i0) st -> knownQuote (stringLiteralDelimiter st).
Proof.
  induction 1 as [|st st' _ IH Hstep]; [now left|].
  destruct (loopBody_Continue _ _ s st st' Hstep)
    as (_ & rGo & i2 & _ & _ & [[_ ->] | (_ & rC & i3 & _ &
          [[_ ->] | (_ & rCh & i4 & _ & _ & ->)])]).
  - exact IH.
  - exact IH.
  - now apply readUnit_knownQuote.
Qed.

(** X10: [stringLiteralDelimiter] only ever holds one of the four
    constants of [jsQuote] -- none, the single quote, the double quote, the
    backtick -- in every state that the loop passes through, and in the
    state with which the loop ends. *)
Theorem delimiter_is_a_quote (s : gostring) (fuel i0 : nat) (st : scanner) :
  passes s (scanStart i0) st
  \/ rounds fuel s (scanStart i0) = Some (Broke st) ->
  knownQuote (stringLiteralDelimiter st).
Proof.
  intros [H | H]; [now apply (delimiter_is_a_quote_aux s i0)|].
  destruct (rounds_end _ _ s _ _ _ H) as (st1 & Hreach & Hbreak).
  pose proof (delimiter_is_a_quote_aux s i0 st1 Hreach) as Hq.
  destruct (loopBody_Break _ _ s st1 st Hbreak)
    as [[_ ->] | (_ & rGo & i2 & _ & _ & _ & _ & ->)]; exact Hq.
Qed.

Lemma lexStateOf_appendEntry (st : scanner) (c : ScriptContents) (i : nat) :
  lexStateOf (appendEntry st c i) = lexStateOf st.
Proof. reflexivity. Qed.

(** Reading a unit moves the automaton by [lexStep]. *)
Lemma lexStateOf_readUnit (st : scanner) (c : gostring) (i : nat) :
  exclusive st -> knownQuote (stringLiteralDelimiter st) ->
  lexStateOf (readUnit st c i) = lexStep (lexStateOf st) (sb st) c.
Proof.
  intros Hex Hq.
  unfold lexStateOf, readUnit, exclusive in *.
  cbn [inRegex stringLiteralDelimiter].
  unfold delimiterAfter, regexAfter. fold (isQuoteUnit c).
  assert (Hslash : streq c (lit "/") = true -> isQuoteUnit c = false).
  { intros H. apply streq_eq in H. now subst c. }
  assert (Hquote : isQuoteUnit c = true ->
                   streq c jsQuoteNone = false
                   /\ streq jsQuoteNone c = false).
  { intros H. apply isQuoteUnit_known in H.
    destruct H as [-> | [-> | ->]]; now split. }
  assert (Hother : forall q, knownQuote q -> isQuoteUnit c = false ->
                             streq q jsQuoteNone = false ->
                             streq c q = false).
  { intros q Hk Hc Hn. unfold isQuoteUnit in Hc.
    apply orb_false_elim in Hc. destruct Hc as [Hc H3].
    apply orb_false_elim in Hc. destruct Hc as [H1 H2].
    destruct Hk as [-> | [-> | [-> | ->]]]; auto; discriminate. }
  destruct (inRegex st) eqn:Hre.
  - (* in a regex *)
    rewrite (Hex eq_refl).
    change (streq jsQuoteNone jsQuoteNone) with true.
    destruct (streq c (lit "/")) eqn:Hs;
      cbn [lexStep negb andb orb]; rewrite ?Hs; cbn [negb andb orb];
      [|reflexivity].
    rewrite (Hslash eq_refl).
    destruct (0 <? length (sb st));
      destruct (Ascii.eqb (byteAt (sb st) (length (sb st) - 1)) BACKSLASH);
      cbn [negb andb]; reflexivity.
  - destruct (streq (stringLiteralDelimiter st) jsQuoteNone) eqn:Hn;
      destruct (streq c (lit "/")) eqn:Hs;
      destruct (isQuoteUnit c) eqn:Hc;
      try (specialize (Hslash eq_refl); discriminate);
      cbn [lexStep negb andb orb]; rewrite ?Hs, ?Hc; cbn [negb andb orb].
    + (* plain text, a slash *)
      destruct (isStartOfRegex (sb st)); cbn [negb]; [reflexivity|].
      now rewrite Hn.
    + (* plain text, a quote *)
      destruct (Hquote eq_refl) as [H1 H2]. now rewrite H1.
    + (* plain text, another unit *)
      now rewrite Hn.
    + (* a string, a slash *)
      rewrite Hn. rewrite (Hother _ Hq eq_refl Hn). reflexivity.
    + (* a string, a quote *)
      rewrite (streq_sym c (stringLiteralDelimiter st)).
      destruct (streq (stringLiteralDelimiter st) c);
        [reflexivity | now rewrite Hn].
    + (* a string, another unit *)
      rewrite Hn. rewrite (Hother _ Hq eq_refl Hn). reflexivity.
Qed.

(** X11: the two variables behave as one automaton with three states.  In
    every round that continues the loop, the state -- plain text, inside a
    string with its quote, inside a regex -- stays as it is when the round
    appends an expression or a comment, and moves by [lexStep] on the unit
    read and the text of [sb] before it when the round reads a unit. *)
Theorem scanner_is_an_automaton (s : gostring) (i0 : nat) (st st' : scanner) :
  passes s (scanStart i0) st ->
  oneRound s st = Continue st' ->
  (exists entry, st' = appendEntry st entry (cursor st')
                 /\ lexStateOf st' = lexStateOf st)
  \/ (exists c, st' = readUnit st c (cursor st')
                /\ lexStateOf st' = lexStep (lexStateOf st) (sb st) c).
Proof.
  intros Hreach Hstep.
  pose proof (passes_exclusive _ _ s i0 st Hreach) as Hex.
  pose proof (delimiter_is_a_quote_aux s i0 st Hreach) as Hq.
  destruct (loopBody_Continue _ _ s st st' Hstep)
    as (_ & rGo & i2 & _ & _ & [[_ ->] | (_ & rC & i3 & _ &
          [[_ ->] | (_ & rCh & i4 & _ & _ & ->)])]).
  - left. eexists. split; reflexivity.
  - left. eexists. split; reflexivity.
  - right. exists (value rCh). split; [reflexivity|].
    now apply lexStateOf_readUnit.
Qed.

(** *** The entries of the contents *)

Lemma flush_textsNotEmpty (st : scanner) :
  textsNotEmpty (contents st) -> textsNotEmpty (contents (flush st)).
Proof.
  intros H. unfold flush. destruct (0 <? length (sb st)) eqn:E; [|assumption].
  simpl. intros entry t Hin Hv. apply in_app_or in Hin.
  destruct Hin as [Hin | [<- | []]]; [now apply (H entry)|].
  injection Hv as <-. apply Nat.ltb_lt in E. intros Hs. rewrite Hs in E.
  simpl in E. lia.
Qed.

Lemma appendEntry_textsNotEmpty (st : scanner) (c : ScriptContents) (i : nat) :
  textsNotEmpty (contents st) ->
  (forall t, Value c = Some t -> t <> []) ->
  textsNotEmpty (contents (appendEntry st c i)).
Proof.
  intros H Hc entry t Hin Hv. simpl in Hin. apply in_app_or in Hin.
  destruct Hin as [Hin | [<- | []]].
  - now apply (flush_textsNotEmpty st H entry).
  - now apply Hc.
Qed.

Lemma passes_textsNotEmpty (s : gostring) (i5 : nat) (st : scanner) :
  passes s (scanStart i5) st -> textsNotEmpty (contents st).
Proof.
  induction 1 as [|st st' _ IH Hstep]; [now intros entry t []|].
  destruct (loopBody_Continue _ _ s st st' Hstep)
    as (_ & rGo & i2 & _ & _ & [[_ ->] | (_ & rC & i3 & EC &
          [[OC ->] | (_ & rCh & i4 & _ & _ & ->)])]).
  - apply appendEntry_textsNotEmpty; [assumption | discriminate].
  - apply appendEntry_textsNotEmpty; [assumption|].
    intros t Ht. injection Ht as <-.
    destruct (jsComment_inv _ _ _ _ EC) as (_ & Hok & _).
    destruct (Hok OC) as (_ & _ & _ & rest & [-> | ->]); discriminate.
  - exact IH.
Qed.

Lemma rounds_textsNotEmpty (s : gostring) (fuel i5 : nat) (st : scanner) :
  rounds fuel s (scanStart i5) = Some (Broke st) ->
  textsNotEmpty (contents (flush st)).
Proof.
  intros E. destruct (rounds_end _ _ s _ _ _ E) as (st1 & Hreach & Hbreak).
  pose proof (passes_textsNotEmpty s i5 st1 Hreach) as H.
  apply flush_textsNotEmpty.
  destruct (loopBody_Break _ _ s st1 st Hbreak)
    as [[_ ->] | (_ & rGo & i2 & _ & _ & _ & _ & ->)]; exact H.
Qed.

(** Either the loop is still in its first state, or it has consumed text
    and holds some of it. *)
Lemma passes_consumed (s : gostring) (i5 : nat) (st : scanner) :
  expressionsDisciplined goCodeInJavaScript s -> i5 <= length s ->
  passes s (scanStart i5) st ->
  st = scanStart i5
  \/ (i5 < cursor st /\ cursor st <= length s
      /\ (contents st <> [] \/ sb st <> [])
      /\ ~ occursAt endTag s i5 /\ i5 < length s).
Proof.
  intros Hgo Hi. induction 1 as [|st st' Hreach IH Hstep]; [now left|].
  right.
  assert (Hc : i5 <= cursor st /\ cursor st <= length s).
  { destruct IH as [-> | IH]; simpl; lia. }
  destruct (round_progress _ _ s st st' Hgo (proj2 Hc) Hstep) as [Hp1 Hp2].
  destruct (loopBody_Continue _ _ s st st' Hstep)
    as (Hend & rGo & i2 & EGo & HeGo & Hcases).
  split; [lia|]. split; [assumption|]. split.
  - destruct Hcases as [[_ ->] | (OGo & rC & i3 & EC &
          [[_ ->] | (_ & rCh & i4 & ECh & OCh & ->)])]; simpl.
    + left. now destruct (contents (flush st)).
    + left. now destruct (contents (flush st)).
    + right. destruct (jsCharacter_inv _ _ _ _ _ ECh) as (_ & Hok & _).
      destruct (Hok OCh) as (H1 & H2 & Hv).
      intros Hs. apply (f_equal (@length ascii)) in Hs.
      rewrite length_app, Hv, length_slice in Hs by lia.
      simpl in Hs. lia.
  - destruct IH as [-> | (_ & _ & _ & H1 & H2)]; simpl in *;
      split; auto; lia.
Qed.

(** *** The slash that closes a regex *)

(** A round that starts at a byte that is no backslash, and where neither
    the end tag, nor an expression, nor a comment starts, reads the byte as
    a unit. *)
Lemma round_reads_byte (s : gostring) (st : scanner) (c : ascii)
    (rGo : Result GoCode) :
  nth_error s (cursor st) = Some c -> c <> BACKSLASH ->
  ~ occursAt endTag s (cursor st) ->
  ~ occursAt (lit "//") s (cursor st) ->
  ~ occursAt (lit "/*") s (cursor st) ->
  goCodeInJavaScript s (cursor st) = (rGo, cursor st) ->
  err rGo = None -> ok rGo = false ->
  oneRound s st = Continue (readUnit st [c] (cursor st + 1)).
Proof.
  intros H0 Hc Hend Hc1 Hc2 EGo HeGo OGo.
  unfold loopBody, jsEndTag.
  rewrite (String_not_occurs _ _ _ Hend). cbn [isErr err ok orb].
  rewrite EGo, HeGo, OGo.
  rewrite (jsComment_fails _ _ Hc1 Hc2). cbn [err ok].
  unfold jsCharacter. rewrite jsCharacterWith_eq.
  destruct (jsBackslashEscape_eq s (cursor st))
    as [(H & _) | (_ & ->)].
  - apply occursAt_nth in H. congruence.
  - cbn [ok].
    destruct (AnyRune s (cursor st)) as [rCh i4] eqn:ECh.
    apply RuneWhere_inv in ECh. destruct ECh as (He & Hok & Hno).
    rewrite He.
    destruct (ok rCh).
    + destruct (Hok eq_refl) as (c' & Hc' & _ & -> & ->).
      cbn [negb]. unfold readUnit. congruence.
    + destruct (Hno eq_refl) as [_ Hf]. now apply Hf in H0.
Qed.

(** X18: inside a regex, the slash after an escaped backslash does not
    close the regex.  The two backslashes are read as one unit, which
    leaves a backslash as the last byte of [sb]; the round that reads the
    slash looks at that byte only, so [inRegex] stays true after the
    slash. *)
Theorem slash_after_escaped_backslash (s : gostring) (i0 : nat)
    (st : scanner) (rGo rGo' : Result GoCode) :
  passes s (scanStart i0) st -> inRegex st = true ->
  nth_error s (cursor st) = Some BACKSLASH ->
  nth_error s (cursor st + 1) = Some BACKSLASH ->
  nth_error s (cursor st + 2) = Some "/"%char ->
  nth_error s (cursor st + 3) <> Some "/"%char ->
  nth_error s (cursor st + 3) <> Some "*"%char ->
  goCodeInJavaScript s (cursor st) = (rGo, cursor st) ->
  err rGo = None -> ok rGo = false ->
  goCodeInJavaScript s (cursor st + 2) = (rGo', cursor st + 2) ->
  err rGo' = None -> ok rGo' = false ->
  exists st1,
    oneRound s st = Continue st1
    /\ oneRound s st1
       = Continue (mkScanner (contents st)
                     (sb st ++ [BACKSLASH; BACKSLASH; "/"%char])
                     jsQuoteNone true (cursor st + 3)).
Proof.
  intros Hreach Hin H0 H1 H2 H3 H3' EGo HeGo OGo EGo' HeGo' OGo'.
  pose proof (passes_exclusive _ _ s i0 st Hreach Hin) as Hq.
  exists (readUnit st [BACKSLASH; BACKSLASH] (cursor st + 2)).
  split; [exact (round_reads_escape s st BACKSLASH rGo H0 H1 EGo HeGo OGo)|].
  rewrite readUnit_escape.
  set (st1 := mkScanner (contents st) (sb st ++ [BACKSLASH; BACKSLASH])
                        (stringLiteralDelimiter st) (inRegex st)
                        (cursor st + 2)).
  assert (Hstep : oneRound s st1
                  = Continue (readUnit st1 ["/"%char] (cursor st1 + 1))).
  { apply (round_reads_byte s st1 "/"%char rGo'); cbn [st1 cursor];
      try assumption.
    - discriminate.
    - intros H. apply occursAt_first in H. congruence.
    - intros H. apply occursAt_two in H.
      replace (cursor st + 2 + 1) with (cursor st + 3) in H by lia.
      now destruct H.
    - intros H. apply occursAt_two in H.
      replace (cursor st + 2 + 1) with (cursor st + 3) in H by lia.
      now destruct H. }
  rewrite Hstep. f_equal. unfold readUnit, regexAfter, delimiterAfter.
  cbn [st1 contents sb stringLiteralDelimiter inRegex cursor].
  rewrite Hq, Hin. change (streq jsQuoteNone jsQuoteNone) with true.
  change (streq ["/"%char] (lit "/")) with true. cbn [negb andb].
  assert (Hlast : byteAt (sb st ++ [BACKSLASH; BACKSLASH])
                         (length (sb st ++ [BACKSLASH; BACKSLASH]) - 1)
                  = BACKSLASH).
  { replace (sb st ++ [BACKSLASH; BACKSLASH])
      with ((sb st ++ [BACKSLASH]) ++ BACKSLASH :: [])
      by now rewrite <- app_assoc.
    replace (length ((sb st ++ [BACKSLASH]) ++ [BACKSLASH]) - 1)
      with (length (sb st ++ [BACKSLASH]))
      by (rewrite !length_app; simpl; lia).
    apply byteAt_middle. }
  rewrite Hlast. change (Ascii.eqb BACKSLASH BACKSLASH) with true.
  rewrite andb_false_r. cbn [negb].
  rewrite <- app_assoc.
  replace (cursor st + 2 + 1) with (cursor st + 3) by lia.
  reflexivity.
Qed.

End MoreScannerProperties.

(** ** More on [scriptElementParser.Parse] *)

Section MoreParseProperties.

Variable EqualFold : gostring -> gostring -> bool.
Variable elementNameParser : Parser gostring.
Variable attributesParser : Parser (list Attribute).
Variable goCodeInJavaScript : Parser GoCode.
Variable hexDigits : Parser gostring.

Local Abbreviation parseScript :=
  (Parse EqualFold elementNameParser attributesParser goCodeInJavaScript
         hexDigits).
Local Abbreviation accepted :=
  (tagAccepted elementNameParser attributesParser).
Local Abbreviation rounds := (scan goCodeInJavaScript hexDigits).
Local Abbreviation passes := (reachable goCodeInJavaScript hexDigits).
Local Abbreviation endTag := (lit "</script>").

(** A JavaScript element that [Parse] returns comes from a run of the loop
    that ended by [break]. *)
Lemma Parse_javaScript (fuel : nat) (s : gostring) (i0 : nat)
    (e : ScriptElement) (iEnd : nat) :
  parseScript fuel s i0 = Some (mkResult (Some e) true None, iEnd) ->
  hasJavaScriptType EqualFold (Attributes e) = true ->
  exists i5 st,
    accepted s i0 (Attributes e) i5 /\ i5 <= length s
    /\ rounds fuel s (scanStart i5) = Some (Broke st)
    /\ Contents e = contents (flush st)
    /\ ElementRange e = NewRange (PositionAt s i0) (PositionAt s iEnd)
    /\ iEnd = cursor st.
Proof.
  intros E Hjs.
  destruct (Parse_element _ _ _ _ _ fuel s i0 _ _ e E eq_refl)
    as (attrs & i5 & Hacc).
  rewrite (Parse_accepted _ _ _ _ _ fuel s i0 attrs i5 Hacc) in E.
  destruct (accepted_inside _ _ s i0 attrs i5 Hacc) as [_ Hi5].
  destruct (hasJavaScriptType EqualFold attrs) eqn:Hattrs; cbn [negb] in E.
  - unfold parseJavaScript in E.
    destruct (scan goCodeInJavaScript hexDigits fuel s (scanStart i5))
      as [[st | r i]|] eqn:Es; [| |discriminate].
    + injection E as <- <-. cbn [Attributes Contents ElementRange] in *.
      exists i5, st.
      assert (Hc : cursor (flush st) = cursor st).
      { unfold flush. now destruct (0 <? length (sb st)). }
      rewrite Hc. repeat split; auto.
    + injection E as -> _.
      destruct (rounds_end _ _ s _ _ _ Es) as (st1 & _ & Hret).
      destruct (loopBody_Return _ _ s st1 _ _ Hret) as (rGo & e' & _ & _ & H).
      discriminate.
  - unfold parseRawText in E.
    destruct (StringUntil jsEndTag s i5) as [rText i6].
    destruct (isErr rText || negb (ok rText)); [discriminate|].
    destruct (jsEndTag s i6) as [rEnd i7].
    injection E as <- _. simpl in Hjs. congruence.
Qed.

(** X12: a JavaScript element holds no empty text.  In the contents of
    every JavaScript element that [Parse] returns, an entry of script text
    is never the empty string: [sb] is flushed only when it holds text, and
    a comment has two bytes or more. *)
Theorem text_entries_are_not_empty (fuel : nat) (s : gostring) (i0 : nat)
    (e : ScriptElement) (iEnd : nat) :
  parseScript fuel s i0 = Some (mkResult (Some e) true None, iEnd) ->
  hasJavaScriptType EqualFold (Attributes e) = true ->
  forall entry t, In entry (Contents e) -> Value entry = Some t -> t <> [].
Proof.
  intros E Hjs.
  destruct (Parse_javaScript fuel s i0 e iEnd E Hjs)
    as (i5 & st & _ & _ & Es & -> & _).
  exact (rounds_textsNotEmpty _ _ s fuel i5 st Es).
Qed.

(** X13: the contents are empty exactly when nothing stands between the
    tags.  With an expression parser that keeps the discipline of the
    cursor, a JavaScript element that [Parse] returns has no contents if
    and only if the end tag, or the end of the input, comes directly after
    the [>] of the opening tag. *)
Theorem contents_empty_iff (fuel : nat) (s : gostring) (i0 : nat)
    (e : ScriptElement) (iEnd : nat) :
  expressionsDisciplined goCodeInJavaScript s ->
  parseScript fuel s i0 = Some (mkResult (Some e) true None, iEnd) ->
  hasJavaScriptType EqualFold (Attributes e) = true ->
  exists i5,
    accepted s i0 (Attributes e) i5
    /\ (Contents e = [] <-> occursAt endTag s i5 \/ i5 = length s).
Proof.
  intros Hgo E Hjs.
  destruct (Parse_javaScript fuel s i0 e iEnd E Hjs)
    as (i5 & st & Hacc & Hi5 & Es & -> & _).
  exists i5. split; [assumption|].
  destruct (rounds_end _ _ s _ _ _ Es) as (st1 & Hreach & Hbreak).
  assert (Hsame : contents st = contents st1 /\ sb st = sb st1).
  { destruct (loopBody_Break _ _ s st1 st Hbreak)
      as [[_ ->] | (_ & rGo & i2 & _ & _ & _ & _ & ->)]; now split. }
  destruct Hsame as [Hc Hs].
  destruct (passes_consumed _ _ s i5 st1 Hgo Hi5 Hreach)
    as [-> | (H1 & H2 & Hsome & Hno & Hlt)].
  - split.
    + intros _.
      destruct (loopBody_Break _ _ s _ st Hbreak)
        as [[Hocc _] | (_ & rGo & i2 & EGo & HeGo & OGo & Hlen & _)];
        [now left | right].
      simpl in EGo. destruct (Hgo _ _ _ EGo Hi5 HeGo) as [Hstay _].
      rewrite (Hstay OGo) in Hlen. lia.
    + intros _. unfold flush. rewrite Hs. cbn [scanStart sb length Nat.ltb Nat.leb].
      rewrite Hc. reflexivity.
  - split.
    + intros Hempty. exfalso. unfold flush in Hempty.
      destruct (0 <? length (sb st)) eqn:Hl.
      * simpl in Hempty. now destruct (contents st).
      * apply Nat.ltb_ge in Hl. rewrite Hc in Hempty. rewrite Hs in Hl.
        destruct Hsome as [Hsome | Hsome]; [contradiction|].
        destruct (sb st1); [contradiction | simpl in Hl; lia].
    + intros [Hocc | ->]; [contradiction | lia].
Qed.

(** X14: the range of the element.  For every element that [Parse]
    returns without error, the range runs from the position of the [<] to
    the position of the cursor at the return when the script is
    JavaScript, and is left at its zero value when it is not. *)
Theorem element_range (fuel : nat) (s : gostring) (i0 : nat)
    (e : ScriptElement) (iEnd : nat) :
  parseScript fuel s i0 = Some (mkResult (Some e) true None, iEnd) ->
  ElementRange e
  = if hasJavaScriptType EqualFold (Attributes e)
    then NewRange (PositionAt s i0) (PositionAt s iEnd)
    else zeroRange.
Proof.
  intros E.
  destruct (hasJavaScriptType EqualFold (Attributes e)) eqn:Hjs.
  - destruct (Parse_javaScript fuel s i0 e iEnd E Hjs)
      as (i5 & st & _ & _ & _ & _ & H & _).
    exact H.
  - destruct (Parse_element _ _ _ _ _ fuel s i0 _ _ e E eq_refl)
      as (attrs & i5 & Hacc).
    rewrite (Parse_accepted _ _ _ _ _ fuel s i0 attrs i5 Hacc) in E.
    destruct (hasJavaScriptType EqualFold attrs) eqn:Hattrs; cbn [negb] in E.
    + unfold parseJavaScript in E.
      destruct (scan goCodeInJavaScript hexDigits fuel s (scanStart i5))
        as [[st | r i]|] eqn:Es; [| |discriminate].
      * injection E as <- _. simpl in Hjs. congruence.
      * injection E as -> _.
        destruct (rounds_end _ _ s _ _ _ Es) as (st1 & _ & Hret).
        destruct (loopBody_Return _ _ s st1 _ _ Hret)
          as (rGo & e' & _ & _ & H).
        discriminate.
    + unfold parseRawText in E.
      destruct (StringUntil jsEndTag s i5) as [rText i6].
      destruct (isErr rText || negb (ok rText)); [discriminate|].
      destruct (jsEndTag s i6) as [rEnd i7].
      now injection E as <- _.
Qed.

(** X15: an error inside an expression ends the parse with nothing else.
    When the loop of a JavaScript script starts a round where no end tag
    stands and the expression parser fails there with an error, [Parse]
    returns that error with no element and [ok = false]; what was scanned
    before is dropped, and the cursor stays where the expression parser
    left it: it is not moved back to the [<]. *)
Theorem expression_error_is_returned (s : gostring) (i0 : nat)
    (attrs : list Attribute) (i5 : nat) (st : scanner)
    (rGo : Result GoCode) (e : ParseError) (i : nat) :
  accepted s i0 attrs i5 ->
  hasJavaScriptType EqualFold attrs = true ->
  passes s (scanStart i5) st ->
  ~ occursAt endTag s (cursor st) ->
  goCodeInJavaScript s (cursor st) = (rGo, i) -> err rGo = Some e ->
  exists fuel, forall more,
    parseScript (fuel + more) s i0 = Some (mkResult None false (Some e), i).
Proof.
  intros Hacc Hjs Hreach Hend EGo He.
  assert (Hstep : loopBody goCodeInJavaScript hexDigits s st
                  = Return (mkResult None false (Some e)) i).
  { unfold loopBody, jsEndTag.
    rewrite (String_not_occurs _ _ _ Hend). cbn [isErr err ok orb].
    now rewrite EGo, He. }
  destruct (rounds_from_passes _ _ s _ _ Hreach 1
              (Returned (mkResult None false (Some e)) i)) as (m & _ & Em).
  { simpl. now rewrite Hstep. }
  exists m. intros more.
  rewrite (Parse_accepted _ _ _ _ _ (m + more) s i0 attrs i5 Hacc), Hjs.
  cbn [negb]. unfold parseJavaScript.
  now rewrite (rounds_more_fuel _ _ s m (m + more) _ _ Em) by lia.
Qed.

(** X16: an error of the grammar of the opening tag is returned to the
    caller.  When the element-name parser fails with an error after [<],
    or the attribute parser fails with an error after the name [script],
    [Parse] returns that error, with the [ok] of the failing parser and no
    node, after moving the cursor back to the [<]. *)
Theorem grammar_error_is_returned (fuel : nat) (s : gostring) (i0 : nat)
    (rLt : Result gostring) (i1 : nat) (rName : Result gostring) (i2 : nat)
    (okay : bool) (e : ParseError) :
  lt s i0 = (rLt, i1) -> ok rLt = true ->
  elementNameParser s i1 = (rName, i2) ->
  (err rName = Some e /\ okay = ok rName)
  \/ (err rName = None /\ ok rName = true /\ value rName = lit "script"
      /\ exists rAttrs i3,
           attributesParser s i2 = (rAttrs, i3)
           /\ err rAttrs = Some e /\ okay = ok rAttrs) ->
  parseScript fuel s i0 = Some (mkResult None okay (Some e), i0).
Proof.
  intros ELt OLt EName Hcases. unfold Parse.
  pose proof (Rune_err "<"%char s i0) as HLt. fold lt in HLt.
  rewrite ELt in *. cbn [fst] in HLt. rewrite HLt, OLt. cbn [negb orb].
  assert (Hback : forall i, Seek s i (Index (PositionAt s i0)) = i0).
  { intros i. cbn [PositionAt Index].
    destruct (Rune_ok _ _ _ _ _ ELt OLt). apply Seek_inside. lia. }
  rewrite EName.
  destruct Hcases as [[He ->] | (He & OName & VName & rAttrs & i3 & EAttrs
                                 & HeA & ->)].
  - unfold isErr at 1. rewrite He. cbn [orb]. now rewrite Hback.
  - rewrite (isErr_None _ He), OName, VName, streq_refl. cbn [negb orb].
    rewrite EAttrs. unfold isErr at 1. rewrite HeA. cbn [orb].
    now rewrite Hback.
Qed.

End MoreParseProperties.

(** ** The helper of the tests *)

Lemma ReplaceDollarNewline_plain (b : gostring) :
  ~ In "$"%char b -> bytes.ReplaceDollarNewline b = b.
Proof.
  induction b as [|c rest IH]; intros Hno; [reflexivity|].
  assert (Hc : Ascii.eqb c "$"%char = false).
  { apply Ascii.eqb_neq. intros ->. apply Hno. now left. }
  cbn [bytes.ReplaceDollarNewline]. rewrite Hc. cbn [andb].
  rewrite IH by (intros H; apply Hno; now right).
  now destruct rest.
Qed.

Lemma ReplaceDollarNewline_mark (x rest : gostring) :
  ~ In "$"%char x ->
  bytes.ReplaceDollarNewline (x ++ ["$"%char; LF] ++ rest)
  = x ++ [LF] ++ bytes.ReplaceDollarNewline rest.
Proof.
  induction x as [|c x IH]; intros Hno.
  - reflexivity.
  - assert (Hc : Ascii.eqb c "$"%char = false).
    { apply Ascii.eqb_neq. intros ->. apply Hno. now left. }
    change ((c :: x) ++ ["$"%char; LF] ++ rest)
      with (c :: (x ++ ["$"%char; LF] ++ rest)).
    cbn [bytes.ReplaceDollarNewline]. rewrite Hc. cbn [andb].
    rewrite IH by (intros H; apply Hno; now right).
    now destruct x.
Qed.

Lemma TrimSuffix_app (b suffix : gostring) :
  bytes.TrimSuffix (b ++ suffix) suffix = b.
Proof.
  unfold bytes.TrimSuffix.
  assert (H : strings.HasSuffix (b ++ suffix) suffix = true).
  { apply HasSuffix_spec. now exists b. }
  rewrite H, length_app, Nat.add_sub.
  rewrite firstn_app, Nat.sub_diag, firstn_all. cbn [firstn].
  apply app_nil_r.
Qed.

(** X17: what [clean] does to the text of a test.  Where the dollar sign
    stands in a text only once, as the mark before a newline, [clean]
    removes the mark and keeps the newline, so that the blanks before the
    mark end the line; and of the newlines at the end of a text [clean]
    removes one, no more. *)
Theorem clean_marks_and_last_newline (x y : gostring) :
  ~ In "$"%char x -> ~ In "$"%char y ->
  clean (x ++ ["$"%char; LF] ++ y ++ [LF]) = x ++ [LF] ++ y
  /\ clean (y ++ [LF; LF]) = y ++ [LF].
Proof.
  intros Hx Hy. unfold clean.
  assert (Hy1 : ~ In "$"%char (y ++ [LF])).
  { intros H. apply in_app_or in H. destruct H as [H | [H | []]];
      [now apply Hy | vm_compute in H; discriminate]. }
  split.
  - rewrite (ReplaceDollarNewline_mark x (y ++ [LF]) Hx).
    rewrite (ReplaceDollarNewline_plain _ Hy1).
    replace (x ++ [LF] ++ y ++ [LF]) with ((x ++ [LF] ++ y) ++ [LF])
      by now rewrite <- !app_assoc.
    apply TrimSuffix_app.
  - assert (Hy2 : ~ In "$"%char (y ++ [LF; LF])).
    { intros H. apply in_app_or in H.
      destruct H as [H | [H | [H | []]]];
        [now apply Hy | vm_compute in H; discriminate
         | vm_compute in H; discriminate]. }
    rewrite (ReplaceDollarNewline_plain _ Hy2).
    replace (y ++ [LF; LF]) with ((y ++ [LF]) ++ [LF])
      by now rewrite <- app_assoc.
    apply TrimSuffix_app.
Qed.

(** ** The properties above on texts *)

(** [commentToTheEnd]: no newline comes after the [//] at byte 8, and the
    comment is the rest of the text, the end tag included. *)
Lemma line_comment_runs_to_end :
  jsComment Examples.commentToTheEnd 8
  = (mkResult (slice Examples.commentToTheEnd 8
                     (length Examples.commentToTheEnd)) true None,
     length Examples.commentToTheEnd)
  /\ slice Examples.commentToTheEnd 8 (length Examples.commentToTheEnd)
     = lit "// foo</script>".
Proof.
  split; [|reflexivity].
  apply (comment_runs_to_end Examples.commentToTheEnd 8).
  left. split.
  - exists (lit "<script>"), (lit " foo</script>"). split; reflexivity.
  - intros k _ H. apply nth_error_In in H. vm_compute in H.
    repeat (destruct H as [H | H]; [discriminate|]). contradiction.
Defined.

(** [blockComment]: the first round reads the comment, the [</script>] in
    it included, and the blank after it as one entry. *)
Lemma block_comment_with_end_tag :
  Model.round Cases.blockComment (scanStart 8)
  = Continue (appendEntry (scanStart 8)
                (NewScriptContentsScriptCode (lit "/* </script> */ ")) 24).
Proof.
  exact (block_comment_is_one_unit Model.goCodeInJavaScript Model.hexDigits
           Cases.blockComment (lit " </script> ") (scanStart 8)
           (fst (Model.goCodeInJavaScript Cases.blockComment 8))
           (ex_intro _ (lit "<script>")
              (ex_intro _ (lit " x</script>") (conj eq_refl eq_refl)))
           ltac:(intros k Hk Hocc; vm_compute length in Hk;
                 nowhere k Hocc)
           eq_refl eq_refl eq_refl).
Defined.

(** [escapedQuote]: the round that starts at the backslash inside the
    string appends the backslash and the quote to [sb], and the string
    stays open. *)
Lemma escaped_quote_keeps_string_open :
  Model.round Cases.escapedQuote Cases.beforeBackslash
  = Continue (mkScanner [] ([DQUOTE] ++ lit "a" ++ [BACKSLASH; DQUOTE])
                        jsQuoteDouble false 12).
Proof.
  exact (escaped_byte_keeps_state Model.goCodeInJavaScript Model.hexDigits
           Cases.escapedQuote Cases.beforeBackslash DQUOTE
           (fst (Model.goCodeInJavaScript Cases.escapedQuote 10))
           eq_refl eq_refl eq_refl eq_refl eq_refl).
Defined.

(** [quotedEndTag], after the opening quote: the delimiter is the double
    quote. *)
Lemma delimiter_inside_string :
  knownQuote (stringLiteralDelimiter Examples.insideString)
  /\ stringLiteralDelimiter Examples.insideString = jsQuoteDouble.
Proof.
  split; [|reflexivity].
  apply (delimiter_is_a_quote Model.goCodeInJavaScript Model.hexDigits
           Examples.quotedEndTag 0 8 Examples.insideString).
  left. eapply reach_round; [apply reach_start | reflexivity].
Defined.

(** [quotedEndTag], first round: the unit read is the double quote, and the
    automaton moves from plain text into the string. *)
Lemma automaton_enters_string :
  ((exists entry,
      Examples.insideString
      = appendEntry (scanStart 8) entry (cursor Examples.insideString)
      /\ lexStateOf Examples.insideString = lexStateOf (scanStart 8))
   \/ (exists c,
         Examples.insideString
         = readUnit (scanStart 8) c (cursor Examples.insideString)
         /\ lexStateOf Examples.insideString
            = lexStep (lexStateOf (scanStart 8)) (sb (scanStart 8)) c))
  /\ lexStateOf (scanStart 8) = Plain
  /\ lexStateOf Examples.insideString = InString jsQuoteDouble.
Proof.
  split; [|split; reflexivity].
  apply (scanner_is_an_automaton Model.goCodeInJavaScript Model.hexDigits
           Examples.quotedEndTag 8 (scanStart 8) Examples.insideString).
  - apply reach_start.
  - reflexivity.
Defined.

(** [commentThenCode]: the two entries of the contents are texts, and none
    is empty. *)
Lemma texts_of_comment_then_code :
  Model.ParseWith 9 Examples.commentThenCode 0
  = Some (mkResult (Some Examples.commentThenCodeElement) true None, 37)
  /\ forall entry t,
       In entry (Contents Examples.commentThenCodeElement) ->
       Value entry = Some t -> t <> [].
Proof.
  split; [vm_compute; reflexivity|].
  apply (text_entries_are_not_empty Model.EqualFold Model.elementNameParser
           Model.attributesParser Model.goCodeInJavaScript Model.hexDigits
           9 Examples.commentThenCode 0 Examples.commentThenCodeElement 37).
  - vm_compute. reflexivity.
  - reflexivity.
Defined.

(** [emptyScript]: the end tag stands directly after the [>] at byte 7, and
    the contents are empty. *)
Lemma empty_script_has_no_contents :
  exists i5,
    Model.accepted Cases.emptyScript 0 (Attributes Cases.emptyElement) i5
    /\ (Contents Cases.emptyElement = []
        <-> occursAt (lit "</script>") Cases.emptyScript i5
            \/ i5 = length Cases.emptyScript).
Proof.
  apply (contents_empty_iff Model.EqualFold Model.elementNameParser
           Model.attributesParser Model.goCodeInJavaScript Model.hexDigits
           1 Cases.emptyScript 0 Cases.emptyElement 17).
  - apply Model_disciplined.
  - vm_compute. reflexivity.
  - reflexivity.
Defined.

(** The range of [textAndExpression], a JavaScript script, covers bytes 0
    to 29; the range of [jsonScript], which is raw text, is the zero
    value. *)
Lemma ranges_of_two_scripts :
  ElementRange Examples.textAndExpressionElement
  = NewRange (mkPosition 0 0 0) (mkPosition 29 0 29)
  /\ ElementRange
       (mkScriptElement Examples.jsonType
          [NewScriptContentsScriptCode (slice Examples.jsonScript 32 40)]
          zeroRange)
     = zeroRange.
Proof.
  split.
  - apply (element_range Model.EqualFold Model.elementNameParser
             Model.attributesParser Model.goCodeInJavaScript Model.hexDigits
             4 Examples.textAndExpression 0
             Examples.textAndExpressionElement 29).
    vm_compute. reflexivity.
  - reflexivity.
Defined.

(** [openBraces]: the round after [a] meets [{{] with no [}}] after it;
    [Parse] returns the error of the expression parser, and the cursor is
    at byte 12, not at 0. *)
Lemma open_braces_error :
  exists fuel, forall more,
    Model.ParseWith (fuel + more) Cases.openBraces 0
    = Some (mkResult None false (Some Cases.missingBraces), 12).
Proof.
  apply (expression_error_is_returned Model.EqualFold Model.elementNameParser
           Model.attributesParser Model.goCodeInJavaScript Model.hexDigits
           Cases.openBraces 0 [] 8 Cases.beforeBraces
           (fst (Model.goCodeInJavaScript Cases.openBraces 9))
           Cases.missingBraces 12).
  - accept_tag.
  - reflexivity.
  - eapply reach_round; [apply reach_start | reflexivity].
  - intros Hocc. apply occursAt_first in Hocc. vm_compute in Hocc.
    discriminate.
  - reflexivity.
  - reflexivity.
Defined.

(** [emptyScript] with an attribute parser that fails: the error comes
    back with the [ok] of that parser, and the cursor is at 0. *)
Lemma attribute_error_is_returned :
  Parse Model.EqualFold Model.elementNameParser Cases.failingAttributes
        Model.goCodeInJavaScript Model.hexDigits 0 Cases.emptyScript 0
  = Some (mkResult None false
            (Some (Error "attribute: unexpected end" (mkPosition 7 0 7))),
          0).
Proof.
  apply (grammar_error_is_returned Model.EqualFold Model.elementNameParser
           Cases.failingAttributes Model.goCodeInJavaScript Model.hexDigits
           0 Cases.emptyScript 0
           (fst (lt Cases.emptyScript 0)) 1
           (fst (Model.elementNameParser Cases.emptyScript 1)) 7).
  - reflexivity.
  - reflexivity.
  - reflexivity.
  - right. split; [reflexivity|]. split; [reflexivity|].
    split; [reflexivity|].
    exists (fst (Cases.failingAttributes Cases.emptyScript 7)), 7.
    split; [reflexivity|]. split; reflexivity.
Defined.

(** A line that ends with two blanks and the mark, then a line: the mark
    goes and the blanks stay; of two newlines at the end one stays. *)
Lemma clean_keeps_marked_blanks :
  clean (lit "a  " ++ ["$"%char; LF] ++ lit "b" ++ [LF])
  = lit "a  " ++ [LF] ++ lit "b"
  /\ clean (lit "b" ++ [LF; LF]) = lit "b" ++ [LF].
Proof.
  apply (clean_marks_and_last_newline (lit "a  ") (lit "b"));
    intros H; vm_compute in H;
    repeat (destruct H as [H | H]; [discriminate|]); contradiction.
Defined.

(** [backslashRegex]: after the regex that matches a backslash, the loop
    is still inside a regex. *)
Lemma backslash_regex_stays_open :
  exists st1,
    Model.round Cases.backslashRegex Cases.insideRegex = Continue st1
    /\ Model.round Cases.backslashRegex st1
       = Continue (mkScanner []
                     (lit "/" ++ [BACKSLASH; BACKSLASH] ++ lit "/")
                     jsQuoteNone true 12).
Proof.
  apply (slash_after_escaped_backslash Model.goCodeInJavaScript
           Model.hexDigits Cases.backslashRegex 8 Cases.insideRegex
           (fst (Model.goCodeInJavaScript Cases.backslashRegex 9))
           (fst (Model.goCodeInJavaScript Cases.backslashRegex 11)));
    try reflexivity; try discriminate.
  eapply reach_round; [apply reach_start | reflexivity].
Defined.
